(** * TranslatorWiz (ConteFi): node service and Contentful gateway

    A shallow embedding of [src/services/node.service.ts] and
    [src/services/contentful.service.ts], and the properties of the
    design document that concern them; then of the configuration service
    ([src/services/config.service.ts]), of the handlers that call these
    services and of the duplicate gate of the message router
    ([src/handlers]), with the properties the code shows.

    Conventions of the embedding.
    - A JavaScript [string] is a Rocq [string]: an ASCII character is
      one character, a character outside ASCII is the bytes of its UTF-8
      encoding, the way a literal of this file is read; [s.length] is
      [String.length s].  A string is truthy when it is not empty.
    - A plain object used as a dictionary is the [gmap] of its own
      properties.  An assignment [obj[k] = v] goes through [setProperty]:
      the key ["__proto__"] is the accessor of [Object.prototype] and
      stores no property.  A read [obj[k]] that can reach the prototype
      takes the properties of [Object.prototype] as a parameter.
    - A value thrown is an [Error] with its name and message, or a value
      of another kind, which [instanceof Error] tells apart.
    - A function that may throw returns [Exn A]; an [async] function that
      talks to the canvas or to the network is a function of the state it
      reads and returns the state it leaves.
    - The canvas is the list of the scene nodes of the current page in
      traversal order.  A node is visited once per traversal, so the
      in-place mutation [node.characters = v] of the source is the
      replacement of that element of the list.
    - [new RegExp], [encodeURIComponent], [figma.loadFontAsync] and the
      HTTP transport behind [fetchWithTimeout] are not code of this
      repository: they are parameters of the sections that use them. *)

From Stdlib Require Import ZArith Ascii.
From stdpp Require Import base option list strings gmap pretty.

(** ** JavaScript values and control *)

(** [if (s)] on a string. *)
Definition truthy (s : string) : bool := negb (String.eqb s "").

(** A value thrown: an instance of [Error], with its [name] and its
    [message], or a value of another kind (a string, a plain object), of
    which the embedding keeps [String(value)]. *)
Inductive JsError :=
| mkError (ename message : string)
| NotAnError (text : string).

Definition Error (msg : string) : JsError := mkError "Error" msg.
Definition TypeError (msg : string) : JsError := mkError "TypeError" msg.
Definition SyntaxError (msg : string) : JsError := mkError "SyntaxError" msg.

Inductive Exn (A : Type) : Type :=
| Return (a : A)
| Throw (e : JsError).
Arguments Return {A} a.
Arguments Throw {A} e.

Definition is_throw {A} (r : Exn A) : bool :=
  match r with Throw _ => true | Return _ => false end.

(** The name of the error thrown, when one was. *)
Definition ename_of {A} (r : Exn A) : option string :=
  match r with Throw (mkError ename _) => Some ename | _ => None end.

(** [error instanceof Error ? error.message : other] *)
Definition messageOrElse (other : string) (error : JsError) : string :=
  match error with
  | mkError _ message => message
  | NotAnError _ => other
  end.

(** [error instanceof Error ? error.message : String(error)] *)
Definition messageOrString (error : JsError) : string :=
  match error with
  | mkError _ message => message
  | NotAnError text => text
  end.

(** Computations that read and write a state [S] and may throw; the state
    reached when the exception is thrown is kept, as in the source. *)
Definition M (S A : Type) : Type := S -> Exn A * S.

Definition ret {S A} (a : A) : M S A := fun s => (Return a, s).
Definition throw {S A} (e : JsError) : M S A := fun s => (Throw e, s).
Definition bind {S A B} (m : M S A) (k : A -> M S B) : M S B :=
  fun s => match m s with
           | (Return a, s') => k a s'
           | (Throw e, s') => (Throw e, s')
           end.
(** [try { m } catch (e) { h e }] *)
Definition try_catch {S A} (m : M S A) (h : JsError -> M S A) : M S A :=
  fun s => match m s with
           | (Return a, s') => (Return a, s')
           | (Throw e, s') => h e s'
           end.
Definition lift {S A} (r : Exn A) : M S A := fun s => (r, s).

Declare Scope js_scope.
Delimit Scope js_scope with js.
Notation "x <- m ;; k" := (bind m (fun x => k))
  (at level 100, m at next level, right associativity) : js_scope.
Notation "m ;;; k" := (bind m (fun _ => k))
  (at level 100, right associativity) : js_scope.

(** ** Configuration (src/types/config.types.ts) *)

Record ContentfulConfig := {
  SPACE_ID : string;
  ENVIRONMENT : string;
  CMA_TOKEN : string;
  CONTENT_TYPE : string;
  KEY_FIELD : string;
  VALUE_FIELD : string;
  NODE_NAME_PATTERN : string
}.

Record Translation := { key : string; value : string }.

(** ** The canvas (the Figma plugin API as the node service uses it) *)

Record FontName := { family : string; style : string }.

Global Instance FontName_eq_dec : EqDecision FontName.
Proof. solve_decision. Defined.

(** [node.fontName] is a font or the sentinel [figma.mixed]; in the second
    case [ranges] lists the font of every character position, which is
    what [node.getRangeFontName(i, i + 1)] reads. *)
Inductive FontNameOrMixed :=
| Font (f : FontName)
| mixed (ranges : list FontName).

Inductive NodeType := TEXT | FRAME.

Global Instance NodeType_eq_dec : EqDecision NodeType.
Proof. solve_decision. Defined.

Record SceneNode := {
  node_id : string;
  node_type : NodeType;
  name : string;
  characters : string;
  locked : bool;
  hasMissingFont : bool;
  fontName : FontNameOrMixed
}.

Record TextNodeInfo := { info_id : string; info_name : string; info_characters : string }.

(** [node.characters = text].  The canvas keeps one style for the text it
    is given: the font of the first character of the text replaced. *)
Definition setCharacters (node : SceneNode) (text : string) : SceneNode :=
  {| node_id := node_id node; node_type := node_type node; name := name node;
     characters := text; locked := locked node;
     hasMissingFont := hasMissingFont node;
     fontName := match fontName node with
                 | Font f => Font f
                 | mixed (f :: _) => Font f
                 | mixed [] => mixed []
                 end |}.

(** [node.getRangeFontName(i, i + 1)]; a range outside the text throws. *)
Definition getRangeFontName (node : SceneNode) (i : nat) : Exn FontName :=
  match fontName node with
  | Font f => if decide (i < String.length (characters node)) then Return f
              else Throw (Error "in getRangeFontName: range out of bounds")
  | mixed ranges =>
      match ranges !! i with
      | Some f => Return f
      | None => Throw (Error "in getRangeFontName: range out of bounds")
      end
  end.

(** The page the plugin runs on: [figma.currentPage] may be null. *)
Definition Page := option (list SceneNode).

(** ** src/services/node.service.ts *)

Section NodeService.

(** [new RegExp(p)]: the compiled pattern as its [test] function, or
    [None] when [p] is malformed and the constructor throws. *)
Variable RegExp : string -> option (string -> bool).
(** [figma.loadFontAsync(f)]: [None] when the promise resolves, the
    message of the [Error] it rejects with otherwise. *)
Variable fontFailure : FontName -> option string.
(** [String(Object.prototype[k])] for the names [k] that [Object.prototype]
    defines ([constructor], [toString], [__proto__], ...), [None] for
    every other name. *)
Variable objectPrototype : string -> option string.

Definition newRegExp (p : string) : Exn (string -> bool) :=
  match RegExp p with
  | Some test => Return test
  | None => Throw (SyntaxError ("Invalid regular expression: /" +:+ p +:+ "/"))
  end.

Definition toInfo (node : SceneNode) : TextNodeInfo :=
  {| info_id := node_id node; info_name := name node;
     info_characters := characters node |}.

(** [figma.currentPage.findAllWithCriteria({ types: ['TEXT'] })] *)
Definition findAllText (nodes : list SceneNode) : list SceneNode :=
  filter (fun n => node_type n = TEXT) nodes.

Definition getTranslatableNodeCount (page : Page) (config : ContentfulConfig) : nat :=
  let body : Exn nat :=
    match page with
    | None => Return 0
    | Some nodes =>
        match newRegExp (NODE_NAME_PATTERN config) with
        | Throw e => Throw e
        | Return pattern =>
            let allTextNodes := findAllText nodes in
            let textNodes :=
              filter (fun n => truthy (name n) && pattern (name n) = true) allTextNodes in
            Return (length textNodes)
        end
    end in
  match body with
  | Return n => n
  | Throw _ => 0
  end.

Definition getTranslatableNodes (page : Page) (config : ContentfulConfig)
  : Exn (list TextNodeInfo) :=
  match newRegExp (NODE_NAME_PATTERN config) with
  | Throw e => Throw e
  | Return pattern =>
      match page with
      | None => Throw (TypeError "Cannot read properties of null (reading 'findAll')")
      | Some nodes =>
          let textNodes :=
            filter (fun n => bool_decide (node_type n = TEXT) && pattern (name n) = true) nodes in
          Return (map toInfo textNodes)
      end
  end.

(** *** applyTranslations *)

(** The map built from the translation list: entries with an empty key
    or an empty value are left out, a later entry replaces an earlier
    one with the same key. *)
Definition buildTranslationMap (translations : list Translation) : gmap string string :=
  foldl (fun m t => if truthy (key t) && truthy (value t)
                    then <[key t := value t]> m else m) ∅ translations.

(** [await figma.loadFontAsync(font)]; every call is recorded in the
    list of calls, oldest first. *)
Definition loadFontAsync (font : FontName) : M (list FontName) unit :=
  fun calls =>
    (match fontFailure font with
     | None => Return tt
     | Some msg => Throw (Error msg)
     end, calls ++ [font]).

(** The body of [for (let i = 0; i < node.characters.length; i++)] over
    the positions still to visit.  [uniqueFonts] is the set the source
    fills with the [family:style] of every position. *)
Fixpoint loadRangeFonts (node : SceneNode) (positions : list nat)
    (uniqueFonts : gset string) : M (list FontName) (gset string) :=
  match positions with
  | [] => ret uniqueFonts
  | i :: rest =>
      (font <- lift (getRangeFontName node i);;
       let uniqueFonts := uniqueFonts ∪ {[ family font +:+ ":" +:+ style font ]} in
       loadFontAsync font;;;
       loadRangeFonts node rest uniqueFonts)%js
  end.

(** The font block shared by the three write paths (lines 116-127,
    185-196 and 250-259); the set of the mixed branch is dropped when
    the loop ends, as in the source, where nothing reads it. *)
Definition loadNodeFonts (node : SceneNode) : M (list FontName) unit :=
  match fontName node with
  | mixed _ =>
      (_ <- loadRangeFonts node (seq 0 (String.length (characters node))) ∅;;
       ret tt)%js
  | Font f => loadFontAsync f
  end.

(** The variables of the loop of [applyTranslations], with the calls of
    [figma.loadFontAsync] made so far. *)
Record ApplyState := {
  count : nat;
  errors : list string;
  skipped : list string;
  fontLoads : list FontName
}.

Definition pushSkipped (st : ApplyState) (msg : string) : ApplyState :=
  {| count := count st; errors := errors st; skipped := skipped st ++ [msg];
     fontLoads := fontLoads st |}.
Definition pushError (st : ApplyState) (msg : string) (calls : list FontName) : ApplyState :=
  {| count := count st; errors := errors st ++ [msg]; skipped := skipped st;
     fontLoads := calls |}.
Definition countUp (st : ApplyState) (calls : list FontName) : ApplyState :=
  {| count := S (count st); errors := errors st; skipped := skipped st;
     fontLoads := calls |}.

(** One iteration of [for (const node of textNodes)] (lines 99-135):
    the node as the iteration leaves it, and the loop variables. *)
Definition applyToNode (translationMap : gmap string string)
    (node : SceneNode) (st : ApplyState) : SceneNode * ApplyState :=
  if locked node then (node, pushSkipped st (name node +:+ ": Locked"))
  else
    match translationMap !! name node with
    | Some translation =>
        if truthy translation then
          if hasMissingFont node
          then (node, pushError st (name node +:+ ": Missing font") (fontLoads st))
          else
            match loadNodeFonts node (fontLoads st) with
            | (Return _, calls) => (setCharacters node translation, countUp st calls)
            | (Throw fontError, calls) =>
                (node, pushError st (name node +:+ ": " +:+ messageOrElse "Font error" fontError)
                         calls)
            end
        else (node, st)
    | None => (node, st)
    end.

(** [textNodes]: the TEXT nodes whose name the pattern accepts. *)
Definition isTextNodeMatching (pattern : string -> bool) (n : SceneNode) : bool :=
  bool_decide (node_type n = TEXT) && pattern (name n).

(** The loop over the page: the nodes of [textNodes] are visited in
    traversal order, the other nodes of the page are not touched. *)
Fixpoint applyLoop (translationMap : gmap string string) (pattern : string -> bool)
    (nodes : list SceneNode) (st : ApplyState) : list SceneNode * ApplyState :=
  match nodes with
  | [] => ([], st)
  | node :: rest =>
      if isTextNodeMatching pattern node then
        let '(node', st') := applyToNode translationMap node st in
        let '(rest', st'') := applyLoop translationMap pattern rest st' in
        (node' :: rest', st'')
      else
        let '(rest', st') := applyLoop translationMap pattern rest st in
        (node :: rest', st')
  end.

(** The canvas and the calls of [figma.loadFontAsync] it has received. *)
Record Figma := {
  currentPage : Page;
  loadFontCalls : list FontName
}.

Definition initialState (figma : Figma) : ApplyState :=
  {| count := 0; errors := []; skipped := []; fontLoads := loadFontCalls figma |}.

(** The error thrown when no node was updated (lines 137-145). *)
Definition noSuccessError (st : ApplyState) : JsError :=
  match errors st with
  | e0 :: _ => Error ("Translation failed: " +:+ e0)
  | [] =>
      match skipped st with
      | s0 :: _ => Error ("All nodes skipped: " +:+ s0)
      | [] => Error "No matching translations found for text nodes"
      end
  end.

Definition applyTranslations (translations : list Translation)
    (config : ContentfulConfig) : M Figma nat :=
  fun figma =>
    let translationMap := buildTranslationMap translations in
    match newRegExp (NODE_NAME_PATTERN config) with
    | Throw e => (Throw e, figma)
    | Return pattern =>
        match currentPage figma with
        | None =>
            (Throw (TypeError "Cannot read properties of null (reading 'findAllWithCriteria')"),
             figma)
        | Some nodes =>
            let textNodes := filter (fun n => pattern (name n) = true) (findAllText nodes) in
            if decide (length textNodes = 0) then
              (Throw (Error "No translatable text nodes found on current page"), figma)
            else
              let '(nodes', st) :=
                applyLoop translationMap pattern nodes (initialState figma) in
              let figma' := {| currentPage := Some nodes'; loadFontCalls := fontLoads st |} in
              if decide (count st = 0) then (Throw (noSuccessError st), figma')
              else (Return (count st), figma')
        end
    end.

(** *** applyRecordToNodes and updateMultipleNodes *)

(** [await figma.getNodeByIdAsync(id)]: the node and its position on
    the page, [None] for [null]. *)
Definition getNodeByIdAsync (figma : Figma) (id : string) : option (nat * SceneNode) :=
  match currentPage figma with
  | None => None
  | Some nodes => list_find (fun n => node_id n = id) nodes
  end.

(** The canvas after the node at position [i] was assigned new
    characters and [figma.loadFontAsync] had received [calls]. *)
Definition writeNode (figma : Figma) (i : nat) (node' : SceneNode)
    (calls : list FontName) : Figma :=
  {| currentPage := (fun nodes => <[i := node']> nodes) <$> currentPage figma;
     loadFontCalls := calls |}.

Definition withCalls (figma : Figma) (calls : list FontName) : Figma :=
  {| currentPage := currentPage figma; loadFontCalls := calls |}.

Record FieldMapping := { mapping_field : string; mapping_node : string }.

(** [recordFields[k]] on the record the UI sends, a plain object given by
    its own properties: the value of a property that is [undefined] or
    [null] is [None], the value [v] of another is [Some (String(v))].
    A property the object does not have itself is looked up in
    [Object.prototype]. *)
Definition getField (recordFields : gmap string (option string)) (k : string)
  : option string :=
  match recordFields !! k with
  | Some fieldValue => fieldValue
  | None => objectPrototype k
  end.

(** One iteration of the loop of [applyRecordToNodes] (lines 158-203). *)
Definition applyMapping (recordFields : gmap string (option string)) (mapping : FieldMapping)
    (errors : list string) (figma : Figma) : list string * Figma :=
  match getNodeByIdAsync figma (mapping_node mapping) with
  | None => (errors ++ ["Node not found: " +:+ mapping_node mapping], figma)
  | Some (i, node) =>
      if decide (node_type node ≠ TEXT)
      then (errors ++ ["Node not found: " +:+ mapping_node mapping], figma)
      else if locked node
      then (errors ++ ["Node is locked: " +:+ name node], figma)
      else
        match getField recordFields (mapping_field mapping) with
        | None => (errors, figma)
        | Some textValue =>
            if hasMissingFont node
            then (errors ++ ["Missing font in node: " +:+ name node], figma)
            else
              match loadNodeFonts node (loadFontCalls figma) with
              | (Return _, calls) =>
                  (errors, writeNode figma i (setCharacters node textValue) calls)
              | (Throw error, calls) =>
                  (errors ++ ["Error applying to node: "
                                +:+ messageOrElse "Unknown error" error],
                   withCalls figma calls)
              end
        end
  end.

(** The function returns nothing; the model returns the [errors] it
    hands to [console.warn]. *)
Definition applyRecordToNodes (mappings : list FieldMapping)
    (recordFields : gmap string (option string)) (figma : Figma) : list string * Figma :=
  foldl (fun '(errors, figma) mapping => applyMapping recordFields mapping errors figma)
        ([], figma) mappings.

Record UpdateResult := {
  upd_success : bool;                   (* success *)
  upd_count : nat;                      (* count *)
  upd_errors : option (list string);    (* errors *)
  upd_error : option string             (* error *)
}.

(** One iteration of the loop of [updateMultipleNodes] (lines 233-269). *)
Definition updateNode (newText : string) (nodeId : string)
    (successCount : nat) (errors : list string) (figma : Figma)
  : nat * list string * Figma :=
  match getNodeByIdAsync figma nodeId with
  | None =>
      (successCount, errors ++ ["Node " +:+ nodeId +:+ ": Not found or not a text node"], figma)
  | Some (i, node) =>
      if decide (node_type node ≠ TEXT)
      then (successCount,
            errors ++ ["Node " +:+ nodeId +:+ ": Not found or not a text node"], figma)
      else if hasMissingFont node
      then (successCount, errors ++ [name node +:+ ": Missing font"], figma)
      else
        match loadNodeFonts node (loadFontCalls figma) with
        | (Return _, calls) =>
            (S successCount, errors, writeNode figma i (setCharacters node newText) calls)
        | (Throw nodeError, calls) =>
            (successCount,
             errors ++ ["Node " +:+ nodeId +:+ ": " +:+ messageOrString nodeError],
             withCalls figma calls)
        end
  end.

Definition updateMultipleNodes (nodeIds : list string) (newText : string)
    (figma : Figma) : UpdateResult * Figma :=
  match nodeIds with
  | [] => ({| upd_success := false; upd_count := 0; upd_errors := None;
              upd_error := Some "Invalid node IDs" |}, figma)
  | _ =>
      let '(successCount, errors, figma') :=
        foldl (fun '(successCount, errors, figma) nodeId =>
                 updateNode newText nodeId successCount errors figma)
              (0, [], figma) nodeIds in
      ({| upd_success := bool_decide (0 < successCount);
          upd_count := successCount;
          upd_errors := if decide (0 < length errors) then Some errors else None;
          upd_error := if decide (successCount = 0) then head errors else None |},
       figma')
  end.

End NodeService.

(** ** The Contentful Management API as the gateway sees it

    A parsed JSON object is modelled by the properties the gateway reads
    from it; a property is [None] when it is undefined (or has another
    type than the one the gateway tests for).  Numbers are integers. *)

Record Sys := {
  sys_id : string;
  version : option Z;
  archivedVersion : option Z
}.

(** The value of a field of an entry: an object with one member per
    locale, in the order of [Object.keys], or a plain string. *)
Inductive FieldValue :=
| Localized (byLocale : list (string * string))
| Plain (s : string).

Definition Fields := list (string * FieldValue).

(** An element of [data.items]: a locale ([code], [name]) or an entry
    ([sys], [fields]). *)
Record Item := {
  code : option string;
  item_name : option string;
  sys : option Sys;
  fields : option Fields
}.

Record Json := {
  total : option Z;
  items : option (list Item);    (* [None]: absent, or not an array *)
  entry_sys : option Sys         (* [data.sys] of a single entry *)
}.

Record Response := {
  ok : bool;
  status : Z;
  statusText : string;
  text : string;                 (* [await response.text()] *)
  json : option Json             (* [await response.json()]; [None]: rejects *)
}.

Inductive Method := GET | PUT | POST.

Record Request := {
  method : Method;
  url : string;
  headers : list (string * string);
  body : option Fields           (* [JSON.stringify({ fields })] *)
}.

(** What the network does with a request: the promise of [fetch]
    resolves, rejects, or is still pending when the timer of
    [fetchWithTimeout] fires. *)
Inductive Outcome :=
| Resolved (r : Response)
| Rejected (e : JsError)
| Pending.

(** The network answers a request knowing the requests made before it
    (oldest first). *)
Definition Transport := list Request -> Request -> Outcome.

(** [obj[k]] on an object given by its members. *)
Fixpoint member {A} (k : string) (obj : list (string * A)) : option A :=
  match obj with
  | [] => None
  | (k', v) :: rest => if decide (k' = k) then Some v else member k rest
  end.

(** [s.trim()].  White space is the WhiteSpace and the LineTerminator
    code points of ECMAScript.  A character outside ASCII is held in a
    string as the bytes of its UTF-8 encoding, the way a literal is read;
    U+00A0, the one of these code points below 256, is recognised as the
    single character 160 as well. *)
Definition fromBytes (bytes : list nat) : string :=
  String.string_of_list_ascii (map ascii_of_nat bytes).

Definition whiteSpace : list string :=
  map fromBytes
    [[9]; [10]; [11]; [12]; [13]; [32];                      (* TAB LF VT FF CR SP *)
     [194; 160];                                               (* U+00A0 *)
     [225; 154; 128];                                          (* U+1680 *)
     [226; 128; 128]; [226; 128; 129]; [226; 128; 130];        (* U+2000 .. *)
     [226; 128; 131]; [226; 128; 132]; [226; 128; 133];
     [226; 128; 134]; [226; 128; 135]; [226; 128; 136];
     [226; 128; 137]; [226; 128; 138];                         (* .. U+200A *)
     [226; 128; 168]; [226; 128; 169];                         (* U+2028 U+2029 *)
     [226; 128; 175];                                          (* U+202F *)
     [226; 129; 159];                                          (* U+205F *)
     [227; 128; 128];                                          (* U+3000 *)
     [239; 187; 191]].                                         (* U+FEFF *)

(** The rest of [s] after [p], when [s] starts with [p]. *)
Fixpoint afterPrefix (p s : string) : option string :=
  match p, s with
  | EmptyString, _ => Some s
  | String a p', String b s' => if Ascii.eqb a b then afterPrefix p' s' else None
  | String _ _, EmptyString => None
  end.

(** The rest of [s] after the white space it starts with, if it starts
    with one. *)
Definition afterWhiteSpace (s : string) : option string :=
  match omap (fun p => afterPrefix p s) whiteSpace with
  | rest :: _ => Some rest
  | [] =>
      match s with
      | String c rest => if Nat.eqb (nat_of_ascii c) 160 then Some rest else None
      | EmptyString => None
      end
  end.

(** The same at the end of a string, on the string reversed: the single
    character 160 counts when it does not end a UTF-8 sequence. *)
Definition beforeWhiteSpace (reversed : string) : option string :=
  match omap (fun p => afterPrefix (String.rev p) reversed) whiteSpace with
  | rest :: _ => Some rest
  | [] =>
      match reversed with
      | String c rest =>
          if Nat.eqb (nat_of_ascii c) 160 then
            match rest with
            | String b _ => if Nat.leb 128 (nat_of_ascii b) then None else Some rest
            | EmptyString => Some rest
            end
          else None
      | EmptyString => None
      end
  end.

(** [strip] applied as long as it applies; a string of [n] characters
    has at most [n] white spaces at an end. *)
Fixpoint stripAll (strip : string -> option string) (n : nat) (s : string) : string :=
  match n with
  | 0 => s
  | S n =>
      match strip s with
      | Some rest => stripAll strip n rest
      | None => s
      end
  end.

Definition trimStart (s : string) : string :=
  stripAll afterWhiteSpace (String.length s) s.

Definition trimEnd (s : string) : string :=
  String.rev (stripAll beforeWhiteSpace (String.length s) (String.rev s)).

Definition trim (s : string) : string := trimEnd (trimStart s).

(** ** src/services/network.service.ts *)

Definition API_TIMEOUT : Z := 10000.

Section Network.

Variable transport : Transport.

(** The requests made so far are the state. *)
Definition fetchWithTimeout (req : Request) (timeout : Z) : M (list Request) Response :=
  fun trace =>
    (match transport trace req with
     | Resolved response => Return response
     | Rejected error => Throw error
     | Pending => Throw (Error "Request timeout - please check your network connection")
     end, trace ++ [req]).

End Network.

(** ** src/services/contentful.service.ts *)

Record Locale := { locale_code : string; locale_name : string }.

(** The value the reconciler keeps for a key: [{ value, id }]. *)
Record ItemRef := { ref_value : string; ref_id : string }.

Record ContentfulSaveItem := {
  save_key : string;
  save_value : string;
  isUpdate : bool;               (* optional in the source: absent is false *)
  entryId : option string
}.

Record ErrorDetails := {
  ed_status : option Z;
  ed_response : option string;
  operation : option string;
  ed_entryId : option string;
  ed_version : option Z;
  ed_key : option string;
  exception : option string
}.

Record ContentfulSaveResult := {
  success : bool;
  error : option string;
  errorDetails : option ErrorDetails
}.

Section ContentfulService.

Variable encodeURIComponent : string -> string.
Variable transport : Transport.

Local Abbreviation Http := (M (list Request)).

Definition bearer (config : ContentfulConfig) : list (string * string) :=
  [("Authorization", "Bearer " +:+ CMA_TOKEN config)].

Definition getRequest (u : string) (config : ContentfulConfig) : Request :=
  {| method := GET; url := u; headers := bearer config; body := None |}.

(** [https://api.contentful.com/spaces/${spaceId}/environments/${environment}] *)
Definition environmentUrl (config : ContentfulConfig) : string :=
  "https://api.contentful.com/spaces/" +:+ encodeURIComponent (SPACE_ID config)
    +:+ "/environments/" +:+ encodeURIComponent (ENVIRONMENT config).

(** [await response.json()] *)
Definition responseJson (response : Response) : Exn Json :=
  match json response with
  | Some data => Return data
  | None => Throw (SyntaxError "Unexpected end of JSON input")
  end.

(** [catch (error) { if (error instanceof Error) { throw new
    Error(`${prefix}: ${error.message}`) } throw error }] *)
Definition rethrow {A} (prefix : string) (m : Http A) : Http A :=
  try_catch m (fun error =>
                 match error with
                 | mkError _ message => throw (Error (prefix +:+ ": " +:+ message))
                 | NotAnError _ => throw error
                 end).

(** The status check of the four list calls (lines 32-40, 89-97,
    140-148, 186-194): the message for 404 and the message for the
    other statuses differ from call to call. *)
Definition checkStatus (notFound failed : string) (response : Response) : Http unit :=
  if negb (ok response) then
    if bool_decide (status response = 401 ∨ status response = 403)%Z
    then throw (Error "Invalid API credentials")
    else if bool_decide (status response = 404)%Z
    then throw (Error notFound)
    else throw (Error failed)
  else ret tt.

(** [if (!data.items || !Array.isArray(data.items)) throw ...] *)
Definition itemsOf (data : Json) : Http (list Item) :=
  match items data with
  | Some l => ret l
  | None => throw (Error "Invalid response format")
  end.

Definition fetchLocales (config : ContentfulConfig) : Http (list Locale) :=
  let url := environmentUrl config +:+ "/locales" in
  rethrow "Failed to load locales"
    (response <- fetchWithTimeout transport (getRequest url config) API_TIMEOUT;;
     checkStatus "Space or environment not found" "Failed to fetch locales" response;;;
     data <- lift (responseJson response);;
     l <- itemsOf data;;
     ret (filter (fun item => trim (locale_code item) ≠ "" ∧ trim (locale_name item) ≠ "")
            (map (fun item => {| locale_code := default "" (code item);
                                 locale_name := default "" (item_name item) |}) l)))%js.

(** [typeof fields[k] === 'string' ? fields[k] : ''] *)
Definition stringField (fs : Fields) (k : string) : string :=
  match member k fs with
  | Some (Plain s) => s
  | _ => ""
  end.

Definition fetchTranslations (config : ContentfulConfig) (locale : string)
  : Http (list Translation) :=
  if bool_decide (trim locale = "") then throw (Error "Invalid locale")
  else
    let url := environmentUrl config +:+ "/entries?content_type="
                 +:+ encodeURIComponent (CONTENT_TYPE config)
                 +:+ "&locale=" +:+ encodeURIComponent (trim locale) in
    rethrow "Failed to load translations"
      (response <- fetchWithTimeout transport (getRequest url config) API_TIMEOUT;;
       checkStatus "Content type not found" "Failed to fetch translations" response;;;
       data <- lift (responseJson response);;
       l <- itemsOf data;;
       ret (filter (fun t => trim (key t) ≠ "" ∧ trim (value t) ≠ "")
              (map (fun item =>
                      let fs := default [] (fields item) in
                      {| key := stringField fs (KEY_FIELD config);
                         value := stringField fs (VALUE_FIELD config) |}) l)))%js.

Definition fetchContentTypes (config : ContentfulConfig) : Http (list Item) :=
  let url := environmentUrl config +:+ "/content_types" in
  rethrow "Failed to load content types"
    (response <- fetchWithTimeout transport (getRequest url config) API_TIMEOUT;;
     checkStatus "Space or environment not found" "Failed to fetch content types" response;;;
     data <- lift (responseJson response);;
     itemsOf data)%js.

Definition fetchRecords (config : ContentfulConfig) (contentType : string)
  : Http (list Item) :=
  let url := environmentUrl config +:+ "/entries?content_type="
               +:+ encodeURIComponent contentType +:+ "&limit=100" in
  rethrow "Failed to load records"
    (response <- fetchWithTimeout transport (getRequest url config) API_TIMEOUT;;
     checkStatus "Content type not found" "Failed to fetch records" response;;;
     data <- lift (responseJson response);;
     itemsOf data)%js.

(** *** fetchAllContentfulItems *)

Definition limit : Z := 1000.

Definition firstUrl (config : ContentfulConfig) : string :=
  environmentUrl config +:+ "/entries?content_type="
    +:+ encodeURIComponent (CONTENT_TYPE config) +:+ "&limit=" +:+ pretty limit.

(** The URL of page [page]: [skip = page * limit]. *)
Definition pageUrl (config : ContentfulConfig) (page : nat) : string :=
  firstUrl config +:+ "&skip=" +:+ pretty (Z.of_nat page * limit)%Z.

(** [Math.ceil((total - limit) / limit)] when [total > limit]. *)
Definition remainingPages (total : Z) : nat :=
  Z.to_nat ((total - limit + (limit - 1)) / limit).

(** What a failed page request is replaced by: [{ items: [] }]. *)
Definition emptyPage : Json := {| total := None; items := Some []; entry_sys := None |}.

(** One element of [pageRequests] (lines 298-305): the outcome of the
    request, of whatever status, parsed; any rejection is replaced by
    the empty page. *)
Definition pageRequest (config : ContentfulConfig) (page : nat) : Http Json :=
  try_catch
    (r <- fetchWithTimeout transport (getRequest (pageUrl config page) config) API_TIMEOUT;;
     lift (responseJson r))%js
    (fun err => ret emptyPage).

(** [await Promise.all(pageRequests)]: the requests leave in the order
    of the loop, the results come back in that order. *)
Fixpoint allPageRequests (config : ContentfulConfig) (pages : list nat) : Http (list Json) :=
  match pages with
  | [] => ret []
  | page :: rest =>
      (data <- pageRequest config page;;
       others <- allPageRequests config rest;;
       ret (data :: others))%js
  end.

(** Lines 276-310: [allPages]. *)
Definition fetchAllPages (config : ContentfulConfig) : Http (list Json) :=
  (firstResponse <- fetchWithTimeout transport (getRequest (firstUrl config) config) API_TIMEOUT;;
   if negb (ok firstResponse) then
     throw (Error ("HTTP " +:+ pretty (status firstResponse) +:+ ": "
                     +:+ statusText firstResponse))
   else
     firstData <- lift (responseJson firstResponse);;
     let total := default 0%Z (total firstData) in
     if bool_decide (total > limit)%Z then
       remainingData <- allPageRequests config (seq 1 (remainingPages total));;
       ret (firstData :: remainingData)
     else ret [firstData])%js.

(** Lines 329-338: the value of a localized field, [en-US] first, then
    the first locale of the object; [None] is [null] or [undefined]. *)
Definition unwrapLocale (field : option FieldValue) : option string :=
  match field with
  | Some (Localized byLocale) =>
      let first := match byLocale with
                   | (k0, _) :: _ => member k0 byLocale
                   | [] => None
                   end in
      match member "en-US" byLocale with
      | Some s => if truthy s then Some s else first
      | None => first
      end
  | _ => None
  end.

(** [obj[k] = v] on a plain object, for a value [v] that is an object:
    the own properties of [obj] after the assignment.  ["__proto__"] is
    the accessor that [Object.prototype] defines: assigning an object to
    it replaces the prototype of [obj] and gives [obj] no property. *)
Definition setProperty {A} (k : string) (v : A) (obj : gmap string A) : gmap string A :=
  if decide (k = "__proto__") then obj else <[k := v]> obj.

(** [if (key && value)] *)
Definition usable (o : option string) : bool :=
  match o with
  | Some s => truthy s
  | None => false
  end.

(** The body of [for (const item of pageData.items)] (lines 317-346). *)
Definition processItem (config : ContentfulConfig) (acc : gmap string ItemRef)
    (item : Item) : Exn (gmap string ItemRef) :=
  match sys item with
  | None => Throw (TypeError "Cannot read properties of undefined (reading 'archivedVersion')")
  | Some s =>
      match archivedVersion s with
      | Some _ => Return acc
      | None =>
          let fs := default [] (fields item) in
          let k := unwrapLocale (member (KEY_FIELD config) fs) in
          let v := unwrapLocale (member (VALUE_FIELD config) fs) in
          if usable k && usable v
          then Return (setProperty (default "" k)
                         {| ref_value := default "" v; ref_id := sys_id s |} acc)
          else Return acc
      end
  end.

Fixpoint processItems (config : ContentfulConfig) (acc : gmap string ItemRef)
    (l : list Item) : Exn (gmap string ItemRef) :=
  match l with
  | [] => Return acc
  | item :: rest =>
      match processItem config acc item with
      | Return acc' => processItems config acc' rest
      | Throw e => Throw e
      end
  end.

(** The items a page contributes: none when [pageData.items] is absent
    or is not an array. *)
Definition pageItems (pageData : Json) : list Item := default [] (items pageData).

(** Lines 313-348: the two loops run over the items of the pages in
    order. *)
Definition mergePages (config : ContentfulConfig) (allPages : list Json)
  : Exn (gmap string ItemRef) :=
  processItems config ∅ (concat (map pageItems allPages)).

Definition fetchAllContentfulItems (config : ContentfulConfig)
  : Http (gmap string ItemRef) :=
  rethrow "Failed to fetch Contentful items"
    (allPages <- fetchAllPages config;;
     lift (mergePages config allPages))%js.

(** *** saveItemToContentful *)

(** [{ [config.KEY_FIELD]: { 'en-US': item.key },
       [config.VALUE_FIELD]: { 'en-US': item.value } }]: when the two
    field names are the same the second member replaces the first. *)
Definition entryFields (config : ContentfulConfig) (item : ContentfulSaveItem) : Fields :=
  if decide (KEY_FIELD config = VALUE_FIELD config)
  then [(VALUE_FIELD config, Localized [("en-US", save_value item)])]
  else [(KEY_FIELD config, Localized [("en-US", save_key item)]);
        (VALUE_FIELD config, Localized [("en-US", save_value item)])].

(** [data.sys] and [data.sys.version], read from a parsed entry. *)
Definition sysOf (data : Json) (property : string) : Exn Sys :=
  match entry_sys data with
  | Some s => Return s
  | None => Throw (TypeError ("Cannot read properties of undefined (reading '"
                                +:+ property +:+ "')"))
  end.

(** [version.toString()] *)
Definition versionToString (v : option Z) : Exn string :=
  match v with
  | Some n => Return (pretty n)
  | None => Throw (TypeError "Cannot read properties of undefined (reading 'toString')")
  end.

(** The result of a step that answered with a status that is not ok. *)
Definition stageFailure (label op : string) (response : Response)
    (id : option string) (v : option Z) (k : option string) : ContentfulSaveResult :=
  {| success := false;
     error := Some (label +:+ " (" +:+ pretty (status response) +:+ ")");
     errorDetails := Some {| ed_status := Some (status response);
                             ed_response := Some (text response);
                             operation := Some op; ed_entryId := id;
                             ed_version := v; ed_key := k; exception := None |} |}.

Definition saved : ContentfulSaveResult :=
  {| success := true; error := None; errorDetails := None |}.

Definition updateRequest (config : ContentfulConfig) (item : ContentfulSaveItem)
    (u versionHeader : string) : Request :=
  {| method := PUT; url := u;
     headers := [("Authorization", "Bearer " +:+ CMA_TOKEN config);
                 ("Content-Type", "application/vnd.contentful.management.v1+json");
                 ("X-Contentful-Version", versionHeader)];
     body := Some (entryFields config item) |}.

Definition publishRequest (config : ContentfulConfig) (publishUrl versionHeader : string)
  : Request :=
  {| method := PUT; url := publishUrl;
     headers := [("Authorization", "Bearer " +:+ CMA_TOKEN config);
                 ("X-Contentful-Version", versionHeader)];
     body := None |}.

Definition createRequest (config : ContentfulConfig) (item : ContentfulSaveItem)
    (u : string) : Request :=
  {| method := POST; url := u;
     headers := [("Authorization", "Bearer " +:+ CMA_TOKEN config);
                 ("Content-Type", "application/vnd.contentful.management.v1+json");
                 ("X-Contentful-Content-Type", CONTENT_TYPE config)];
     body := Some (entryFields config item) |}.

Definition entryUrl (config : ContentfulConfig) (id : string) : string :=
  environmentUrl config +:+ "/entries/" +:+ id.

(** Lines 372-442: the update of an existing entry. *)
Definition updateEntry (config : ContentfulConfig) (item : ContentfulSaveItem)
    (id : string) : Http ContentfulSaveResult :=
  let url := entryUrl config id in
  (getResponse <- fetchWithTimeout transport (getRequest url config) API_TIMEOUT;;
   if negb (ok getResponse) then
     ret (stageFailure "Could not fetch entry" "fetch" getResponse (Some id) None None)
   else
     currentEntry <- lift (responseJson getResponse);;
     currentSys <- lift (sysOf currentEntry "version");;
     let currentVersion := version currentSys in
     versionHeader <- lift (versionToString currentVersion);;
     updateResponse <-
       fetchWithTimeout transport (updateRequest config item url versionHeader) API_TIMEOUT;;
     if negb (ok updateResponse) then
       ret (stageFailure "Update failed" "update" updateResponse (Some id) currentVersion None)
     else
       updatedEntry <- lift (responseJson updateResponse);;
       let publishUrl := url +:+ "/published" in
       updatedSys <- lift (sysOf updatedEntry "version");;
       publishHeader <- lift (versionToString (version updatedSys));;
       publishResponse <-
         fetchWithTimeout transport (publishRequest config publishUrl publishHeader) API_TIMEOUT;;
       if negb (ok publishResponse) then
         ret (stageFailure "Publish failed" "publish" publishResponse (Some id) None None)
       else ret saved)%js.

(** Lines 444-493: the creation of a new entry. *)
Definition createEntry (config : ContentfulConfig) (item : ContentfulSaveItem)
  : Http ContentfulSaveResult :=
  let url := environmentUrl config +:+ "/entries" in
  (createResponse <- fetchWithTimeout transport (createRequest config item url) API_TIMEOUT;;
   if negb (ok createResponse) then
     ret (stageFailure "Create failed" "create" createResponse None None
            (Some (save_key item)))
   else
     newEntry <- lift (responseJson createResponse);;
     newSys <- lift (sysOf newEntry "id");;
     let publishUrl := entryUrl config (sys_id newSys) +:+ "/published" in
     publishHeader <- lift (versionToString (version newSys));;
     publishResponse <-
       fetchWithTimeout transport (publishRequest config publishUrl publishHeader) API_TIMEOUT;;
     if negb (ok publishResponse) then
       ret (stageFailure "Created but publish failed" "publish-new" publishResponse
              (Some (sys_id newSys)) None None)
     else ret saved)%js.

(** [item.isUpdate && item.entryId] *)
Definition updateTarget (item : ContentfulSaveItem) : option string :=
  if isUpdate item then
    match entryId item with
    | Some id => if truthy id then Some id else None
    | None => None
    end
  else None.

Definition saveItemToContentful (config : ContentfulConfig) (item : ContentfulSaveItem)
  : Http ContentfulSaveResult :=
  try_catch
    (match updateTarget item with
     | Some id => updateEntry config item id
     | None => createEntry config item
     end)
    (fun error =>
       match error with
       | mkError ename message =>
           ret {| success := false;
                  error := Some message;
                  errorDetails :=
                    Some {| ed_status := None; ed_response := None;
                            operation := Some (if isUpdate item then "update" else "create");
                            ed_entryId := None; ed_version := None; ed_key := None;
                            exception := Some ename |} |}
       | NotAnError text =>
           ret {| success := false;
                  error := Some "Unknown error occurred";
                  errorDetails :=
                    Some {| ed_status := None; ed_response := None; operation := None;
                            ed_entryId := None; ed_version := None; ed_key := None;
                            exception := Some text |} |}
       end).

End ContentfulService.

(** ** The rest of the node service *)

(** [getAllTextNodes] (lines 34-45): no guard on [figma.currentPage]. *)
Definition getAllTextNodes (page : Page) : Exn (list TextNodeInfo) :=
  match page with
  | None => Throw (TypeError "Cannot read properties of null (reading 'findAllWithCriteria')")
  | Some nodes => Return (map toInfo (findAllText nodes))
  end.

(** ** src/services/config.service.ts *)

(** [defaultConfig] of src/constants.ts. *)
Definition defaultConfig : ContentfulConfig :=
  {| SPACE_ID := ""; ENVIRONMENT := "master"; CMA_TOKEN := "";
     CONTENT_TYPE := "translation"; KEY_FIELD := "key"; VALUE_FIELD := "value";
     NODE_NAME_PATTERN := "^jams_" |}.

Definition PLUGIN_VERSION : string := "2.0.0".

(** [Partial<ContentfulConfig>]: a field is [None] when the object has no
    such property. *)
Record StoredConfig := {
  stored_SPACE_ID : option string;
  stored_ENVIRONMENT : option string;
  stored_CMA_TOKEN : option string;
  stored_CONTENT_TYPE : option string;
  stored_KEY_FIELD : option string;
  stored_VALUE_FIELD : option string;
  stored_NODE_NAME_PATTERN : option string
}.

(** A value kept in [figma.clientStorage]: a configuration object, or the
    flag of the window size. *)
Inductive Stored :=
| StoredObject (c : StoredConfig)
| StoredFlag (b : bool).

(** [figma.clientStorage]: its slots, and whether its promises reject. *)
Record ClientStorage := {
  slots : gmap string Stored;
  rejecting : bool
}.

(** [!s || !s.trim()] *)
Definition blank (s : string) : bool := negb (truthy s) || negb (truthy (trim s)).

(** The object written for a complete configuration. *)
Definition asStored (config : ContentfulConfig) : StoredConfig :=
  {| stored_SPACE_ID := Some (SPACE_ID config);
     stored_ENVIRONMENT := Some (ENVIRONMENT config);
     stored_CMA_TOKEN := Some (CMA_TOKEN config);
     stored_CONTENT_TYPE := Some (CONTENT_TYPE config);
     stored_KEY_FIELD := Some (KEY_FIELD config);
     stored_VALUE_FIELD := Some (VALUE_FIELD config);
     stored_NODE_NAME_PATTERN := Some (NODE_NAME_PATTERN config) |}.

(** [{ ...defaultConfig, ...stored }] *)
Definition mergeWithDefaults (stored : option StoredConfig) : ContentfulConfig :=
  match stored with
  | Some st =>
      {| SPACE_ID := default (SPACE_ID defaultConfig) (stored_SPACE_ID st);
         ENVIRONMENT := default (ENVIRONMENT defaultConfig) (stored_ENVIRONMENT st);
         CMA_TOKEN := default (CMA_TOKEN defaultConfig) (stored_CMA_TOKEN st);
         CONTENT_TYPE := default (CONTENT_TYPE defaultConfig) (stored_CONTENT_TYPE st);
         KEY_FIELD := default (KEY_FIELD defaultConfig) (stored_KEY_FIELD st);
         VALUE_FIELD := default (VALUE_FIELD defaultConfig) (stored_VALUE_FIELD st);
         NODE_NAME_PATTERN :=
           default (NODE_NAME_PATTERN defaultConfig) (stored_NODE_NAME_PATTERN st) |}
  | None => defaultConfig
  end.

Definition configSlot : string := "translatorwiz_config".

(** [await figma.clientStorage.getAsync(key)]; [None] is [undefined]. *)
Definition getAsync (key : string) : M ClientStorage (option Stored) :=
  fun storage =>
    if rejecting storage then (Throw (Error "Storage error"), storage)
    else (Return (slots storage !! key), storage).

(** [await figma.clientStorage.setAsync(key, value)] *)
Definition setAsync (key : string) (v : Stored) : M ClientStorage unit :=
  fun storage =>
    if rejecting storage then (Throw (Error "Write failed"), storage)
    else (Return tt, {| slots := <[key := v]> (slots storage);
                        rejecting := rejecting storage |}).

(** [stored && typeof stored === 'object'] of [mergeWithDefaults], on what
    the storage returned. *)
Definition storedObject (stored : option Stored) : option StoredConfig :=
  match stored with
  | Some (StoredObject c) => Some c
  | _ => None
  end.

Definition loadConfigFromStorage : M ClientStorage ContentfulConfig :=
  try_catch
    (stored <- getAsync configSlot;;
     ret (mergeWithDefaults (storedObject stored)))%js
    (fun e => ret defaultConfig).

Definition saveConfigToStorage (config : ContentfulConfig) : M ClientStorage unit :=
  try_catch
    (setAsync configSlot (StoredObject (asStored config)))
    (fun _ => throw (Error "Failed to save config to storage")).

Section ConfigService.

Variable RegExp : string -> option (string -> bool).

Definition validateConfig (config : ContentfulConfig) : option string :=
  if blank (SPACE_ID config) then Some "SPACE_ID is required"
  else if blank (ENVIRONMENT config) then Some "ENVIRONMENT is required"
  else if blank (CMA_TOKEN config) then Some "CMA_TOKEN is required"
  else if blank (CONTENT_TYPE config) then Some "CONTENT_TYPE is required"
  else if blank (KEY_FIELD config) then Some "KEY_FIELD is required"
  else if blank (VALUE_FIELD config) then Some "VALUE_FIELD is required"
  else if blank (NODE_NAME_PATTERN config) then Some "NODE_NAME_PATTERN is required"
  else
    match newRegExp RegExp (NODE_NAME_PATTERN config) with
    | Return _ => None
    | Throw _ => Some ("Invalid regex pattern: " +:+ NODE_NAME_PATTERN config)
    end.

End ConfigService.

(** ** validateContentType (contentful.service.ts, lines 216-255) *)

(** The parsed body of the content-type endpoint: [data.fields] when it is
    an array, each element by its [id] when that is a string. *)
Record ContentTypeData := { type_fields : option (list (option string)) }.

Record ValidationResult := {
  validated : bool;                      (* success *)
  validation_error : option string       (* error *)
}.

Section ValidateContentType.

Variable encodeURIComponent : string -> string.
Variable transport : Transport.
(** [await response.json()] on the response of the content-type endpoint;
    [None] when the promise rejects. *)
Variable contentTypeOf : Response -> option ContentTypeData.

Definition contentTypeUrl (config : ContentfulConfig) : string :=
  environmentUrl encodeURIComponent config +:+ "/content_types/"
    +:+ encodeURIComponent (CONTENT_TYPE config).

Definition rejected (msg : string) : ValidationResult :=
  {| validated := false; validation_error := Some msg |}.

Definition validateContentType (config : ContentfulConfig)
  : M (list Request) ValidationResult :=
  try_catch
    (response <- fetchWithTimeout transport (getRequest (contentTypeUrl config) config)
                   API_TIMEOUT;;
     if negb (ok response) then
       if bool_decide (status response = 404)%Z
       then ret (rejected "Content type not found")
       else ret (rejected "Content type check failed")
     else
       data <- lift (match contentTypeOf response with
                     | Some d => Return d
                     | None => Throw (SyntaxError "Unexpected end of JSON input")
                     end);;
       let fields := default [] (type_fields data) in
       let fieldNames := map (default "") fields in
       if negb (bool_decide (KEY_FIELD config ∈ fieldNames))
       then ret (rejected "Key field not found in content type")
       else if negb (bool_decide (VALUE_FIELD config ∈ fieldNames))
       then ret (rejected "Value field not found in content type")
       else ret {| validated := true; validation_error := None |})%js
    (fun error => ret (rejected (messageOrElse "Content type check failed" error))).

End ValidateContentType.

(** ** The handlers (src/handlers) *)

(** The messages the handlers post to the UI ([figma.ui.postMessage]). *)
Inductive UiMessage :=
| ConfigLoaded (config : ContentfulConfig) (version : string)
| NodeCount (n : nat)
| ConfigSaveFailed (msg : string)
| ConfigSaved (config : ContentfulConfig)
| PreflightLocalesResult (succeeded : bool) (msg : string)
| TranslatableNodesLoaded (nodes : list TextNodeInfo)
| MultipleRecordsLoaded (recordsByContentType : gmap string (list Item))
| ErrorMessage (msg : string).

(** What a handler works on: the page, the client storage, the requests
    made and the messages posted, oldest first. *)
Record Plugin := {
  page : Page;
  storage : ClientStorage;
  requests : list Request;
  posted : list UiMessage
}.

Definition postMessage (m : UiMessage) : M Plugin unit :=
  fun plugin =>
    (Return tt, {| page := page plugin; storage := storage plugin;
                   requests := requests plugin; posted := posted plugin ++ [m] |}).

(** A computation on the client storage, run inside the plugin. *)
Definition onStorage {A} (m : M ClientStorage A) : M Plugin A :=
  fun plugin =>
    let '(r, storage') := m (storage plugin) in
    (r, {| page := page plugin; storage := storage';
           requests := requests plugin; posted := posted plugin |}).

(** A computation on the network, run inside the plugin. *)
Definition onNetwork {A} (m : M (list Request) A) : M Plugin A :=
  fun plugin =>
    let '(r, requests') := m (requests plugin) in
    (r, {| page := page plugin; storage := storage plugin;
           requests := requests'; posted := posted plugin |}).

Section Handlers.

Variable RegExp : string -> option (string -> bool).
Variable encodeURIComponent : string -> string.
Variable transport : Transport.

(** config.handler.ts, lines 14-27. *)
Definition handleInit : M Plugin unit :=
  (configData <- onStorage loadConfigFromStorage;;
   postMessage (ConfigLoaded configData PLUGIN_VERSION);;;
   match validateConfig RegExp configData with
   | None =>
       fun plugin =>
         postMessage (NodeCount (getTranslatableNodeCount RegExp (page plugin) configData))
           plugin
   | Some _ => ret tt
   end)%js.

(** config.handler.ts, lines 41-62; [None] is a message without config. *)
Definition handleSaveConfig (config : option ContentfulConfig) : M Plugin unit :=
  match config with
  | None => postMessage (ConfigSaveFailed "No config provided")
  | Some config =>
      match validateConfig RegExp config with
      | Some configError => postMessage (ConfigSaveFailed configError)
      | None =>
          (onStorage (saveConfigToStorage config);;;
           postMessage (ConfigSaved config);;;
           fun plugin =>
             postMessage (NodeCount (getTranslatableNodeCount RegExp (page plugin) config))
               plugin)%js
      end
  end.

(** config.handler.ts, lines 68-95. *)
Definition handlePreflightTestLocales (config : option ContentfulConfig) : M Plugin unit :=
  match config with
  | None => postMessage (PreflightLocalesResult false "No config provided")
  | Some config =>
      try_catch
        (locales <- onNetwork (fetchLocales encodeURIComponent transport config);;
         if decide (length locales = 0) then throw (Error "No locales found")
         else postMessage (PreflightLocalesResult true
                             ("Found " +:+ pretty (length locales) +:+ " locale(s)")))%js
        (fun error => postMessage (PreflightLocalesResult false
                                     (messageOrElse "Failed to fetch locales" error)))
  end.

(** write.handler.ts, [handleGetTranslatableNodes]. *)
Definition handleGetTranslatableNodes (config : option ContentfulConfig) : M Plugin unit :=
  match config with
  | None => postMessage (ErrorMessage "Configuration missing")
  | Some config =>
      try_catch
        (fun plugin =>
           (nodes <- lift (getTranslatableNodes RegExp (page plugin) config);;
            postMessage (TranslatableNodesLoaded nodes))%js plugin)
        (fun error => postMessage (ErrorMessage (messageOrString error)))
  end.

End Handlers.

(** *** handleLoadMultipleRecords (content.handler.ts) *)

Section LoadMultipleRecords.

Variable encodeURIComponent : string -> string.
Variable transport : Transport.

(** The loop over the content types: [recordsByContentType] is the
    object filled so far. *)
Fixpoint loadRecordsOf (config : ContentfulConfig) (contentTypes : list string)
    (recordsByContentType : gmap string (list Item))
  : M (list Request) (gmap string (list Item)) :=
  match contentTypes with
  | [] => ret recordsByContentType
  | contentType :: rest =>
      (records <- fetchRecords encodeURIComponent transport config contentType;;
       loadRecordsOf config rest (setProperty contentType records recordsByContentType))%js
  end.

(** [None] is a message without the property. *)
Definition handleLoadMultipleRecords (config : option ContentfulConfig)
    (contentTypes : option (list string)) : M Plugin unit :=
  match config, contentTypes with
  | Some config, Some contentTypes =>
      try_catch
        (recordsByContentType <- onNetwork (loadRecordsOf config contentTypes ∅);;
         postMessage (MultipleRecordsLoaded recordsByContentType))%js
        (fun error => postMessage (ErrorMessage (messageOrString error)))
  | _, _ => postMessage (ErrorMessage "Configuration or content types missing")
  end.

End LoadMultipleRecords.

(** *** The duplicate gate of the message handler (handlers/index.ts,
    lines 30-50) *)

Definition DUPLICATE_THRESHOLD_MS : Z := 200.

(** [lastMessageType]: [null] before the first message, then the
    [msg?.type] of the last message let through ([None] is [undefined]). *)
Inductive LastType :=
| NoMessageYet
| LastWas (t : option string).

#[global] Instance LastType_eq_dec : EqDecision LastType.
Proof. solve_decision. Defined.

Record GateState := {
  lastMessageType : LastType;
  lastMessageTime : Z
}.

Definition initialGate : GateState :=
  {| lastMessageType := NoMessageYet; lastMessageTime := 0 |}.

(** The first lines of the handler: [true] when the message goes on to
    the router, [false] when the handler returns at once.  [msgType] is
    [msg?.type], [now] is [Date.now()]. *)
Definition duplicateGate (gate : GateState) (msgType : option string) (now : Z)
  : bool * GateState :=
  let timeSinceLastMessage := (now - lastMessageTime gate)%Z in
  if bool_decide (LastWas msgType = lastMessageType gate)
     && bool_decide (timeSinceLastMessage < DUPLICATE_THRESHOLD_MS)%Z
  then (false, gate)
  else (true, {| lastMessageType := LastWas msgType; lastMessageTime := now |}).

(** The messages of a sequence that the gate lets through. *)
Fixpoint letThrough (gate : GateState) (msgs : list (option string * Z))
  : list (option string * Z) :=
  match msgs with
  | [] => []
  | (t, now) :: rest =>
      let '(pass, gate') := duplicateGate gate t now in
      if pass then (t, now) :: letThrough gate' rest else letThrough gate' rest
  end.

(** ** A pattern engine and a canvas for the examples

    The engine knows the two shapes of pattern the examples use: a pattern
    with an unclosed group or class is malformed, [^p] tests a prefix. *)

Definition exampleRegExp (p : string) : option (string -> bool) :=
  if bool_decide (p = "(" ∨ p = "[invalid") then None
  else match p with
       | String "^"%char rest => Some (fun s => String.prefix rest s)
       | _ => Some (fun s => bool_decide (p = s))
       end.

Definition allFontsLoad (f : FontName) : option string := None.

(** A font loader that has the Arial family only. *)
Definition arialOnly (f : FontName) : option string :=
  if decide (family f = "Arial") then None
  else Some ("The font " +:+ family f +:+ " " +:+ style f +:+ " could not be loaded").

(** [Object.prototype] as [String] shows it: its functions print as
    native functions, [__proto__] reads the prototype itself. *)
Definition exampleObjectPrototype (k : string) : option string :=
  if decide (k = "__proto__") then Some "[object Object]"
  else if decide (k = "constructor") then Some "function Object() { [native code] }"
  else if bool_decide (k ∈ ["__defineGetter__"; "__defineSetter__"; "hasOwnProperty";
                            "__lookupGetter__"; "__lookupSetter__"; "isPrototypeOf";
                            "propertyIsEnumerable"; "toString"; "valueOf";
                            "toLocaleString"])
  then Some ("function " +:+ k +:+ "() { [native code] }")
  else None.

Definition Arial (st : string) : FontName := {| family := "Arial"; style := st |}.

Definition textNode (id nm chars : string) (isLocked : bool) (font : FontNameOrMixed)
  : SceneNode :=
  {| node_id := id; node_type := TEXT; name := nm; characters := chars;
     locked := isLocked; hasMissingFont := false; fontName := font |}.

Definition jamsConfig : ContentfulConfig :=
  {| SPACE_ID := "space123"; ENVIRONMENT := "master"; CMA_TOKEN := "token123";
     CONTENT_TYPE := "translation"; KEY_FIELD := "key"; VALUE_FIELD := "value";
     NODE_NAME_PATTERN := "^jams_" |}.

Definition withPattern (p : string) : ContentfulConfig :=
  {| SPACE_ID := "space123"; ENVIRONMENT := "master"; CMA_TOKEN := "token123";
     CONTENT_TYPE := "translation"; KEY_FIELD := "key"; VALUE_FIELD := "value";
     NODE_NAME_PATTERN := p |}.

(** ** Notions the properties are stated with *)

(** A mixed node has a font for each of its characters, and has
    characters: the canvas reports [figma.mixed] only for a text that
    spans several fonts. *)
Definition wellStyled (node : SceneNode) : Prop :=
  match fontName node with
  | Font _ => True
  | mixed ranges => ranges ≠ [] ∧ length ranges = String.length (characters node)
  end.

(** The loop variables before the first iteration, on a canvas that has
    loaded nothing, and the loop variables of two runs put end to end. *)
Definition noCalls : ApplyState :=
  {| count := 0; errors := []; skipped := []; fontLoads := [] |}.

Definition addState (st d : ApplyState) : ApplyState :=
  {| count := count st + count d; errors := errors st ++ errors d;
     skipped := skipped st ++ skipped d; fontLoads := fontLoads st ++ fontLoads d |}.

(** Two runs that agree on everything but the calls of the font loader. *)
Definition sameTally (a b : ApplyState) : Prop :=
  count a = count b ∧ errors a = errors b ∧ skipped a = skipped b.

(** A node the loop of applyTranslations tries to update: a text node the
    pattern selects, not locked, with a translation under its name; and a
    node whose fonts are there: none missing, all loading. *)
Definition translatable (tm : gmap string string) (pattern : string -> bool)
    (node : SceneNode) : bool :=
  isTextNodeMatching pattern node && negb (locked node)
  && match tm !! name node with
     | Some translation => truthy translation
     | None => false
     end.

Definition fontsReady (fontFailure : FontName -> option string) (node : SceneNode) : bool :=
  negb (hasMissingFont node) && negb (is_throw (fst (loadNodeFonts fontFailure node []))).

(** The error applyTranslations records for a node it tries to update
    whose fonts are not there: [`${node.name}: Missing font`], or the name
    and the message of what the font block threw. *)
Definition fontError (fontFailure : FontName -> option string) (node : SceneNode)
  : option string :=
  if hasMissingFont node then Some (name node +:+ ": Missing font")
  else
    match fst (loadNodeFonts fontFailure node []) with
    | Throw error => Some (name node +:+ ": " +:+ messageOrElse "Font error" error)
    | Return _ => None
    end.

(** The canvas of the examples. *)
Definition labelAAB : SceneNode :=
  textNode "1" "jams_hello" "AAB" false (mixed [Arial "Regular"; Arial "Regular"; Arial "Bold"]).

Definition lockedTitle : SceneNode :=
  textNode "node1" "jams_title" "Old Title" true (Font (Arial "Regular")).

Definition canvasOf (nodes : list SceneNode) : Figma :=
  {| currentPage := Some nodes; loadFontCalls := [] |}.

(** What an item adds to the map of fetchAllContentfulItems: the key and
    the value it is stored under when it has a [sys] without
    [archivedVersion], a usable key and value, and a key under which an
    assignment stores a property. *)
Definition contribution (config : ContentfulConfig) (item : Item) : option (string * ItemRef) :=
  match sys item with
  | Some s =>
      match archivedVersion s with
      | Some _ => None
      | None =>
          let fs := default [] (fields item) in
          match unwrapLocale (member (KEY_FIELD config) fs),
                unwrapLocale (member (VALUE_FIELD config) fs) with
          | Some k, Some v =>
              if truthy k && truthy v && bool_decide (k ≠ "__proto__")
              then Some (k, {| ref_value := v; ref_id := sys_id s |})
              else None
          | _, _ => None
          end
      end
  | None => None
  end.

Definition keyOf (config : ContentfulConfig) (item : Item) : option string :=
  fst <$> contribution config item.

Definition store (config : ContentfulConfig) (acc : gmap string ItemRef) (item : Item)
  : gmap string ItemRef :=
  match contribution config item with
  | Some (k, r) => <[k := r]> acc
  | None => acc
  end.

(** An entry that carries the [archivedVersion] marker. *)
Definition archived (item : Item) : Prop :=
  exists s, sys item = Some s ∧ is_Some (archivedVersion s).

Global Instance archived_dec (item : Item) : Decision (archived item).
Proof.
  unfold archived. destruct (sys item) as [s|].
  - destruct (archivedVersion s) as [v|] eqn:Hv.
    + left. exists s. split; [done|by exists v].
    + right. intros (s' & [= <-] & [v Hv']). congruence.
  - right. by intros (s' & [=] & _).
Defined.

(** What a page request hands to the merge: the parsed body of the
    response, or the empty page when the request or the parsing failed. *)
Definition delivered (o : Outcome) : Json :=
  match o with
  | Resolved r => default emptyPage (json r)
  | _ => emptyPage
  end.

(** The value a computation returned, when it returned. *)
Definition fst_result {S A} (run : Exn A * S) : option A :=
  match fst run with
  | Return a => Some a
  | Throw _ => None
  end.

(** The network of the examples: the n-th request made receives the n-th
    answer of a script, and the answers have no reserved character for
    [encodeURIComponent] to escape. *)
Definition scripted (answers : list Outcome) : Transport :=
  fun trace _ => default Pending (answers !! length trace).

Definition noEscape (s : string) : string := s.

Definition respond (st : Z) (stText : string) (data : option Json) : Outcome :=
  Resolved {| ok := bool_decide (200 ≤ st ≤ 299)%Z; status := st; statusText := stText;
              text := ""; json := data |}.

Definition entryAt (id : string) (v : Z) : Json :=
  {| total := None; items := None;
     entry_sys := Some {| sys_id := id; version := Some v; archivedVersion := None |} |}.

Definition pageOf (declared : option Z) (l : list Item) : Json :=
  {| total := declared; items := Some l; entry_sys := None |}.

Definition entry (id k v : string) (archived : option Z) : Item :=
  {| code := None; item_name := None;
     sys := Some {| sys_id := id; version := Some 1%Z; archivedVersion := archived |};
     fields := Some [("key", Localized [("en-US", k)]);
                     ("value", Localized [("en-US", v)])] |}.

Definition numbered (i : nat) : Item :=
  entry ("entry" +:+ pretty i) ("key" +:+ pretty i) ("value" +:+ pretty i) None.

Definition updateOfE1 : ContentfulSaveItem :=
  {| save_key := "jams_title"; save_value := "Updated Value";
     isUpdate := true; entryId := Some "E1" |}.

(** The node [applyTranslations] leaves where it found [node]: the node
    with the translation under its name as characters when the loop tries
    to update it and its fonts are there, the node itself otherwise. *)
Definition translated (fontFailure : FontName -> option string) (tm : gmap string string)
    (pattern : string -> bool) (node : SceneNode) : SceneNode :=
  if translatable tm pattern node && fontsReady fontFailure node
  then setCharacters node (default "" (tm !! name node))
  else node.

(** What [updateMultipleNodes] may do to a node of the page: nothing, or
    the assignment of [newText] to a text node whose id was given and
    whose font is not missing. *)
Definition rewritten (newText : string) (nodeIds : list string) (n n' : SceneNode) : Prop :=
  n' = n
  ∨ (n' = setCharacters n newText ∧ node_type n = TEXT ∧ node_id n ∈ nodeIds
     ∧ hasMissingFont n = false).

(** What [applyRecordToNodes] may do to a node of the page: nothing, or
    the assignment of what the record gives for a mapped field (a
    property of its own that is neither undefined nor null, or one it
    inherits from [Object.prototype]) to an unlocked text node whose font
    is not missing. *)
Definition filled (objectPrototype : string -> option string)
    (recordFields : gmap string (option string)) (mappings : list FieldMapping)
    (n n' : SceneNode) : Prop :=
  n' = n
  ∨ exists mapping textValue,
      mapping ∈ mappings ∧ mapping_node mapping = node_id n
      ∧ getField objectPrototype recordFields (mapping_field mapping) = Some textValue
      ∧ n' = setCharacters n textValue
      ∧ node_type n = TEXT ∧ locked n = false ∧ hasMissingFont n = false.

(** * Properties *)

(** ** The font block *)

Section FontBlock.

Variable fontFailure : FontName -> option string.

Lemma loadFontAsync_calls (f : FontName) (calls : list FontName) :
  loadFontAsync fontFailure f calls =
  (fst (loadFontAsync fontFailure f []), calls ++ snd (loadFontAsync fontFailure f [])).
Proof. reflexivity. Qed.

(** The calls already made do not change what the loop over the ranges
    does: they are a prefix of the calls it leaves. *)
Lemma loadRangeFonts_calls (node : SceneNode) (positions : list nat)
    (uniqueFonts : gset string) (calls : list FontName) :
  loadRangeFonts fontFailure node positions uniqueFonts calls =
  (fst (loadRangeFonts fontFailure node positions uniqueFonts []),
   calls ++ snd (loadRangeFonts fontFailure node positions uniqueFonts [])).
Proof.
  revert uniqueFonts calls.
  induction positions as [|i rest IH]; intros uniqueFonts calls; simpl.
  - unfold ret. simpl. by rewrite app_nil_r.
  - unfold bind, lift, loadFontAsync.
    destruct (getRangeFontName node i) as [font|e]; simpl.
    + destruct (fontFailure font) as [msg|]; simpl; [done|].
      rewrite (IH _ (calls ++ [font])), (IH _ [font]). simpl.
      by rewrite <- app_assoc.
    + by rewrite app_nil_r.
Qed.

Lemma loadNodeFonts_calls (node : SceneNode) (calls : list FontName) :
  loadNodeFonts fontFailure node calls =
  (fst (loadNodeFonts fontFailure node []),
   calls ++ snd (loadNodeFonts fontFailure node [])).
Proof.
  unfold loadNodeFonts. destruct (fontName node) as [f|ranges].
  - apply loadFontAsync_calls.
  - unfold bind, ret. rewrite loadRangeFonts_calls.
    destruct (loadRangeFonts fontFailure node _ ∅ []) as [[u|e] extra]; reflexivity.
Qed.

(** The loop over the ranges of a node whose ranges cover the positions
    visited: it asks for the font of every position, one call each, until
    a font fails to load. *)
Lemma loadRangeFonts_all_load (node : SceneNode) (ranges : list FontName)
    (start n : nat) (uniqueFonts : gset string) (calls : list FontName) :
  fontName node = mixed ranges ->
  start + n <= length ranges ->
  (forall f, f ∈ take n (drop start ranges) -> fontFailure f = None) ->
  exists u, loadRangeFonts fontFailure node (seq start n) uniqueFonts calls =
            (Return u, calls ++ take n (drop start ranges)).
Proof.
  intros Hmixed. revert start uniqueFonts calls.
  induction n as [|n IH]; intros start uniqueFonts calls Hlen Hload; simpl.
  - exists uniqueFonts. unfold ret. by rewrite app_nil_r.
  - destruct (lookup_lt_is_Some_2 ranges start ltac:(lia)) as [f Hf].
    unfold bind, lift, getRangeFontName. rewrite Hmixed, Hf. simpl.
    rewrite (drop_S _ _ _ Hf) in Hload |- *. simpl in Hload |- *.
    rewrite (Hload f) by set_solver.
    destruct (IH (S start) (uniqueFonts ∪ {[family f +:+ ":" +:+ style f]}) (calls ++ [f]))
      as [u Hu]; [lia | intros g Hg; apply Hload; set_solver |].
    exists u. rewrite Hu. by rewrite <- app_assoc.
Qed.

(** A font that fails to load stops the loop: the calls made are those of
    the positions up to the failing one, the later positions are not
    visited. *)
Lemma loadRangeFonts_first_failure (node : SceneNode) (ranges : list FontName)
    (start n i : nat) (f : FontName) (msg : string)
    (uniqueFonts : gset string) (calls : list FontName) :
  fontName node = mixed ranges ->
  start + n <= length ranges ->
  i < n ->
  ranges !! (start + i) = Some f ->
  fontFailure f = Some msg ->
  (forall g, g ∈ take i (drop start ranges) -> fontFailure g = None) ->
  loadRangeFonts fontFailure node (seq start n) uniqueFonts calls =
  (Throw (Error msg), calls ++ take (S i) (drop start ranges)).
Proof.
  intros Hmixed. revert start i uniqueFonts calls.
  induction n as [|n IH]; intros start i uniqueFonts calls Hlen Hi Hf Hfail Hload; [lia|].
  simpl. destruct (lookup_lt_is_Some_2 ranges start ltac:(lia)) as [g Hg].
  unfold bind, lift, getRangeFontName. rewrite Hmixed, Hg. simpl.
  rewrite (drop_S _ _ _ Hg) in Hload |- *.
  destruct i as [|i].
  - rewrite Nat.add_0_r in Hf. assert (g = f) as -> by congruence.
    unfold loadFontAsync. rewrite Hfail. simpl. by rewrite take_0.
  - simpl in Hload |- *. rewrite (Hload g) by set_solver.
    rewrite (IH (S start) i _ (calls ++ [g])); try lia.
    + simpl. by rewrite <- app_assoc.
    + by replace (S start + i) with (start + S i) by lia.
    + done.
    + intros h Hh. apply Hload. set_solver.
Qed.

End FontBlock.

(** ** applyTranslations: one node *)

Section ApplyToNode.

Variable fontFailure : FontName -> option string.

Lemma addState_noCalls (st : ApplyState) : addState st noCalls = st.
Proof.
  destruct st. unfold addState, noCalls. simpl.
  by rewrite Nat.add_0_r, !app_nil_r.
Qed.

Lemma addState_assoc (a b c : ApplyState) :
  addState (addState a b) c = addState a (addState b c).
Proof.
  unfold addState. simpl. by rewrite Nat.add_assoc, !app_assoc.
Qed.

(** What an iteration adds to the loop variables does not depend on what
    they held. *)
Lemma applyToNode_delta (tm : gmap string string) (node : SceneNode) (st : ApplyState) :
  applyToNode fontFailure tm node st =
  (fst (applyToNode fontFailure tm node noCalls),
   addState st (snd (applyToNode fontFailure tm node noCalls))).
Proof.
  unfold applyToNode.
  destruct (locked node).
  { simpl. unfold pushSkipped, addState. simpl.
    by rewrite Nat.add_0_r, !app_nil_r. }
  destruct (tm !! name node) as [translation|]; [|by rewrite addState_noCalls].
  destruct (truthy translation); [|by rewrite addState_noCalls].
  destruct (hasMissingFont node).
  { simpl. unfold pushError, addState. simpl.
    by rewrite Nat.add_0_r, !app_nil_r. }
  rewrite (loadNodeFonts_calls _ _ (fontLoads st)). simpl.
  destruct (loadNodeFonts fontFailure node []) as [[u|e] extra]; simpl;
    unfold countUp, pushError, addState; simpl;
    by rewrite ?Nat.add_0_r, ?Nat.add_1_r, ?app_nil_r.
Qed.

(** An iteration changes nothing of a node but its characters and font. *)
Lemma applyToNode_identity (tm : gmap string string) (node : SceneNode) (st : ApplyState) :
  let node' := fst (applyToNode fontFailure tm node st) in
  node_id node' = node_id node ∧ node_type node' = node_type node ∧
  name node' = name node ∧ locked node' = locked node ∧
  hasMissingFont node' = hasMissingFont node.
Proof.
  unfold applyToNode.
  destruct (locked node) eqn:Hlocked; [by simpl; rewrite Hlocked|].
  destruct (tm !! name node) as [translation|]; [|by simpl; rewrite Hlocked].
  destruct (truthy translation); [|by simpl; rewrite Hlocked].
  destruct (hasMissingFont node) eqn:Hmiss; [by simpl; rewrite Hlocked, Hmiss|].
  destruct (loadNodeFonts fontFailure node (fontLoads st)) as [[u|e] calls]; simpl;
    by rewrite ?Hmiss, ?Hlocked.
Qed.

(** A locked node leaves the iteration as it entered it, and is recorded
    as skipped. *)
Lemma applyToNode_locked (tm : gmap string string) (node : SceneNode) (st : ApplyState) :
  locked node = true ->
  applyToNode fontFailure tm node st = (node, pushSkipped st (name node +:+ ": Locked")).
Proof. intros Hlocked. unfold applyToNode. by rewrite Hlocked. Qed.

End ApplyToNode.

(** ** The mixed-font branch *)

Section MixedFonts.

Variable fontFailure : FontName -> option string.

(** C8 (amended): when new text is applied to an unlocked node whose font
    is mixed, the loop asks for the font of every character position and
    calls the font loader once per position, in order, without
    deduplication; the characters are overwritten only when every one of
    these calls has succeeded, and a call that fails leaves the node as it
    was and ends the loop. *)
Theorem mixed_fonts_loaded_per_position (tm : gmap string string) (node : SceneNode)
    (st : ApplyState) (translation : string) (ranges : list FontName) :
  locked node = false ->
  tm !! name node = Some translation ->
  truthy translation = true ->
  hasMissingFont node = false ->
  fontName node = mixed ranges ->
  length ranges = String.length (characters node) ->
  ((forall f, f ∈ ranges -> fontFailure f = None) ->
   applyToNode fontFailure tm node st =
   (setCharacters node translation, countUp st (fontLoads st ++ ranges)))
  ∧ (forall i f msg,
       ranges !! i = Some f ->
       fontFailure f = Some msg ->
       (forall g, g ∈ take i ranges -> fontFailure g = None) ->
       applyToNode fontFailure tm node st =
       (node, pushError st (name node +:+ ": " +:+ msg)
                (fontLoads st ++ take (S i) ranges))).
Proof.
  intros Hlocked Htm Htruthy Hmissing Hmixed Hlen.
  unfold applyToNode. rewrite Hlocked, Htm, Htruthy, Hmissing.
  unfold loadNodeFonts. rewrite Hmixed. unfold bind. rewrite <- Hlen.
  split.
  - intros Hload.
    destruct (loadRangeFonts_all_load fontFailure node ranges 0 (length ranges) ∅
                (fontLoads st) Hmixed) as [u Hu].
    + lia.
    + rewrite drop_0, firstn_all. exact Hload.
    + rewrite Hu. rewrite drop_0, firstn_all. reflexivity.
  - intros i f msg Hi Hfail Hload.
    rewrite (loadRangeFonts_first_failure fontFailure node ranges 0 (length ranges) i f msg
               ∅ (fontLoads st) Hmixed).
    + by rewrite drop_0.
    + lia.
    + by apply lookup_lt_Some in Hi.
    + exact Hi.
    + exact Hfail.
    + by rewrite drop_0.
Qed.

End MixedFonts.

Lemma mixed_fonts_loaded_per_position_witness :
  applyToNode allFontsLoad {[ "jams_hello" := "New Hello" ]} labelAAB noCalls =
  (setCharacters labelAAB "New Hello",
   countUp noCalls ([] ++ [Arial "Regular"; Arial "Regular"; Arial "Bold"])).
Proof.
  apply (mixed_fonts_loaded_per_position allFontsLoad
           {[ "jams_hello" := "New Hello" ]} labelAAB noCalls "New Hello"
           [Arial "Regular"; Arial "Regular"; Arial "Bold"]);
    try reflexivity.
Defined.

(** C8, as stated, fails: the text "AAB" has two fonts, and the font of
    its first two characters is loaded twice. *)
Lemma mixed_fonts_not_deduplicated :
  let figma := snd (applyTranslations exampleRegExp allFontsLoad
                      [{| key := "jams_hello"; value := "New Hello" |}]
                      jamsConfig (canvasOf [labelAAB])) in
  loadFontCalls figma = [Arial "Regular"; Arial "Regular"; Arial "Bold"]
  ∧ ¬ NoDup (loadFontCalls figma).
Proof.
  split; [reflexivity|].
  intros Hnodup. vm_compute in Hnodup.
  apply NoDup_cons in Hnodup as [Hnotin _]. apply Hnotin. left.
Qed.

(** ** applyTranslations: the outcome of the call *)

Section ApplyTranslations.

Variable RegExp : string -> option (string -> bool).
Variable fontFailure : FontName -> option string.

Lemma applyLoop_delta (tm : gmap string string) (pattern : string -> bool)
    (nodes : list SceneNode) (st : ApplyState) :
  applyLoop fontFailure tm pattern nodes st =
  (fst (applyLoop fontFailure tm pattern nodes noCalls),
   addState st (snd (applyLoop fontFailure tm pattern nodes noCalls))).
Proof.
  revert st. induction nodes as [|node rest IH]; intros st; simpl.
  - by rewrite addState_noCalls.
  - destruct (isTextNodeMatching pattern node).
    + rewrite (applyToNode_delta fontFailure tm node st).
      destruct (applyToNode fontFailure tm node noCalls) as [node' d]. simpl.
      rewrite (IH (addState st d)), (IH d).
      destruct (applyLoop fontFailure tm pattern rest noCalls) as [rest' d']. simpl.
      by rewrite addState_assoc.
    + rewrite (IH st).
      by destruct (applyLoop fontFailure tm pattern rest noCalls) as [rest' d'].
Qed.

(** The nodes the loop visits are the nodes of [textNodes]. *)
Lemma textNodes_filter (pattern : string -> bool) (nodes : list SceneNode) :
  filter (fun n => pattern (name n) = true) (findAllText nodes) =
  filter (fun n => isTextNodeMatching pattern n = true) nodes.
Proof.
  unfold findAllText. rewrite list_filter_filter.
  apply list_filter_iff. intros n. unfold isTextNodeMatching.
  rewrite andb_true_iff, bool_decide_eq_true. tauto.
Qed.

(** What the loop counts and records: the count is the number of nodes it
    tried to update whose fonts were there, a skip is recorded for every
    locked node the pattern selects, and no error is recorded exactly when
    the fonts of every node it tried to update were there. *)
Lemma applyToNode_tally (tm : gmap string string) (pattern : string -> bool)
    (node : SceneNode) :
  isTextNodeMatching pattern node = true ->
  let d := snd (applyToNode fontFailure tm node noCalls) in
  count d = (if translatable tm pattern node && fontsReady fontFailure node then 1 else 0)
  ∧ skipped d = (if locked node then [name node +:+ ": Locked"] else [])
  ∧ (errors d = [] <->
     (translatable tm pattern node = true -> fontsReady fontFailure node = true)).
Proof.
  intros Hmatch. unfold translatable, fontsReady, applyToNode. rewrite Hmatch. simpl.
  destruct (locked node); [by repeat split|]. simpl.
  destruct (tm !! name node) as [translation|]; [|by repeat split]. simpl.
  destruct (truthy translation); [|by repeat split]. simpl.
  destruct (hasMissingFont node); simpl.
  { split; [done|]. split; [done|]. split; [done|]. intros Hready. by specialize (Hready eq_refl). }
  destruct (loadNodeFonts fontFailure node []) as [[u|e] calls]; simpl.
  - by repeat split.
  - split; [done|]. split; [done|]. split; [done|].
    intros Hready. by specialize (Hready eq_refl).
Qed.

Lemma applyLoop_tally (tm : gmap string string) (pattern : string -> bool)
    (nodes : list SceneNode) :
  let st := snd (applyLoop fontFailure tm pattern nodes noCalls) in
  count st = length (filter (fun n => translatable tm pattern n
                                      && fontsReady fontFailure n = true) nodes)
  ∧ skipped st = map (fun n => name n +:+ ": Locked")
                   (filter (fun n => isTextNodeMatching pattern n && locked n = true) nodes)
  ∧ (errors st = [] <->
     Forall (fun n => translatable tm pattern n = true -> fontsReady fontFailure n = true)
            nodes).
Proof.
  induction nodes as [|node rest IH]; simpl; [by repeat split|].
  destruct IH as (Hcount & Hskipped & Herrors).
  destruct (isTextNodeMatching pattern node) eqn:Hmatch.
  - destruct (applyToNode_tally tm pattern node Hmatch) as (Hc & Hs & He).
    destruct (applyToNode fontFailure tm node noCalls) as [node' d]. simpl in Hc, Hs, He.
    rewrite (applyLoop_delta tm pattern rest d).
    destruct (applyLoop fontFailure tm pattern rest noCalls) as [rest' D]. cbn [fst snd addState count errors skipped] in *.
    split; [|split].
    + rewrite Hc, Hcount.
      destruct (translatable tm pattern node && fontsReady fontFailure node) eqn:Hdone.
      * by rewrite filter_cons_True by done.
      * rewrite filter_cons_False; [done|]. cbv beta. by rewrite Hdone.
    + rewrite Hs, Hskipped. destruct (locked node) eqn:Hlocked.
      * rewrite filter_cons_True; [done|]. cbv beta. by rewrite Hmatch, Hlocked.
      * rewrite filter_cons_False; [done|]. cbv beta. by rewrite Hlocked, andb_false_r.
    + rewrite Forall_cons. rewrite <- Herrors, <- He.
      split; [by intros [-> ->]%app_eq_nil|by intros [-> ->]].
  - destruct (applyLoop fontFailure tm pattern rest noCalls) as [rest' D]. cbn [fst snd addState count errors skipped] in *.
    split; [|split].
    + rewrite filter_cons_False; [done|]. cbv beta. unfold translatable. by rewrite Hmatch.
    + rewrite filter_cons_False; [done|]. cbv beta. by rewrite Hmatch.
    + rewrite Forall_cons, Herrors.
      split; [intros Hrest; split; [|done]|by intros [_ ?]].
      unfold translatable. by rewrite Hmatch.
Qed.

(** An error is recorded for a node exactly when its fonts are not
    there. *)
Lemma fontError_fontsReady (node : SceneNode) :
  fontError fontFailure node = None <-> fontsReady fontFailure node = true.
Proof.
  unfold fontError, fontsReady. destruct (hasMissingFont node); [done|].
  by destruct (fst (loadNodeFonts fontFailure node [])).
Qed.

(** The errors the loop records: one for every node it tries to update
    whose fonts are not there, in the order of the page. *)
Lemma applyToNode_errors (tm : gmap string string) (pattern : string -> bool)
    (node : SceneNode) :
  isTextNodeMatching pattern node = true ->
  errors (snd (applyToNode fontFailure tm node noCalls)) =
  omap (fontError fontFailure) (filter (fun n => translatable tm pattern n = true) [node]).
Proof.
  intros Hmatch. unfold translatable, fontError, applyToNode.
  rewrite filter_cons, filter_nil. rewrite Hmatch. simpl.
  destruct (locked node); [done|]. simpl.
  destruct (tm !! name node) as [translation|]; [|done]. simpl.
  destruct (truthy translation); [|done]. simpl.
  destruct (hasMissingFont node); [done|].
  by destruct (loadNodeFonts fontFailure node []) as [[u|e] calls].
Qed.

Lemma applyLoop_errors (tm : gmap string string) (pattern : string -> bool)
    (nodes : list SceneNode) :
  errors (snd (applyLoop fontFailure tm pattern nodes noCalls)) =
  omap (fontError fontFailure) (filter (fun n => translatable tm pattern n = true) nodes).
Proof.
  induction nodes as [|node rest IH]; [done|].
  change (node :: rest) with ([node] ++ rest) at 2.
  rewrite filter_app, omap_app, <- IH. simpl.
  destruct (isTextNodeMatching pattern node) eqn:Hmatch.
  - rewrite <- (applyToNode_errors tm pattern node Hmatch).
    destruct (applyToNode fontFailure tm node noCalls) as [node' d].
    rewrite (applyLoop_delta tm pattern rest d).
    by destruct (applyLoop fontFailure tm pattern rest noCalls) as [rest' D].
  - rewrite filter_cons_False, filter_nil by (unfold translatable; by rewrite Hmatch).
    by destruct (applyLoop fontFailure tm pattern rest noCalls) as [rest' D].
Qed.

(** C4: when the pattern matches at least one text node of the page,
    applyTranslations throws exactly when no node was updated, that is,
    when none of the nodes it tries to update (matched, unlocked, with a
    translation under their name) has its fonts there; the error it then
    throws carries the first error recorded, in the order of the page, for
    a node whose font is missing or does not load, or else the first
    locked-skip reason, or else the message that no translation matched;
    when a node was updated the call returns the number of the nodes
    updated, whatever errors and skips were recorded.  Every node it tries
    to update is either counted or recorded with an error. *)
Theorem applyTranslations_throws_iff_no_success (translations : list Translation)
    (config : ContentfulConfig) (figma : Figma)
    (pattern : string -> bool) (nodes : list SceneNode) :
  RegExp (NODE_NAME_PATTERN config) = Some pattern ->
  currentPage figma = Some nodes ->
  (exists node, node ∈ nodes ∧ node_type node = TEXT ∧ pattern (name node) = true) ->
  let tm := buildTranslationMap translations in
  let tried := filter (fun n => translatable tm pattern n = true) nodes in
  let updated := filter (fun n => fontsReady fontFailure n = true) tried in
  let fontErrors := omap (fontError fontFailure) tried in
  let lockedSkips :=
    map (fun n => name n +:+ ": Locked")
      (filter (fun n => isTextNodeMatching pattern n && locked n = true) nodes) in
  let result := fst (applyTranslations RegExp fontFailure translations config figma) in
  (is_throw result = true <-> length updated = 0)
  ∧ (length updated = 0 ->
     result = Throw (Error match fontErrors, lockedSkips with
                           | e0 :: _, _ => "Translation failed: " +:+ e0
                           | [], s0 :: _ => "All nodes skipped: " +:+ s0
                           | [], [] => "No matching translations found for text nodes"
                           end))
  ∧ (length updated ≠ 0 -> result = Return (length updated))
  ∧ length updated + length fontErrors = length tried.
Proof.
  intros Hpattern Hpage (node & Hin & Htype & Hmatch) tm tried updated fontErrors lockedSkips result.
  pose proof (applyLoop_tally tm pattern nodes) as (Hcount & Hskipped & _).
  pose proof (applyLoop_errors tm pattern nodes) as Herrors.
  assert (length updated =
          length (filter (fun n => translatable tm pattern n
                                   && fontsReady fontFailure n = true) nodes)) as Hupdated.
  { subst updated tried. rewrite list_filter_filter. f_equal.
    apply list_filter_iff. intros n. rewrite andb_true_iff. tauto. }
  assert (length updated + length fontErrors = length tried) as Hall.
  { subst updated fontErrors. clear. induction tried as [|n rest IH]; [done|].
    rewrite filter_cons. simpl.
    pose proof (fontError_fontsReady n) as Hready.
    destruct (decide (fontsReady fontFailure n = true)) as [Hyes|Hno].
    - apply Hready in Hyes. rewrite Hyes. simpl. f_equal. exact IH.
    - destruct (fontError fontFailure n) as [e|].
      + simpl. rewrite Nat.add_succ_r. f_equal. exact IH.
      + destruct Hno. by apply Hready. }
  split; [|split; [|split; [|exact Hall]]].
  all: subst result; unfold applyTranslations, newRegExp;
    rewrite Hpattern, Hpage, textNodes_filter.
  all: destruct (decide (length (filter _ nodes) = 0)) as [Hnone|_];
    [apply length_zero_iff_nil in Hnone;
     assert (node ∈ filter (fun n => isTextNodeMatching pattern n = true) nodes) as Hnode
       by (apply list_elem_of_filter; split; [|done];
           unfold isTextNodeMatching; by rewrite Hmatch, bool_decide_eq_true_2);
     rewrite Hnone in Hnode; by apply elem_of_nil in Hnode|].
  all: fold tm; rewrite (applyLoop_delta tm pattern nodes (initialState figma));
    destruct (applyLoop fontFailure tm pattern nodes noCalls) as [nodes' d];
    cbn [fst snd addState count errors skipped initialState] in *;
    rewrite Hupdated, <- Hcount.
  - destruct (decide (0 + count d = 0)) as [Hzero|Hsome]; simpl.
    + split; [intros _; lia|done].
    + split; [done|]. intros Hzero. lia.
  - intros Hzero. destruct (decide (0 + count d = 0)) as [_|Hsome]; [|lia]. simpl.
    unfold noSuccessError, addState, initialState. cbn [errors skipped app].
    subst fontErrors lockedSkips tried. rewrite Herrors, Hskipped.
    by destruct (omap _ _), (map _ _).
  - intros Hsome. destruct (decide (0 + count d = 0)) as [Hzero|_]; [lia|]. simpl.
    f_equal.
Qed.

End ApplyTranslations.

Lemma applyTranslations_throws_iff_no_success_witness :
  let figma :=
    canvasOf [lockedTitle;
              textNode "2" "jams_body" "Body" false
                (Font {| family := "Inter"; style := "Regular" |})] in
  fst (applyTranslations exampleRegExp arialOnly
         [{| key := "jams_title"; value := "New Title" |};
          {| key := "jams_body"; value := "New Body" |}] jamsConfig figma) =
  Throw (Error "Translation failed: jams_body: The font Inter Regular could not be loaded").
Proof.
  intros figma.
  destruct (applyTranslations_throws_iff_no_success exampleRegExp arialOnly
              [{| key := "jams_title"; value := "New Title" |};
               {| key := "jams_body"; value := "New Body" |}] jamsConfig figma
              (fun s => String.prefix "jams_" s)
              [lockedTitle;
               textNode "2" "jams_body" "Body" false
                 (Font {| family := "Inter"; style := "Regular" |})])
    as (_ & Hzero & _ & _).
  - reflexivity.
  - reflexivity.
  - exists lockedTitle. split; [apply list_elem_of_here|]. split; reflexivity.
  - apply Hzero. reflexivity.
Defined.

(** ** The node matcher and malformed patterns *)

Section NodeMatcher.

Variable RegExp : string -> option (string -> bool).

(** C3 (amended): for every malformed pattern getTranslatableNodeCount
    returns zero matches and does not throw; the zero it returns is the
    zero of a page without nodes, no signal of an invalid pattern comes
    with it. *)
Theorem getTranslatableNodeCount_malformed (page : Page) (config other : ContentfulConfig) :
  RegExp (NODE_NAME_PATTERN config) = None ->
  getTranslatableNodeCount RegExp page config = 0
  ∧ getTranslatableNodeCount RegExp page config =
    getTranslatableNodeCount RegExp (Some []) other.
Proof.
  intros Hmalformed.
  assert (getTranslatableNodeCount RegExp page config = 0) as ->.
  { unfold getTranslatableNodeCount, newRegExp. rewrite Hmalformed.
    by destruct page. }
  split; [done|].
  unfold getTranslatableNodeCount, newRegExp.
  by destruct (RegExp (NODE_NAME_PATTERN other)).
Qed.

(** getTranslatableNodes builds the pattern outside any [try]: the error
    of a malformed pattern leaves the function. *)
Lemma getTranslatableNodes_malformed (page : Page) (config : ContentfulConfig) :
  RegExp (NODE_NAME_PATTERN config) = None ->
  is_throw (getTranslatableNodes RegExp page config) = true.
Proof.
  intros Hmalformed. unfold getTranslatableNodes, newRegExp. by rewrite Hmalformed.
Qed.

End NodeMatcher.

Lemma getTranslatableNodeCount_malformed_witness :
  getTranslatableNodeCount exampleRegExp (Some [labelAAB]) (withPattern "[invalid") = 0
  ∧ getTranslatableNodeCount exampleRegExp (Some [labelAAB]) (withPattern "[invalid") =
    getTranslatableNodeCount exampleRegExp (Some []) jamsConfig.
Proof.
  apply (getTranslatableNodeCount_malformed exampleRegExp (Some [labelAAB])
           (withPattern "[invalid") jamsConfig).
  reflexivity.
Defined.

(** C3, as stated, fails on a page with one matching node and the
    malformed pattern "(": getTranslatableNodes throws, and the count
    getTranslatableNodeCount returns is the one it returns for a well-formed
    pattern that matches no node. *)
Lemma malformed_pattern_not_signalled :
  is_throw (getTranslatableNodes exampleRegExp (Some [labelAAB]) (withPattern "(")) = true
  ∧ ename_of (getTranslatableNodes exampleRegExp (Some [labelAAB]) (withPattern "("))
    = Some "SyntaxError"
  ∧ getTranslatableNodeCount exampleRegExp (Some [labelAAB]) (withPattern "(") =
    getTranslatableNodeCount exampleRegExp (Some [labelAAB]) (withPattern "^nothing_").
Proof. repeat split; reflexivity. Qed.

(** ** Locked nodes *)

Section LockedNodes.

Variable RegExp : string -> option (string -> bool).
Variable fontFailure : FontName -> option string.
Variable objectPrototype : string -> option string.

(** The loop of applyTranslations leaves every locked node as it was. *)
Lemma applyLoop_keeps_locked (tm : gmap string string) (pattern : string -> bool)
    (nodes : list SceneNode) (st : ApplyState) (i : nat) (node : SceneNode) :
  nodes !! i = Some node ->
  locked node = true ->
  fst (applyLoop fontFailure tm pattern nodes st) !! i = Some node.
Proof.
  revert st i. induction nodes as [|n rest IH]; intros st i Hi Hlocked; [done|].
  simpl. destruct (isTextNodeMatching pattern n).
  - destruct (applyToNode fontFailure tm n st) as [n' st'] eqn:Hn.
    specialize (IH st'). destruct (applyLoop fontFailure tm pattern rest st') as [rest' st''].
    destruct i as [|i]; simpl in *.
    + injection Hi as ->. rewrite applyToNode_locked in Hn by done. congruence.
    + by apply IH.
  - specialize (IH st). destruct (applyLoop fontFailure tm pattern rest st) as [rest' st'].
    destruct i as [|i]; simpl in *; [done|by apply IH].
Qed.

Lemma applyTranslations_keeps_locked (translations : list Translation)
    (config : ContentfulConfig) (figma : Figma) (nodes : list SceneNode)
    (i : nat) (node : SceneNode) :
  currentPage figma = Some nodes ->
  nodes !! i = Some node ->
  locked node = true ->
  exists nodes', currentPage (snd (applyTranslations RegExp fontFailure translations config figma))
                 = Some nodes'
                 ∧ nodes' !! i = Some node.
Proof.
  intros Hpage Hi Hlocked. unfold applyTranslations.
  destruct (newRegExp RegExp _) as [pattern|e]; [|by exists nodes].
  rewrite Hpage. destruct (decide _); [by exists nodes|].
  pose proof (applyLoop_keeps_locked (buildTranslationMap translations) pattern nodes
                (initialState figma) i node Hi Hlocked) as Hkept.
  destruct (applyLoop _ _ _ _ _) as [nodes' st]. simpl in Hkept.
  exists nodes'. by destruct (decide _).
Qed.

(** An iteration of applyRecordToNodes leaves every locked node as it
    was. *)
Lemma applyMapping_keeps_locked (recordFields : gmap string (option string)) (mapping : FieldMapping)
    (errors : list string) (figma : Figma) (nodes : list SceneNode)
    (i : nat) (node : SceneNode) :
  currentPage figma = Some nodes ->
  nodes !! i = Some node ->
  locked node = true ->
  exists nodes', currentPage (snd (applyMapping fontFailure objectPrototype recordFields mapping errors figma))
                 = Some nodes'
                 ∧ nodes' !! i = Some node.
Proof.
  intros Hpage Hi Hlocked. unfold applyMapping, getNodeByIdAsync. rewrite Hpage.
  destruct (list_find _ nodes) as [[j found]|] eqn:Hfind; [|by exists nodes].
  apply list_find_Some in Hfind as (Hj & _ & _).
  destruct (decide _); [by exists nodes|].
  destruct (locked found) eqn:Hfound; [by exists nodes|].
  destruct (getField _ _ _); [|by exists nodes].
  destruct (hasMissingFont found); [by exists nodes|].
  destruct (loadNodeFonts _ _ _) as [[u|e] calls]; simpl; [|by exists nodes].
  rewrite Hpage. simpl. eexists. split; [done|].
  rewrite list_lookup_insert_ne; [done|]. intros ->. congruence.
Qed.

Lemma applyRecordToNodes_keeps_locked (mappings : list FieldMapping)
    (recordFields : gmap string (option string)) (figma : Figma) (nodes : list SceneNode)
    (i : nat) (node : SceneNode) :
  currentPage figma = Some nodes ->
  nodes !! i = Some node ->
  locked node = true ->
  exists nodes', currentPage (snd (applyRecordToNodes fontFailure objectPrototype mappings recordFields figma))
                 = Some nodes'
                 ∧ nodes' !! i = Some node.
Proof.
  intros Hpage Hi Hlocked. unfold applyRecordToNodes.
  generalize (@nil string). revert figma nodes Hpage Hi.
  induction mappings as [|mapping rest IH]; intros figma nodes Hpage Hi errors; simpl.
  - by exists nodes.
  - destruct (applyMapping_keeps_locked recordFields mapping errors figma nodes i node
                Hpage Hi Hlocked) as (nodes' & Hpage' & Hi').
    destruct (applyMapping fontFailure objectPrototype recordFields mapping errors figma) as [errors' figma'].
    by apply (IH figma' nodes').
Qed.

End LockedNodes.

(** C1: updateMultipleNodes has no check of the locked flag, where the two
    other write paths have one: on a page whose only node is locked, the
    call overwrites the characters of the node and reports one node
    updated, without any error. *)
Lemma updateMultipleNodes_overwrites_locked :
  locked lockedTitle = true
  ∧ updateMultipleNodes allFontsLoad ["node1"] "New Text" (canvasOf [lockedTitle]) =
    ({| upd_success := true; upd_count := 1; upd_errors := None; upd_error := None |},
     {| currentPage := Some [textNode "node1" "jams_title" "New Text" true
                               (Font (Arial "Regular"))];
        loadFontCalls := [Arial "Regular"] |}).
Proof. split; reflexivity. Qed.

(** The two other write paths on the same canvas: the node keeps its
    characters, and is recorded as skipped or as an error. *)
Example applyTranslations_locked_example :
  applyTranslations exampleRegExp allFontsLoad
    [{| key := "jams_title"; value := "New Text" |}] jamsConfig (canvasOf [lockedTitle]) =
  (Throw (Error "All nodes skipped: jams_title: Locked"), canvasOf [lockedTitle]).
Proof. reflexivity. Qed.

Example applyRecordToNodes_locked_example :
  applyRecordToNodes allFontsLoad exampleObjectPrototype
    [{| mapping_field := "title"; mapping_node := "node1" |}]
    {[ "title" := Some "New Text" ]} (canvasOf [lockedTitle]) =
  (["Node is locked: jams_title"], canvasOf [lockedTitle]).
Proof. reflexivity. Qed.

(** ** applyTranslations run twice *)

Section Idempotence.

Variable RegExp : string -> option (string -> bool).
Variable fontFailure : FontName -> option string.

Lemma sameTally_refl (a : ApplyState) : sameTally a a.
Proof. by repeat split. Qed.

Lemma sameTally_addState (a a' b b' : ApplyState) :
  sameTally a a' -> sameTally b b' -> sameTally (addState a b) (addState a' b').
Proof.
  intros (Hc & He & Hs) (Hc' & He' & Hs'). unfold sameTally, addState. simpl.
  by rewrite Hc, He, Hs, Hc', He', Hs'.
Qed.

(** A font that the font block loaded for a node is the font the node
    has after its characters were written, and loads again. *)
Lemma loadNodeFonts_again (node : SceneNode) (text : string) (u : unit)
    (calls : list FontName) :
  wellStyled node ->
  loadNodeFonts fontFailure node [] = (Return u, calls) ->
  exists f, fontName (setCharacters node text) = Font f ∧ fontFailure f = None.
Proof.
  unfold wellStyled, loadNodeFonts, setCharacters. simpl.
  destruct (fontName node) as [f|ranges] eqn:Hfont.
  - intros _ Hload. exists f. split; [done|].
    unfold loadFontAsync in Hload. by destruct (fontFailure f).
  - intros [Hne Hlen] Hload. destruct ranges as [|f0 rs]; [done|].
    exists f0. split; [done|].
    rewrite <- Hlen in Hload. simpl in Hload.
    unfold bind, lift, getRangeFontName in Hload. rewrite Hfont in Hload.
    simpl in Hload. by destruct (fontFailure f0).
Qed.

(** The iteration run again on the node it left: the node does not
    change, and the loop variables receive what they received the first
    time. *)
Lemma applyToNode_twice (tm : gmap string string) (node : SceneNode) :
  wellStyled node ->
  let first := applyToNode fontFailure tm node noCalls in
  let second := applyToNode fontFailure tm (fst first) noCalls in
  fst second = fst first ∧ sameTally (snd second) (snd first).
Proof.
  intros Hwf. simpl.
  destruct (applyToNode fontFailure tm node noCalls) as [node' d] eqn:Hfirst. simpl.
  unfold applyToNode in Hfirst.
  destruct (locked node) eqn:Hlocked.
  { injection Hfirst as <- <-. rewrite applyToNode_locked by done.
    split; [done|apply sameTally_refl]. }
  destruct (tm !! name node) as [translation|] eqn:Htm.
  2:{ injection Hfirst as <- <-. unfold applyToNode. rewrite Hlocked, Htm.
      split; [done|apply sameTally_refl]. }
  destruct (truthy translation) eqn:Htruthy.
  2:{ injection Hfirst as <- <-. unfold applyToNode. rewrite Hlocked, Htm, Htruthy.
      split; [done|apply sameTally_refl]. }
  destruct (hasMissingFont node) eqn:Hmissing.
  { injection Hfirst as <- <-. unfold applyToNode.
    rewrite Hlocked, Htm, Htruthy, Hmissing. split; [done|apply sameTally_refl]. }
  simpl in Hfirst.
  destruct (loadNodeFonts fontFailure node []) as [[u|e] calls] eqn:Hload.
  - injection Hfirst as <- <-.
    destruct (loadNodeFonts_again node translation u calls Hwf Hload) as (f & Hfont & Hf).
    unfold applyToNode. simpl. rewrite Hlocked, Htm, Htruthy, Hmissing.
    unfold loadNodeFonts. rewrite Hfont. unfold loadFontAsync. rewrite Hf. simpl.
    split; [|by repeat split].
    unfold setCharacters. simpl. unfold setCharacters in Hfont. simpl in Hfont.
    by rewrite Hfont.
  - injection Hfirst as <- <-. unfold applyToNode.
    rewrite Hlocked, Htm, Htruthy, Hmissing. simpl. rewrite Hload.
    split; [done|apply sameTally_refl].
Qed.

(** An iteration does not change whether the pattern selects the node. *)
Lemma applyToNode_matching (tm : gmap string string) (pattern : string -> bool)
    (node : SceneNode) (st : ApplyState) :
  isTextNodeMatching pattern (fst (applyToNode fontFailure tm node st)) =
  isTextNodeMatching pattern node.
Proof.
  destruct (applyToNode_identity fontFailure tm node st) as (_ & Htype & Hname & _).
  unfold isTextNodeMatching. simpl in *. by rewrite Htype, Hname.
Qed.

Lemma applyLoop_matching (tm : gmap string string) (pattern : string -> bool)
    (nodes : list SceneNode) (st : ApplyState) :
  length (filter (fun n => isTextNodeMatching pattern n = true)
            (fst (applyLoop fontFailure tm pattern nodes st))) =
  length (filter (fun n => isTextNodeMatching pattern n = true) nodes).
Proof.
  revert st. induction nodes as [|node rest IH]; intros st; simpl; [done|].
  destruct (isTextNodeMatching pattern node) eqn:Hmatch.
  - pose proof (applyToNode_matching tm pattern node st) as Hsame.
    destruct (applyToNode fontFailure tm node st) as [node' st']. simpl in Hsame.
    specialize (IH st'). destruct (applyLoop fontFailure tm pattern rest st') as [rest' st''].
    simpl in *. rewrite !filter_cons_True by congruence. simpl. by rewrite IH.
  - specialize (IH st). destruct (applyLoop fontFailure tm pattern rest st) as [rest' st'].
    simpl in *. rewrite !filter_cons_False by congruence. done.
Qed.

Lemma applyLoop_twice (tm : gmap string string) (pattern : string -> bool)
    (nodes : list SceneNode) :
  Forall wellStyled nodes ->
  let first := applyLoop fontFailure tm pattern nodes noCalls in
  let second := applyLoop fontFailure tm pattern (fst first) noCalls in
  fst second = fst first ∧ sameTally (snd second) (snd first).
Proof.
  induction 1 as [|node rest Hwf _ IH]; simpl; [split; [done|apply sameTally_refl]|].
  destruct (isTextNodeMatching pattern node) eqn:Hmatch.
  - pose proof (applyToNode_twice tm node Hwf) as [Hnode Htally].
    pose proof (applyToNode_matching tm pattern node noCalls) as Hsame.
    destruct (applyToNode fontFailure tm node noCalls) as [node' d]. simpl in *.
    rewrite (applyLoop_delta fontFailure tm pattern rest d).
    destruct (applyLoop fontFailure tm pattern rest noCalls) as [rest' d']. simpl in *.
    rewrite Hsame, Hmatch.
    destruct (applyToNode fontFailure tm node' noCalls) as [node'' e]. simpl in *.
    rewrite (applyLoop_delta fontFailure tm pattern rest' e).
    destruct IH as [Hrest Htally'].
    destruct (applyLoop fontFailure tm pattern rest' noCalls) as [rest'' e']. simpl in *.
    split; [congruence|]. by apply sameTally_addState.
  - destruct (applyLoop fontFailure tm pattern rest noCalls) as [rest' d']. simpl in *.
    rewrite Hmatch.
    destruct IH as [Hrest Htally'].
    destruct (applyLoop fontFailure tm pattern rest' noCalls) as [rest'' e']. simpl in *.
    split; [congruence|done].
Qed.

Lemma noSuccessError_sameTally (a b : ApplyState) :
  sameTally a b -> noSuccessError a = noSuccessError b.
Proof. intros (_ & He & Hs). unfold noSuccessError. by rewrite He, Hs. Qed.

(** C9: applyTranslations run twice in succession on a canvas whose mixed
    nodes have a font for each of their characters: the second run throws
    or returns what the first did, with the same count, and leaves every
    node of the page with the characters the first run left. *)
Theorem applyTranslations_idempotent (translations : list Translation)
    (config : ContentfulConfig) (figma : Figma) :
  (forall nodes, currentPage figma = Some nodes -> Forall wellStyled nodes) ->
  let first := applyTranslations RegExp fontFailure translations config figma in
  let second := applyTranslations RegExp fontFailure translations config (snd first) in
  fst second = fst first
  ∧ currentPage (snd second) = currentPage (snd first)
  ∧ map characters <$> currentPage (snd second)
    = map characters <$> currentPage (snd first).
Proof.
  intros Hwf.
  destruct (applyTranslations RegExp fontFailure translations config figma)
    as [result figma1] eqn:Hfirst.
  simpl.
  cut (fst (applyTranslations RegExp fontFailure translations config figma1) = result
       ∧ currentPage (snd (applyTranslations RegExp fontFailure translations config figma1))
         = currentPage figma1).
  { intros [-> ->]. done. }
  unfold applyTranslations in Hfirst.
  destruct (newRegExp RegExp (NODE_NAME_PATTERN config)) as [pattern|e] eqn:Hpattern.
  2:{ injection Hfirst as <- <-. unfold applyTranslations. by rewrite Hpattern. }
  destruct (currentPage figma) as [nodes|] eqn:Hpage.
  2:{ injection Hfirst as <- <-. unfold applyTranslations. by rewrite Hpattern, Hpage. }
  rewrite textNodes_filter in Hfirst.
  destruct (decide (length (filter _ nodes) = 0)) as [Hnone|Hsome].
  { injection Hfirst as <- <-. unfold applyTranslations.
    rewrite Hpattern, Hpage, textNodes_filter. by rewrite decide_True by done. }
  specialize (Hwf nodes eq_refl).
  pose proof (applyLoop_twice (buildTranslationMap translations) pattern nodes Hwf)
    as [Hnodes Htally].
  pose proof (applyLoop_matching (buildTranslationMap translations) pattern nodes noCalls)
    as Hmatching.
  rewrite (applyLoop_delta fontFailure _ pattern nodes (initialState figma)) in Hfirst.
  destruct (applyLoop fontFailure (buildTranslationMap translations) pattern nodes noCalls)
    as [nodes' d].
  cbn [fst snd] in Hnodes, Htally, Hmatching, Hfirst.
  assert (exists st2,
            applyLoop fontFailure (buildTranslationMap translations) pattern nodes'
              (initialState figma1) = (nodes', st2)
            ∧ sameTally st2 (addState (initialState figma) d)) as (st2 & Hsecond & Hsame).
  { eexists. rewrite applyLoop_delta, Hnodes. split; [reflexivity|].
    apply sameTally_addState; [by repeat split|done]. }
  assert (currentPage figma1 = Some nodes') as Hpage1.
  { by destruct (decide (count (addState (initialState figma) d) = 0));
      injection Hfirst as <- <-. }
  unfold applyTranslations. rewrite Hpattern, Hpage1, textNodes_filter.
  rewrite decide_False by (by rewrite Hmatching).
  rewrite Hsecond.
  destruct Hsame as (Hcount & Herrors & Hskipped).
  destruct (decide (count (addState (initialState figma) d) = 0)) as [Hzero|Hpos];
    injection Hfirst as <- <-.
  - rewrite decide_True by congruence. simpl. split; [|done].
    f_equal. by apply noSuccessError_sameTally.
  - rewrite decide_False by congruence. simpl. split; [|done]. by f_equal.
Qed.

End Idempotence.

Lemma applyTranslations_idempotent_witness :
  let translations := [{| key := "jams_hello"; value := "New Hello" |}] in
  let figma := canvasOf [labelAAB; lockedTitle;
                         textNode "3" "jams_world" "Old" false (Font (Arial "Regular"))] in
  let first := applyTranslations exampleRegExp allFontsLoad translations jamsConfig figma in
  let second := applyTranslations exampleRegExp allFontsLoad translations jamsConfig
                  (snd first) in
  fst first = Return 1
  ∧ fst second = fst first
  ∧ currentPage (snd second) = currentPage (snd first)
  ∧ map characters <$> currentPage (snd second)
    = map characters <$> currentPage (snd first).
Proof.
  split; [reflexivity|].
  apply (applyTranslations_idempotent exampleRegExp allFontsLoad).
  intros nodes [= <-]. repeat constructor; discriminate.
Defined.

(** The scenario of the design document: two nodes that match, one
    translation. *)
Example translate_apply_scenario :
  applyTranslations exampleRegExp allFontsLoad
    [{| key := "jams_hello"; value := "New Hello" |}] jamsConfig
    (canvasOf [textNode "1" "jams_hello" "Old" false (Font (Arial "Regular"));
               textNode "2" "jams_world" "Old" false (Font (Arial "Regular"))]) =
  (Return 1,
   {| currentPage := Some [textNode "1" "jams_hello" "New Hello" false (Font (Arial "Regular"));
                           textNode "2" "jams_world" "Old" false (Font (Arial "Regular"))];
      loadFontCalls := [Arial "Regular"] |}).
Proof. reflexivity. Qed.

(** ** saveItemToContentful: the update of an existing entry *)

Lemma string_app_assoc (a b c : string) : (a +:+ b) +:+ c = a +:+ (b +:+ c).
Proof.
  induction a as [|x a IH]; [done|].
  change (String x ((a +:+ b) +:+ c) = String x (a +:+ (b +:+ c))). by rewrite IH.
Qed.

Section SaveItem.

Variable encodeURIComponent : string -> string.
Variable transport : Transport.

Lemma published_url_differs (u : string) : u ≠ u +:+ "/published".
Proof.
  induction u as [|c u IH]; simpl; [discriminate|].
  intros [= Heq]. by apply IH.
Qed.

(** C2: a save of an existing item (isUpdate set, an entry id supplied)
    first requests the entry (a GET of its URL); when that answers with
    the entry at version v, the next request is the update: a PUT of the
    same URL whose X-Contentful-Version header is v and whose body holds
    the key and the value of the item; when the update is refused (a
    status that is not ok, 409 for one) the result has success false and
    operation "update", with the status and the version, and the update
    is the last request made; so it is when the update fails in the
    network: a timeout or a rejection with an Error give operation
    "update", a rejection with a value that is no Error gives "Unknown
    error occurred" without an operation; an accepted update is followed
    by the PUT of <entry>/published at the version the update answered
    with, and a request to that URL is made only after an update that
    answered ok. *)
Theorem saveItemToContentful_update_protocol (config : ContentfulConfig)
    (item : ContentfulSaveItem) (id : string) (trace0 : list Request) :
  isUpdate item = true ->
  entryId item = Some id ->
  truthy id = true ->
  let target := "https://api.contentful.com/spaces/" +:+ encodeURIComponent (SPACE_ID config)
                  +:+ "/environments/" +:+ encodeURIComponent (ENVIRONMENT config)
                  +:+ "/entries/" +:+ id in
  let authorization := ("Authorization", "Bearer " +:+ CMA_TOKEN config) in
  let fetchReq :=
    {| method := GET; url := target; headers := [authorization]; body := None |} in
  let updateReq (v : Z) :=
    {| method := PUT; url := target;
       headers := [authorization;
                   ("Content-Type", "application/vnd.contentful.management.v1+json");
                   ("X-Contentful-Version", pretty v)];
       body := Some (if decide (KEY_FIELD config = VALUE_FIELD config)
                     then [(VALUE_FIELD config, Localized [("en-US", save_value item)])]
                     else [(KEY_FIELD config, Localized [("en-US", save_key item)]);
                           (VALUE_FIELD config, Localized [("en-US", save_value item)])]) |} in
  let publishReq (v : Z) :=
    {| method := PUT; url := target +:+ "/published";
       headers := [authorization; ("X-Contentful-Version", pretty v)]; body := None |} in
  let failed (msg : string) (op exn : option string) :=
    {| success := false; error := Some msg;
       errorDetails := Some {| ed_status := None; ed_response := None; operation := op;
                               ed_entryId := None; ed_version := None; ed_key := None;
                               exception := exn |} |} in
  let run := saveItemToContentful encodeURIComponent transport config item trace0 in
  (exists rest, snd run = trace0 ++ fetchReq :: rest)
  ∧ (forall getResponse data s v,
       transport trace0 fetchReq = Resolved getResponse ->
       ok getResponse = true ->
       json getResponse = Some data ->
       entry_sys data = Some s ->
       version s = Some v ->
       (exists rest, snd run = trace0 ++ fetchReq :: updateReq v :: rest)
       ∧ (forall updateResponse,
            transport (trace0 ++ [fetchReq]) (updateReq v) = Resolved updateResponse ->
            ok updateResponse = false ->
            run = (Return {| success := false;
                             error := Some ("Update failed (" +:+ pretty (status updateResponse)
                                              +:+ ")");
                             errorDetails :=
                               Some {| ed_status := Some (status updateResponse);
                                       ed_response := Some (text updateResponse);
                                       operation := Some "update";
                                       ed_entryId := Some id;
                                       ed_version := Some v;
                                       ed_key := None; exception := None |} |},
                   trace0 ++ [fetchReq; updateReq v]))
       ∧ (transport (trace0 ++ [fetchReq]) (updateReq v) = Pending ->
          run = (Return (failed "Request timeout - please check your network connection"
                           (Some "update") (Some "Error")),
                 trace0 ++ [fetchReq; updateReq v]))
       ∧ (forall ename message,
            transport (trace0 ++ [fetchReq]) (updateReq v) = Rejected (mkError ename message) ->
            run = (Return (failed message (Some "update") (Some ename)),
                   trace0 ++ [fetchReq; updateReq v]))
       ∧ (forall thrown,
            transport (trace0 ++ [fetchReq]) (updateReq v) = Rejected (NotAnError thrown) ->
            run = (Return (failed "Unknown error occurred" None (Some thrown)),
                   trace0 ++ [fetchReq; updateReq v]))
       ∧ (forall updateResponse updated s' v',
            transport (trace0 ++ [fetchReq]) (updateReq v) = Resolved updateResponse ->
            ok updateResponse = true ->
            json updateResponse = Some updated ->
            entry_sys updated = Some s' ->
            version s' = Some v' ->
            snd run = trace0 ++ [fetchReq; updateReq v; publishReq v']))
  ∧ (forall req,
       req ∈ drop (length trace0) (snd run) ->
       url req = target +:+ "/published" ->
       exists getResponse data s v updateResponse,
         transport trace0 fetchReq = Resolved getResponse
         ∧ json getResponse = Some data ∧ entry_sys data = Some s ∧ version s = Some v
         ∧ transport (trace0 ++ [fetchReq]) (updateReq v) = Resolved updateResponse
         ∧ ok updateResponse = true).
Proof.
  intros HisUpdate Hentry Hid target authorization fetchReq updateReq publishReq failed run.
  assert (entryUrl encodeURIComponent config id = target) as Htarget.
  { unfold entryUrl, environmentUrl. subst target. by rewrite !string_app_assoc. }
  assert (getRequest target config = fetchReq) as Hfetch by done.
  assert (forall v, updateRequest config item target (pretty v) = updateReq v) as Hupdate.
  { intros v. subst updateReq. unfold updateRequest, entryFields. simpl.
    by destruct (decide (KEY_FIELD config = VALUE_FIELD config)). }
  assert (forall v, publishRequest config (target +:+ "/published") (pretty v) = publishReq v)
    as Hpublish by done.
  assert (run = try_catch (updateEntry encodeURIComponent transport config item id)
                  (fun error =>
                     match error with
                     | mkError ename message =>
                         ret (failed message (Some "update") (Some ename))
                     | NotAnError thrown =>
                         ret (failed "Unknown error occurred" None (Some thrown))
                     end) trace0) as Hrun.
  { subst run. unfold saveItemToContentful, updateTarget.
    by rewrite HisUpdate, Hentry, Hid. }
  clearbody run fetchReq updateReq publishReq. subst run.
  unfold try_catch, updateEntry, bind, lift, ret, fetchWithTimeout,
    responseJson, sysOf, versionToString, stageFailure, saved.
  rewrite Htarget, Hfetch.
  split; [|split].
  - repeat (case_match; simplify_eq/=); rewrite <- ?app_assoc; simpl; eauto.
  - intros getResponse data s v Hget Hok Hjson Hsys Hversion.
    rewrite Hget, Hok, Hjson, Hsys. simpl. rewrite Hversion. simpl. rewrite Hupdate.
    split; [|split; [|split; [|split; [|split]]]].
    + repeat (case_match; simplify_eq/=); rewrite <- ?app_assoc; simpl; eauto.
    + intros updateResponse Hanswer Hrefused. rewrite Hanswer, Hrefused. simpl.
      by rewrite <- app_assoc.
    + intros Hanswer. rewrite Hanswer. simpl. by rewrite <- app_assoc.
    + intros ename message Hanswer. rewrite Hanswer. simpl. by rewrite <- app_assoc.
    + intros thrown Hanswer. rewrite Hanswer. simpl. by rewrite <- app_assoc.
    + intros updateResponse updated s' v' Hanswer Haccepted Hupdated Hsys' Hversion'.
      rewrite Hanswer, Haccepted, Hupdated, Hsys'. simpl. rewrite Hversion'. simpl.
      rewrite Hpublish.
      repeat (case_match; simplify_eq/=); by rewrite <- !app_assoc.
  - intros req Hin Hurl.
    pose proof (published_url_differs target) as Hdiffers.
    assert (url fetchReq = target) as Hfetched by (by rewrite <- Hfetch).
    assert (forall v, url (updateReq v) = target) as Hupdated
      by (intros v; by rewrite <- Hupdate).
    repeat (case_match; simplify_eq/=);
      rewrite <- ?app_assoc, drop_app_length in Hin; simpl in Hin;
      rewrite ?Hupdate in *;
      repeat (apply elem_of_cons in Hin as [->|Hin]);
      try (by apply elem_of_nil in Hin);
      try (by rewrite ?Hfetched, ?Hupdated in Hurl; destruct Hdiffers);
      rewrite ?negb_false_iff in *;
      (do 5 eexists; repeat split; eauto).
Qed.

End SaveItem.

Lemma saveItemToContentful_update_protocol_witness :
  let transport := scripted [respond 200 "OK" (Some (entryAt "E1" 5));
                             respond 409 "Conflict" None] in
  let target := "https://api.contentful.com/spaces/space123/environments/master/entries/E1" in
  let authorization := ("Authorization", "Bearer token123") in
  exists result,
    saveItemToContentful noEscape transport jamsConfig updateOfE1 [] =
      (Return result,
       [{| method := GET; url := target; headers := [authorization]; body := None |};
        {| method := PUT; url := target;
           headers := [authorization;
                       ("Content-Type", "application/vnd.contentful.management.v1+json");
                       ("X-Contentful-Version", "5")];
           body := Some [("key", Localized [("en-US", "jams_title")]);
                         ("value", Localized [("en-US", "Updated Value")])] |}])
    ∧ success result = false
    ∧ operation <$> errorDetails result = Some (Some "update").
Proof.
  intros transport target authorization.
  destruct (saveItemToContentful_update_protocol noEscape transport jamsConfig updateOfE1
              "E1" [] eq_refl eq_refl eq_refl) as (_ & Hfetched & _).
  destruct (Hfetched _ (entryAt "E1" 5) _ 5%Z eq_refl eq_refl eq_refl eq_refl eq_refl)
    as (_ & Hrefused & _).
  eexists. split; [apply Hrefused; reflexivity|]. split; reflexivity.
Defined.

(** ** The status of a refused request *)

Section StatusMapping.

Variable encodeURIComponent : string -> string.
Variable transport : Transport.

(** C7 (amended): on a response that is not ok, fetchLocales,
    fetchTranslations, fetchContentTypes and fetchRecords throw "Invalid API
    credentials" for 401 and 403, their not-found message for 404 ("Space
    or environment not found" for the locales and the content types,
    "Content type not found" for the translations and the records) and a
    fixed message of the operation, without the status code, for any other
    status; fetchAllContentfulItems maps no status: it throws
    "HTTP <status>: <statusText>" for every status. *)
Theorem status_mapping_per_call (config : ContentfulConfig) (locale contentType : string)
    (trace0 : list Request) (response : Response) :
  (forall req, transport trace0 req = Resolved response) ->
  ok response = false ->
  trim locale ≠ "" ->
  let mapped (notFound failed : string) : string :=
    if bool_decide (status response = 401 ∨ status response = 403)%Z
    then "Invalid API credentials"
    else if bool_decide (status response = 404)%Z then notFound else failed in
  fst (fetchLocales encodeURIComponent transport config trace0) =
    Throw (Error ("Failed to load locales: "
                    +:+ mapped "Space or environment not found" "Failed to fetch locales"))
  ∧ fst (fetchTranslations encodeURIComponent transport config locale trace0) =
    Throw (Error ("Failed to load translations: "
                    +:+ mapped "Content type not found" "Failed to fetch translations"))
  ∧ fst (fetchContentTypes encodeURIComponent transport config trace0) =
    Throw (Error ("Failed to load content types: "
                    +:+ mapped "Space or environment not found"
                          "Failed to fetch content types"))
  ∧ fst (fetchRecords encodeURIComponent transport config contentType trace0) =
    Throw (Error ("Failed to load records: "
                    +:+ mapped "Content type not found" "Failed to fetch records"))
  ∧ fst (fetchAllContentfulItems encodeURIComponent transport config trace0) =
    Throw (Error ("Failed to fetch Contentful items: HTTP " +:+ pretty (status response)
                    +:+ ": " +:+ statusText response)).
Proof.
  intros Hresponse Hrefused Hlocale mapped. subst mapped.
  unfold fetchLocales, fetchTranslations, fetchContentTypes, fetchRecords,
    fetchAllContentfulItems, fetchAllPages, rethrow, try_catch, bind, checkStatus,
    fetchWithTimeout, throw.
  rewrite (bool_decide_eq_false_2 _ Hlocale).
  repeat split; rewrite Hresponse, Hrefused; simpl;
    repeat case_bool_decide; reflexivity.
Qed.

End StatusMapping.

Lemma status_mapping_per_call_witness :
  let transport := scripted [respond 404 "Not Found" None] in
  fst (fetchLocales noEscape transport jamsConfig []) =
    Throw (Error "Failed to load locales: Space or environment not found")
  ∧ fst (fetchTranslations noEscape transport jamsConfig "en-US" []) =
    Throw (Error "Failed to load translations: Content type not found")
  ∧ fst (fetchContentTypes noEscape transport jamsConfig []) =
    Throw (Error "Failed to load content types: Space or environment not found")
  ∧ fst (fetchRecords noEscape transport jamsConfig "translation" []) =
    Throw (Error "Failed to load records: Content type not found")
  ∧ fst (fetchAllContentfulItems noEscape transport jamsConfig []) =
    Throw (Error "Failed to fetch Contentful items: HTTP 404: Not Found").
Proof.
  apply (status_mapping_per_call noEscape (scripted [respond 404 "Not Found" None])
           jamsConfig "en-US" "translation" []
           {| ok := false; status := 404; statusText := "Not Found"; text := "";
              json := None |}).
  - reflexivity.
  - reflexivity.
  - vm_compute. discriminate.
Defined.

(** C7, as stated, fails: a 401 answered to fetchAllContentfulItems is
    reported as "HTTP 401: Unauthorized", not as invalid credentials, and a
    500 answered to fetchLocales is reported without its status code. *)
Lemma status_mapping_not_uniform :
  fst (fetchAllContentfulItems noEscape (scripted [respond 401 "Unauthorized" None])
         jamsConfig []) =
    Throw (Error "Failed to fetch Contentful items: HTTP 401: Unauthorized")
  ∧ fst (fetchLocales noEscape (scripted [respond 401 "Unauthorized" None]) jamsConfig []) =
    Throw (Error "Failed to load locales: Invalid API credentials")
  ∧ fst (fetchLocales noEscape (scripted [respond 500 "Internal Server Error" None])
           jamsConfig []) =
    Throw (Error "Failed to load locales: Failed to fetch locales").
Proof. repeat split; reflexivity. Qed.

(** ** fetchAllContentfulItems: the merge of the pages *)

Section MergePages.

Variable config : ContentfulConfig.

Lemma processItem_store (acc : gmap string ItemRef) (item : Item) :
  is_Some (sys item) ->
  processItem config acc item = Return (store config acc item).
Proof.
  intros [s Hs]. unfold processItem, store, contribution. rewrite Hs.
  destruct (archivedVersion s); [done|].
  destruct (unwrapLocale (member (KEY_FIELD config) _)) as [k|],
           (unwrapLocale (member (VALUE_FIELD config) _)) as [v|]; simpl;
    try done; try (by rewrite andb_false_r).
  destruct (truthy k && truthy v); [|done]. simpl. unfold setProperty.
  destruct (decide (k = "__proto__")) as [->|Hk].
  - by rewrite bool_decide_eq_false_2 by (by intros Hne; apply Hne).
  - by rewrite bool_decide_eq_true_2.
Qed.

(** No item is stored under ["__proto__"]. *)
Lemma contribution_not_proto (item : Item) (k : string) (r : ItemRef) :
  contribution config item = Some (k, r) -> k ≠ "__proto__".
Proof.
  unfold contribution. destruct (sys item) as [s|]; [|done].
  destruct (archivedVersion s); [done|].
  destruct (unwrapLocale (member (KEY_FIELD config) _)) as [k'|]; [|done].
  destruct (unwrapLocale (member (VALUE_FIELD config) _)) as [v'|]; [|done].
  destruct (truthy k' && truthy v'); [|done]. simpl.
  case_bool_decide; [|done]. by intros [= <- <-].
Qed.

Lemma processItem_archived (acc : gmap string ItemRef) (item : Item) :
  archived item -> processItem config acc item = Return acc.
Proof.
  intros (s & Hs & [v Hv]). unfold processItem. by rewrite Hs, Hv.
Qed.

(** The loop returns exactly when every item has a [sys], and then it has
    stored the items in order. *)
Lemma processItems_Return (acc : gmap string ItemRef) (l : list Item) :
  Forall (fun item => is_Some (sys item)) l ->
  processItems config acc l = Return (foldl (store config) acc l).
Proof.
  intros Hsys. revert acc. induction Hsys as [|item rest Hitem _ IH]; intros acc; simpl.
  - done.
  - rewrite processItem_store by done. apply IH.
Qed.

Lemma processItems_inv (acc m : gmap string ItemRef) (l : list Item) :
  processItems config acc l = Return m ->
  Forall (fun item => is_Some (sys item)) l ∧ m = foldl (store config) acc l.
Proof.
  revert acc. induction l as [|item rest IH]; intros acc; simpl.
  - intros [= <-]. by split.
  - destruct (sys item) as [s|] eqn:Hs.
    + rewrite processItem_store by (by exists s).
      intros Hrest. destruct (IH _ Hrest) as [Hsys ->].
      split; [|done]. constructor; [by exists s|done].
    + unfold processItem. by rewrite Hs.
Qed.

(** Items that carry the archived marker can be taken out of the pages
    without any change to the map. *)
Lemma processItems_without_archived (acc : gmap string ItemRef) (l : list Item) :
  Forall (fun item => is_Some (sys item)) l ->
  processItems config acc (filter (fun item => ¬ archived item) l) =
  processItems config acc l.
Proof.
  intros Hsys. revert acc. induction Hsys as [|item rest Hitem _ IH]; intros acc; [done|].
  destruct (decide (archived item)) as [Harchived|Hlive].
  - rewrite filter_cons_False by tauto. simpl.
    rewrite processItem_archived by done. apply IH.
  - rewrite filter_cons_True by done. simpl.
    rewrite processItem_store by done. apply IH.
Qed.

(** Every binding of the map was stored by an item, or was there. *)
Lemma store_lookup_inv (acc : gmap string ItemRef) (l : list Item) (k : string) (r : ItemRef) :
  foldl (store config) acc l !! k = Some r ->
  (exists item, item ∈ l ∧ contribution config item = Some (k, r)) ∨ acc !! k = Some r.
Proof.
  revert acc. induction l as [|item rest IH]; intros acc; simpl; [by right|].
  intros Hk. destruct (IH _ Hk) as [(it & Hin & Hit)|Hacc].
  - left. exists it. split; [by right|done].
  - unfold store in Hacc.
    destruct (contribution config item) as [[k' r']|] eqn:Hitem; [|by right].
    destruct (decide (k' = k)) as [->|Hne].
    + rewrite lookup_insert_eq in Hacc. injection Hacc as ->.
      left. exists item. split; [by left|done].
    + rewrite lookup_insert_ne in Hacc by done. by right.
Qed.

(** The key of an item that contributes is in the map. *)
Lemma store_lookup_is_Some (acc : gmap string ItemRef) (l : list Item) (k : string) :
  (k ∈ omap (keyOf config) l ∨ is_Some (acc !! k)) ->
  is_Some (foldl (store config) acc l !! k).
Proof.
  revert acc. induction l as [|item rest IH]; intros acc; simpl.
  - intros [Hin|Hacc]; [by apply elem_of_nil in Hin|done].
  - intros Hk. apply IH. unfold keyOf, store in *.
    destruct (contribution config item) as [[k' r']|]; simpl in *.
    + destruct (decide (k' = k)) as [->|Hne].
      * right. rewrite lookup_insert_eq. by eexists.
      * destruct Hk as [Hin|Hacc].
        -- apply elem_of_cons in Hin as [->|Hin]; [done|by left].
        -- right. by rewrite lookup_insert_ne.
    + done.
Qed.

(** Items with distinct keys make a map with one binding each. *)
Lemma store_size (acc : gmap string ItemRef) (l : list Item) :
  NoDup (omap (keyOf config) l) ->
  (forall k, k ∈ omap (keyOf config) l -> acc !! k = None) ->
  size (foldl (store config) acc l) = size acc + length (omap (keyOf config) l).
Proof.
  revert acc. induction l as [|item rest IH]; intros acc Hnodup Hfresh; simpl; [lia|].
  simpl in Hnodup, Hfresh.
  assert (keyOf config item = fst <$> contribution config item) as Hkey by done.
  assert (store config acc item = match contribution config item with
                                  | Some (k, r) => <[k := r]> acc
                                  | None => acc
                                  end) as Hstore by done.
  destruct (contribution config item) as [[k r]|]; simpl in Hkey;
    rewrite Hkey in Hnodup, Hfresh |- *; rewrite Hstore; simpl.
  - apply NoDup_cons in Hnodup as [Hnotin Hnodup].
    rewrite IH.
    + rewrite map_size_insert_None by (apply Hfresh; by left).
      rewrite Nat.add_succ_r. reflexivity.
    + done.
    + intros k' Hk'. rewrite lookup_insert_ne by (intros ->; done).
      apply Hfresh. by right.
  - by apply IH.
Qed.

(** A key that no item contributes keeps its binding. *)
Lemma store_lookup_fresh (acc : gmap string ItemRef) (l : list Item) (k : string) :
  k ∉ omap (keyOf config) l ->
  foldl (store config) acc l !! k = acc !! k.
Proof.
  revert acc. induction l as [|item rest IH]; intros acc Hfresh; simpl; [done|].
  simpl in Hfresh.
  assert (keyOf config item = fst <$> contribution config item) as Hkey by done.
  assert (store config acc item = match contribution config item with
                                  | Some (k, r) => <[k := r]> acc
                                  | None => acc
                                  end) as Hstore by done.
  destruct (contribution config item) as [[k' r']|]; simpl in Hkey;
    rewrite Hkey in Hfresh; simpl in Hfresh.
  - apply not_elem_of_cons in Hfresh as [Hne Hfresh].
    rewrite IH by done. rewrite Hstore. by rewrite lookup_insert_ne.
  - rewrite IH by done. by rewrite Hstore.
Qed.

(** When no two items contribute the same key, every item that
    contributes is in the map with its own value and id. *)
Lemma store_lookup_NoDup (acc : gmap string ItemRef) (l : list Item) (item : Item)
    (k : string) (r : ItemRef) :
  NoDup (omap (keyOf config) l) ->
  item ∈ l ->
  contribution config item = Some (k, r) ->
  foldl (store config) acc l !! k = Some r.
Proof.
  revert acc. induction l as [|it rest IH]; intros acc Hnodup Hin Hitem; simpl;
    [by apply elem_of_nil in Hin|].
  simpl in Hnodup.
  assert (keyOf config it = fst <$> contribution config it) as Hkey by done.
  assert (store config acc it = match contribution config it with
                                | Some (k, r) => <[k := r]> acc
                                | None => acc
                                end) as Hstore by done.
  apply elem_of_cons in Hin as [->|Hin].
  - rewrite Hitem in Hkey, Hstore. simpl in Hkey. rewrite Hkey in Hnodup.
    apply NoDup_cons in Hnodup as [Hfresh _].
    rewrite store_lookup_fresh by done. rewrite Hstore. apply lookup_insert_eq.
  - apply IH; [|done..].
    destruct (keyOf config it); [by apply NoDup_cons in Hnodup as [_ ?]|done].
Qed.


Lemma store_lookup_proto (acc : gmap string ItemRef) (l : list Item) :
  foldl (store config) acc l !! "__proto__" = acc !! "__proto__".
Proof.
  apply store_lookup_fresh. intros Hin.
  apply (list_elem_of_omap (keyOf config)) in Hin as (item & _ & Hkey).
  unfold keyOf in Hkey.
  destruct (contribution config item) as [[k r]|] eqn:Hitem; [|done].
  injection Hkey as ->. by apply contribution_not_proto in Hitem.
Qed.

End MergePages.

(** ** fetchAllContentfulItems: the requests *)

Section FetchAll.

Variable encodeURIComponent : string -> string.
Variable transport : Transport.

Local Abbreviation firstRequest config :=
  (getRequest (firstUrl encodeURIComponent config) config).
Local Abbreviation pageRequestOf config page :=
  (getRequest (pageUrl encodeURIComponent config page) config).

(** A page request never throws: it hands over what the network
    delivered, the empty page when the request or its parsing failed. *)
Lemma pageRequest_delivered (config : ContentfulConfig) (page : nat) (trace : list Request) :
  pageRequest encodeURIComponent transport config page trace =
  (Return (delivered (transport trace (pageRequestOf config page))),
   trace ++ [pageRequestOf config page]).
Proof.
  unfold pageRequest, try_catch, bind, fetchWithTimeout, lift, responseJson, ret, delivered.
  destruct (transport trace _) as [r|e|]; [|done..].
  by destruct (json r).
Qed.

Lemma allPageRequests_delivered (config : ContentfulConfig) (pages : list nat)
    (trace : list Request) :
  exists remainingData,
    allPageRequests encodeURIComponent transport config pages trace =
      (Return remainingData, trace ++ map (fun page => pageRequestOf config page) pages)
    ∧ Forall2 (fun page data =>
                 exists history, data = delivered (transport history (pageRequestOf config page)))
              pages remainingData.
Proof.
  revert trace. induction pages as [|page rest IH]; intros trace; simpl.
  - exists []. unfold ret. rewrite app_nil_r. by split.
  - unfold bind. rewrite pageRequest_delivered.
    destruct (IH (trace ++ [pageRequestOf config page])) as (others & -> & Hothers).
    eexists. unfold ret. rewrite <- app_assoc. split; [reflexivity|].
    constructor; [by eexists|done].
Qed.

(** The requests of the pages [start], [start + 1], ...: each page is
    asked after the pages before it, and delivers what the network
    answers then. *)
Lemma allPageRequests_run (config : ContentfulConfig) (start n : nat) (trace : list Request) :
  allPageRequests encodeURIComponent transport config (seq start n) trace =
  (Return (map (fun page =>
                  delivered (transport
                               (trace ++ map (fun p => pageRequestOf config p)
                                           (seq start (page - start)))
                               (pageRequestOf config page)))
             (seq start n)),
   trace ++ map (fun page => pageRequestOf config page) (seq start n)).
Proof.
  revert start trace. induction n as [|n IH]; intros start trace; simpl.
  - unfold ret. by rewrite app_nil_r.
  - unfold bind. rewrite pageRequest_delivered, IH. unfold ret.
    rewrite Nat.sub_diag. simpl. rewrite app_nil_r, <- app_assoc. simpl.
    f_equal. f_equal. f_equal.
    apply map_ext_in. intros page Hpage. apply in_seq in Hpage.
    replace (page - start) with (S (page - S start)) by lia.
    simpl. by rewrite <- app_assoc.
Qed.

(** The pages collected when the first request delivers. *)
Lemma fetchAllPages_delivered (config : ContentfulConfig) (trace0 : list Request)
    (firstResponse : Response) (firstData : Json) :
  transport trace0 (firstRequest config) = Resolved firstResponse ->
  ok firstResponse = true ->
  json firstResponse = Some firstData ->
  let declared := default 0%Z (total firstData) in
  let pages := if bool_decide (declared > limit)%Z
               then seq 1 (remainingPages declared) else [] in
  exists remainingData,
    fetchAllPages encodeURIComponent transport config trace0 =
      (Return (firstData :: remainingData),
       trace0 ++ firstRequest config :: map (fun page => pageRequestOf config page) pages)
    ∧ Forall2 (fun page data =>
                 exists history, data = delivered (transport history (pageRequestOf config page)))
              pages remainingData.
Proof.
  intros Hfirst Hok Hjson declared pages. subst declared pages.
  unfold fetchAllPages, bind, fetchWithTimeout, lift, responseJson.
  rewrite Hfirst, Hok, Hjson. simpl.
  destruct (bool_decide _).
  - destruct (allPageRequests_delivered config
                (seq 1 (remainingPages (default 0%Z (total firstData))))
                (trace0 ++ [firstRequest config])) as (others & -> & Hothers).
    exists others. unfold ret. rewrite <- app_assoc. by split.
  - exists []. unfold ret. split; [done|constructor].
Qed.

(** The same with the answer to each page request: page [p] is asked
    after the first request and the pages 1 to [p - 1]. *)
Lemma fetchAllPages_run (config : ContentfulConfig) (trace0 : list Request)
    (firstResponse : Response) (firstData : Json) :
  transport trace0 (firstRequest config) = Resolved firstResponse ->
  ok firstResponse = true ->
  json firstResponse = Some firstData ->
  let declared := default 0%Z (total firstData) in
  let n := if bool_decide (declared > limit)%Z then remainingPages declared else 0 in
  fetchAllPages encodeURIComponent transport config trace0 =
  (Return (firstData ::
           map (fun page =>
                  delivered (transport
                               (trace0 ++ firstRequest config
                                  :: map (fun p => pageRequestOf config p)
                                       (seq 1 (page - 1)))
                               (pageRequestOf config page)))
             (seq 1 n)),
   trace0 ++ firstRequest config :: map (fun page => pageRequestOf config page) (seq 1 n)).
Proof.
  intros Hfirst Hok Hjson declared n. subst declared n.
  unfold fetchAllPages, bind, fetchWithTimeout, lift, responseJson.
  rewrite Hfirst, Hok, Hjson. simpl.
  destruct (bool_decide _); [|done].
  rewrite allPageRequests_run. unfold ret. rewrite <- app_assoc. simpl.
  f_equal. f_equal. f_equal.
  apply map_ext. intros page. by rewrite <- app_assoc.
Qed.

(** [catch (error) { ... }] at the end of fetchAllContentfulItems, on
    what the try block threw. *)
Lemma fetchAllContentfulItems_merge (config : ContentfulConfig) (trace0 trace : list Request)
    (allPages : list Json) :
  fetchAllPages encodeURIComponent transport config trace0 = (Return allPages, trace) ->
  fetchAllContentfulItems encodeURIComponent transport config trace0 =
  (match mergePages config allPages with
   | Return m => Return m
   | Throw (mkError _ message) =>
       Throw (Error ("Failed to fetch Contentful items: " +:+ message))
   | Throw thrown => Throw thrown
   end, trace).
Proof.
  intros Hpages. unfold fetchAllContentfulItems, rethrow, try_catch, bind, lift, throw.
  rewrite Hpages. by destruct (mergePages config allPages) as [m|[ename message|thrown]].
Qed.

Lemma fetchAllContentfulItems_inv (config : ContentfulConfig) (trace0 trace : list Request)
    (m : gmap string ItemRef) :
  fetchAllContentfulItems encodeURIComponent transport config trace0 = (Return m, trace) ->
  exists allPages,
    fetchAllPages encodeURIComponent transport config trace0 = (Return allPages, trace)
    ∧ mergePages config allPages = Return m.
Proof.
  unfold fetchAllContentfulItems, rethrow, try_catch, bind, lift, throw.
  destruct (fetchAllPages _ _ _ _) as [[allPages|[ename message|thrown]] trace']; [|done..].
  destruct (mergePages config allPages) as [m'|[ename message|thrown]] eqn:Hmerge; [|done..].
  intros [= <- <-]. by exists allPages.
Qed.

(** The call, once its first page is delivered. *)
Lemma fetchAllContentfulItems_run (config : ContentfulConfig) (trace0 : list Request)
    (firstResponse : Response) (firstData : Json) :
  transport trace0 (firstRequest config) = Resolved firstResponse ->
  ok firstResponse = true ->
  json firstResponse = Some firstData ->
  let declared := default 0%Z (total firstData) in
  let n := if bool_decide (declared > limit)%Z then remainingPages declared else 0 in
  let allPages :=
    firstData ::
    map (fun page =>
           delivered (transport
                        (trace0 ++ firstRequest config
                           :: map (fun p => pageRequestOf config p) (seq 1 (page - 1)))
                        (pageRequestOf config page)))
      (seq 1 n) in
  fetchAllContentfulItems encodeURIComponent transport config trace0 =
  (match mergePages config allPages with
   | Return m => Return m
   | Throw (mkError _ message) =>
       Throw (Error ("Failed to fetch Contentful items: " +:+ message))
   | Throw thrown => Throw thrown
   end,
   trace0 ++ firstRequest config :: map (fun page => pageRequestOf config page) (seq 1 n)).
Proof.
  intros Hfirst Hok Hjson declared n allPages.
  apply fetchAllContentfulItems_merge.
  by apply fetchAllPages_run with (firstResponse := firstResponse).
Qed.

(** X25: in the map fetchAllContentfulItems returns, every binding was
    stored by a delivered entry without the archivedVersion marker; the
    entries that carry the marker could be taken out of the pages without
    any change to the map, whatever their key and fields; every delivered
    entry without the marker that has a usable key and value has its key
    in the map, unless the key is "__proto__", bound to its own value and
    id when no two such entries have the same key; "__proto__" is never a
    key of the map. *)
Theorem archived_entries_excluded (config : ContentfulConfig) (trace0 trace : list Request)
    (m : gmap string ItemRef) :
  fetchAllContentfulItems encodeURIComponent transport config trace0 = (Return m, trace) ->
  exists allPages,
    fetchAllPages encodeURIComponent transport config trace0 = (Return allPages, trace)
    ∧ let received := concat (map pageItems allPages) in
      (forall k r, m !! k = Some r ->
         exists item s,
           item ∈ received ∧ sys item = Some s ∧ archivedVersion s = None
           ∧ unwrapLocale (member (KEY_FIELD config) (default [] (fields item))) = Some k
           ∧ unwrapLocale (member (VALUE_FIELD config) (default [] (fields item)))
             = Some (ref_value r)
           ∧ ref_id r = sys_id s)
      ∧ processItems config ∅ (filter (fun item => ¬ archived item) received) = Return m
      ∧ (forall item s k v,
           item ∈ received -> sys item = Some s -> archivedVersion s = None ->
           unwrapLocale (member (KEY_FIELD config) (default [] (fields item))) = Some k ->
           unwrapLocale (member (VALUE_FIELD config) (default [] (fields item))) = Some v ->
           truthy k = true -> truthy v = true ->
           k ≠ "__proto__" ->
           is_Some (m !! k)
           ∧ (NoDup (omap (keyOf config) received) ->
              m !! k = Some {| ref_value := v; ref_id := sys_id s |}))
      ∧ m !! "__proto__" = None.
Proof.
  intros Hrun. destruct (fetchAllContentfulItems_inv _ _ _ _ Hrun) as (allPages & Hpages & Hmerge).
  exists allPages. split; [done|]. simpl.
  unfold mergePages in Hmerge.
  destruct (processItems_inv _ _ _ _ Hmerge) as [Hsys ->].
  split; [|split; [|split]].
  - intros k r Hk.
    destruct (store_lookup_inv config ∅ _ k r Hk) as [(item & Hin & Hitem)|Hempty];
      [|by rewrite lookup_empty in Hempty].
    unfold contribution in Hitem.
    destruct (sys item) as [s|] eqn:Hs; [|done].
    destruct (archivedVersion s) eqn:Harchived; [done|].
    destruct (unwrapLocale (member (KEY_FIELD config) _)) as [k'|] eqn:Hkey; [|done].
    destruct (unwrapLocale (member (VALUE_FIELD config) _)) as [v'|] eqn:Hvalue; [|done].
    destruct (truthy k' && truthy v' && bool_decide (k' ≠ "__proto__")); [|done].
    injection Hitem as <- <-. by exists item, s.
  - rewrite processItems_without_archived by done. by rewrite Hmerge.
  - intros item s k v Hin Hs Hlive Hkey Hvalue Hk Hv Hproto.
    assert (contribution config item =
            Some (k, {| ref_value := v; ref_id := sys_id s |})) as Hitem.
    { unfold contribution. rewrite Hs, Hlive, Hkey, Hvalue, Hk, Hv.
      by rewrite bool_decide_eq_true_2. }
    split.
    + apply store_lookup_is_Some. left.
      apply (list_elem_of_omap (keyOf config)). exists item. split; [done|].
      unfold keyOf. by rewrite Hitem.
    + intros Hnodup. by apply (store_lookup_NoDup config ∅ _ item).
  - by rewrite store_lookup_proto, lookup_empty.
Qed.

Lemma keyOf_has_sys (config : ContentfulConfig) (item : Item) :
  is_Some (keyOf config item) -> is_Some (sys item).
Proof.
  unfold keyOf, contribution. destruct (sys item); [by eexists|].
  by intros [k Hk].
Qed.

Lemma omap_all_Some {A B} (f : A -> option B) (l : list A) :
  Forall (fun x => is_Some (f x)) l -> length (omap f l) = length l.
Proof.
  induction 1 as [|x rest [y Hy] _ IH]; simpl; [done|].
  rewrite Hy. simpl. f_equal. exact IH.
Qed.

(** The map of a call whose delivered items all have a [sys]. *)
Lemma fetchAllContentfulItems_stored (config : ContentfulConfig) (trace0 : list Request)
    (firstResponse : Response) (firstData : Json) :
  transport trace0 (firstRequest config) = Resolved firstResponse ->
  ok firstResponse = true ->
  json firstResponse = Some firstData ->
  let declared := default 0%Z (total firstData) in
  let n := if bool_decide (declared > limit)%Z then remainingPages declared else 0 in
  let remaining :=
    map (fun page =>
           delivered (transport
                        (trace0 ++ firstRequest config
                           :: map (fun p => pageRequestOf config p) (seq 1 (page - 1)))
                        (pageRequestOf config page)))
      (seq 1 n) in
  let received := concat (map pageItems (firstData :: remaining)) in
  Forall (fun item => is_Some (sys item)) received ->
  fetchAllContentfulItems encodeURIComponent transport config trace0 =
  (Return (foldl (store config) ∅ received),
   trace0 ++ firstRequest config :: map (fun page => pageRequestOf config page) (seq 1 n)).
Proof.
  intros Hfirst Hok Hjson declared n remaining received Hsys.
  rewrite (fetchAllContentfulItems_run config trace0 firstResponse firstData Hfirst Hok Hjson).
  fold declared n remaining. unfold mergePages. fold received.
  by rewrite processItems_Return.
Qed.


(** A declared total of 1500: the first page and what the second
    request delivers. *)
Lemma two_pages_stored (config : ContentfulConfig) (trace0 : list Request)
    (firstResponse : Response) (firstData : Json) (l1 l2 : list Item) :
  transport trace0 (firstRequest config) = Resolved firstResponse ->
  ok firstResponse = true ->
  json firstResponse = Some firstData ->
  total firstData = Some 1500%Z ->
  items firstData = Some l1 ->
  pageItems (delivered (transport (trace0 ++ [firstRequest config]) (pageRequestOf config 1)))
    = l2 ->
  Forall (fun item => is_Some (sys item)) (l1 ++ l2) ->
  NoDup (omap (keyOf config) (l1 ++ l2)) ->
  exists m,
    fetchAllContentfulItems encodeURIComponent transport config trace0 =
      (Return m, trace0 ++ [firstRequest config; pageRequestOf config 1])
    ∧ size m = length (omap (keyOf config) (l1 ++ l2))
    ∧ (forall k, is_Some (m !! k) <-> k ∈ omap (keyOf config) (l1 ++ l2)).
Proof.
  intros Hfirst Hok Hjson Htotal Hitems Hsecond Hsys Hnodup.
  pose proof (fetchAllContentfulItems_stored config trace0 firstResponse firstData
                Hfirst Hok Hjson) as Hrun.
  cbv zeta in Hrun. rewrite Htotal in Hrun.
  change (default 0%Z (Some 1500%Z)) with 1500%Z in Hrun.
  change (if bool_decide (1500 > limit)%Z then remainingPages 1500 else 0) with 1 in Hrun.
  cbn [seq map concat Nat.sub] in Hrun.
  rewrite Hsecond, app_nil_r in Hrun. unfold pageItems in Hrun.
  rewrite Hitems in Hrun. cbn [default] in Hrun.
  rewrite Hrun by done.
  eexists. split; [reflexivity|]. split.
  - rewrite store_size; [|done|intros k _; apply lookup_empty].
    by rewrite map_size_empty.
  - intros k. split.
    + intros [r Hk].
      destruct (store_lookup_inv config ∅ _ k r Hk) as [(item & Hin & Hitem)|Hempty];
        [|by rewrite lookup_empty in Hempty].
      apply (list_elem_of_omap (keyOf config)). exists item. split; [done|].
      unfold keyOf. by rewrite Hitem.
    + intros Hk. apply store_lookup_is_Some. by left.
Qed.

End FetchAll.

(** The numbered entries of the examples have a key each, and no two of
    them the same. *)
Lemma numbered_keyOf (i : nat) :
  keyOf jamsConfig (numbered i) = Some ("key" +:+ pretty i).
Proof. reflexivity. Qed.

Lemma numbered_have_sys (l : list nat) :
  Forall (fun item => is_Some (sys item)) (map numbered l).
Proof.
  apply Forall_forall. intros item Hin.
  apply list_elem_of_fmap in Hin as (i & -> & _). by eexists.
Qed.

Lemma numbered_keys (l : list nat) :
  omap (keyOf jamsConfig) (map numbered l) = map (fun i => "key" +:+ pretty i) l.
Proof.
  induction l as [|i rest IH]; [done|].
  change (omap (keyOf jamsConfig) (map numbered (i :: rest)))
    with (match keyOf jamsConfig (numbered i) with
          | Some k => k :: omap (keyOf jamsConfig) (map numbered rest)
          | None => omap (keyOf jamsConfig) (map numbered rest)
          end).
  rewrite numbered_keyOf, IH. reflexivity.
Qed.

Lemma numbered_keys_NoDup (l : list nat) :
  NoDup l -> NoDup (omap (keyOf jamsConfig) (map numbered l)).
Proof.
  intros Hnodup. rewrite numbered_keys.
  assert (Inj (=) (=) (fun i : nat => "key" +:+ pretty i)) as Hinj.
  { intros i j Heq. apply (inj (String.app "key")) in Heq. by apply (inj pretty). }
  by apply (NoDup_fmap_2 (fun i : nat => "key" +:+ pretty i)).
Qed.

Lemma archived_entries_excluded_witness :
  let transport :=
    scripted [respond 200 "OK"
                (Some (pageOf (Some 2%Z)
                         [entry "entry1" "active" "Active Entry" None;
                          entry "entry2" "archived" "Archived Entry" (Some 1%Z)]))] in
  exists allPages,
    fetchAllPages noEscape transport jamsConfig [] =
      (Return allPages, [getRequest (firstUrl noEscape jamsConfig) jamsConfig])
    ∧ processItems jamsConfig ∅
        (filter (fun item => ¬ archived item) (concat (map pageItems allPages)))
      = Return {[ "active" := {| ref_value := "Active Entry"; ref_id := "entry1" |} ]}.
Proof.
  intros transport.
  destruct (archived_entries_excluded noEscape transport jamsConfig []
              [getRequest (firstUrl noEscape jamsConfig) jamsConfig]
              {[ "active" := {| ref_value := "Active Entry"; ref_id := "entry1" |} ]})
    as (allPages & Hpages & _ & Hwithout & _).
  - vm_compute. reflexivity.
  - exists allPages. split; [exact Hpages|exact Hwithout].
Defined.


(** C5: an entry without the archived marker whose key is "__proto__",
    with a usable value, does not appear in the map: the assignment
    [items[key] = ...] on the plain object replaces its prototype and
    stores no property, so the map holds the other entry alone. *)
Lemma entry_keyed_proto_is_dropped :
  let dropped := entry "entry2" "__proto__" "Prototype" None in
  let transport :=
    scripted [respond 200 "OK"
                (Some (pageOf (Some 2%Z) [entry "entry1" "jams_title" "Title" None; dropped]))] in
  ¬ archived dropped
  ∧ unwrapLocale (member (KEY_FIELD jamsConfig) (default [] (fields dropped)))
    = Some "__proto__"
  ∧ unwrapLocale (member (VALUE_FIELD jamsConfig) (default [] (fields dropped)))
    = Some "Prototype"
  ∧ fst (fetchAllContentfulItems noEscape transport jamsConfig []) =
    Return {[ "jams_title" := {| ref_value := "Title"; ref_id := "entry1" |} ]}.
Proof.
  intros dropped transport. split; [|split; [|split]]; try reflexivity.
  intros (s & [= <-] & [v Hv]). discriminate Hv.
Qed.

(** C6: a declared total of 1500, two pages of 1000 and 500 entries that
    are delivered, none archived, each with a usable key and value, no two
    keys the same, one of the keys being "__proto__": both pages are
    requested and merged, and the map has 1499 keys. *)
Lemma pagination_drops_proto_key :
  let l1 := map numbered (seq 0 1000) in
  let l2 := map numbered (seq 1000 499) ++ [entry "entry1499" "__proto__" "value1499" None] in
  let rawKey := fun item =>
    unwrapLocale (member (KEY_FIELD jamsConfig) (default [] (fields item))) in
  let transport := scripted [respond 200 "OK" (Some (pageOf (Some 1500%Z) l1));
                             respond 200 "OK" (Some (pageOf (Some 1500%Z) l2))] in
  length l1 = 1000 ∧ length l2 = 500
  ∧ NoDup (map rawKey (l1 ++ l2))
  ∧ Forall (fun item => ¬ archived item ∧ usable (rawKey item) = true) (l1 ++ l2)
  ∧ exists m,
      fst (fetchAllContentfulItems noEscape transport jamsConfig []) = Return m
      ∧ map url (snd (fetchAllContentfulItems noEscape transport jamsConfig [])) =
        ["https://api.contentful.com/spaces/space123/environments/master/entries?content_type=translation&limit=1000";
         "https://api.contentful.com/spaces/space123/environments/master/entries?content_type=translation&limit=1000&skip=1000"]
      ∧ size m = 1499
      ∧ m !! "__proto__" = None.
Proof.
  intros l1 l2 rawKey transport.
  assert (forall l, map rawKey (map numbered l) = map (fun i => Some ("key" +:+ pretty i)) l)
    as Hraw.
  { intros l. rewrite map_map. by apply map_ext. }
  assert (Inj (=) (=) (fun i : nat => Some ("key" +:+ pretty i))) as Hinj.
  { intros i j Heq. apply (inj Some) in Heq.
    apply (inj (String.app "key")) in Heq. by apply (inj pretty). }
  split; [unfold l1; by rewrite length_map, length_seq|].
  split; [unfold l2; by rewrite length_app, length_map, length_seq|].
  split; [|split].
  - unfold l1, l2. rewrite app_assoc, <- map_app, <- seq_app, map_app, Hraw.
    apply NoDup_app. split; [|split].
    + apply (NoDup_fmap_2 (fun i : nat => Some ("key" +:+ pretty i))), NoDup_seq.
    + intros k Hk Hproto. apply list_elem_of_fmap in Hk as (i & -> & _).
      apply list_elem_of_singleton in Hproto. discriminate Hproto.
    + apply NoDup_singleton.
  - unfold l1, l2. rewrite app_assoc, <- map_app. apply Forall_app. split.
    + apply Forall_forall. intros item Hin.
      apply list_elem_of_fmap in Hin as (i & -> & _). split; [|reflexivity].
      intros (s & [= <-] & [v Hv]). discriminate Hv.
    + constructor; [|constructor]. split; [|reflexivity].
      intros (s & [= <-] & [v Hv]). discriminate Hv.
  - destruct (two_pages_stored noEscape transport jamsConfig []
                {| ok := true; status := 200; statusText := "OK"; text := "";
                   json := Some (pageOf (Some 1500%Z) l1) |}
                (pageOf (Some 1500%Z) l1) l1 l2) as (m & Hrun & Hsize & Hkeys);
      try reflexivity.
    + unfold l1, l2. rewrite app_assoc, <- map_app. apply Forall_app. split.
      * apply numbered_have_sys.
      * constructor; [by eexists|constructor].
    + unfold l1, l2. rewrite app_assoc, <- map_app, <- seq_app, omap_app.
      change (omap (keyOf jamsConfig) [entry "entry1499" "__proto__" "value1499" None])
        with (@nil string).
      rewrite app_nil_r. apply numbered_keys_NoDup, NoDup_seq.
    + exists m. rewrite Hrun. split; [done|]. split; [reflexivity|]. split.
      * rewrite Hsize. unfold l1, l2. rewrite app_assoc, <- map_app, <- seq_app, omap_app.
        change (omap (keyOf jamsConfig) [entry "entry1499" "__proto__" "value1499" None])
          with (@nil string).
        by rewrite app_nil_r, numbered_keys, length_map, length_seq.
      * destruct (m !! "__proto__") as [r|] eqn:Hproto; [|done].
        assert ("__proto__" ∈ omap (keyOf jamsConfig) (l1 ++ l2)) as Hin
          by (apply Hkeys; by eexists).
        apply (list_elem_of_omap (keyOf jamsConfig)) in Hin as (item & _ & Hkey).
        unfold keyOf in Hkey.
        destruct (contribution jamsConfig item) as [[k r']|] eqn:Hitem; [|done].
        injection Hkey as ->. apply contribution_not_proto in Hitem.
        destruct (Hitem eq_refl).
Qed.

(** ** fetchAllContentfulItems: a page request that fails *)

(** C10: a page request after the first that fails (the request is
    rejected or times out, or its body does not parse) is replaced by the
    empty page and is no error.  When the first request delivers, the call
    asks for every remaining page of the declared total, page p after the
    first request and the pages 1 to p - 1, and its outcome is the merge
    of the first page and, for each of these pages in order, the parsed
    body the request delivered or the empty page when it failed: no
    failure of a later page is surfaced, and whenever the delivered
    entries can be processed the call returns the map of their keys, so
    the map can hold fewer keys than the total the first page declared
    (1000 keys for a declared 1500, when the second request is rejected).
    A first request that times out, is rejected, is answered with a
    status that is not ok or with a body that does not parse rejects the
    call, and no later page is requested. *)
Theorem later_page_failures_swallowed (encodeURIComponent : string -> string)
    (transport : Transport) (config : ContentfulConfig) (trace0 : list Request) :
  let firstReq := getRequest (firstUrl encodeURIComponent config) config in
  let pageReq := fun page => getRequest (pageUrl encodeURIComponent config page) config in
  let run := fetchAllContentfulItems encodeURIComponent transport config trace0 in
  (forall page trace,
     (forall r, transport trace (pageReq page) = Resolved r -> json r = None) ->
     pageRequest encodeURIComponent transport config page trace =
     (Return emptyPage, trace ++ [pageReq page]))
  ∧ (forall firstResponse firstData,
       transport trace0 firstReq = Resolved firstResponse ->
       ok firstResponse = true ->
       json firstResponse = Some firstData ->
       let declared := default 0%Z (total firstData) in
       let n := if bool_decide (declared > 1000)%Z then remainingPages declared else 0 in
       let history := fun page => trace0 ++ firstReq :: map pageReq (seq 1 (page - 1)) in
       let pageData := fun page =>
         match transport (history page) (pageReq page) with
         | Resolved r => match json r with
                         | Some data => data
                         | None => emptyPage
                         end
         | Rejected _ | Pending => emptyPage
         end in
       let allPages := firstData :: map pageData (seq 1 n) in
       let received := concat (map pageItems allPages) in
       snd run = trace0 ++ firstReq :: map pageReq (seq 1 n)
       ∧ fst run = match mergePages config allPages with
                   | Return m => Return m
                   | Throw (mkError _ message) =>
                       Throw (Error ("Failed to fetch Contentful items: " +:+ message))
                   | Throw thrown => Throw thrown
                   end
       ∧ (Forall (fun item => is_Some (sys item)) received ->
          exists m,
            fst run = Return m
            ∧ forall k, is_Some (m !! k) <-> k ∈ omap (keyOf config) received))
  ∧ (transport trace0 firstReq = Pending ->
     run = (Throw (Error "Failed to fetch Contentful items: Request timeout - please check your network connection"),
            trace0 ++ [firstReq]))
  ∧ (forall ename message,
       transport trace0 firstReq = Rejected (mkError ename message) ->
       run = (Throw (Error ("Failed to fetch Contentful items: " +:+ message)),
              trace0 ++ [firstReq]))
  ∧ (forall thrown,
       transport trace0 firstReq = Rejected (NotAnError thrown) ->
       run = (Throw (NotAnError thrown), trace0 ++ [firstReq]))
  ∧ (forall r,
       transport trace0 firstReq = Resolved r ->
       (ok r = false ->
        run = (Throw (Error ("Failed to fetch Contentful items: HTTP " +:+ pretty (status r)
                               +:+ ": " +:+ statusText r)),
               trace0 ++ [firstReq]))
       ∧ (ok r = true -> json r = None ->
          is_throw (fst run) = true ∧ snd run = trace0 ++ [firstReq]))
  ∧ (let answers := [respond 200 "OK"
                        (Some (pageOf (Some 1500%Z) (map numbered (seq 0 1000))));
                     Rejected (Error "Network error")] in
     exists m,
       fetchAllContentfulItems noEscape (scripted answers) jamsConfig [] =
         (Return m, [getRequest (firstUrl noEscape jamsConfig) jamsConfig;
                     getRequest (pageUrl noEscape jamsConfig 1) jamsConfig])
       ∧ size m = 1000).
Proof.
  intros firstReq pageReq run.
  split; [|split; [|split; [|split; [|split; [|split; [|]]]]]].
  - intros page trace Hfails. rewrite pageRequest_delivered. fold (pageReq page).
    f_equal. f_equal. unfold delivered.
    destruct (transport trace (pageReq page)) as [r|e|] eqn:Hpage; [|done..].
    by rewrite (Hfails r).
  - intros firstResponse firstData Hfirst Hok Hjson declared n history pageData allPages received.
    pose proof (fetchAllContentfulItems_run encodeURIComponent transport config trace0
                  firstResponse firstData Hfirst Hok Hjson) as Hrun.
    cbv zeta in Hrun. fold firstReq in Hrun.
    change (fetchAllContentfulItems encodeURIComponent transport config trace0 =
            (match mergePages config allPages with
             | Return m => Return m
             | Throw (mkError _ message) =>
                 Throw (Error ("Failed to fetch Contentful items: " +:+ message))
             | Throw thrown => Throw thrown
             end, trace0 ++ firstReq :: map pageReq (seq 1 n))) in Hrun.
    subst run. rewrite Hrun. split; [done|]. split; [done|].
    intros Hsys. unfold mergePages. fold received.
    rewrite processItems_Return by done. eexists. split; [reflexivity|].
    intros k. split.
    + intros [r Hk].
      destruct (store_lookup_inv config ∅ _ k r Hk) as [(item & Hin & Hitem)|Hempty];
        [|by rewrite lookup_empty in Hempty].
      apply (list_elem_of_omap (keyOf config)). exists item. split; [done|].
      unfold keyOf. by rewrite Hitem.
    + intros Hk. apply store_lookup_is_Some. by left.
  - intros Hfirst. subst run.
    unfold fetchAllContentfulItems, rethrow, try_catch, fetchAllPages, bind,
      fetchWithTimeout, lift, responseJson, throw.
    fold firstReq. by rewrite Hfirst.
  - intros ename message Hfirst. subst run.
    unfold fetchAllContentfulItems, rethrow, try_catch, fetchAllPages, bind,
      fetchWithTimeout, lift, responseJson, throw.
    fold firstReq. by rewrite Hfirst.
  - intros thrown Hfirst. subst run.
    unfold fetchAllContentfulItems, rethrow, try_catch, fetchAllPages, bind,
      fetchWithTimeout, lift, responseJson, throw.
    fold firstReq. by rewrite Hfirst.
  - intros r Hfirst. subst run.
    unfold fetchAllContentfulItems, rethrow, try_catch, fetchAllPages, bind,
      fetchWithTimeout, lift, responseJson, throw.
    fold firstReq. rewrite Hfirst. split.
    + by intros ->.
    + by intros -> ->.
  - intros answers.
    destruct (two_pages_stored noEscape (scripted answers) jamsConfig []
                {| ok := true; status := 200; statusText := "OK"; text := "";
                   json := Some (pageOf (Some 1500%Z) (map numbered (seq 0 1000))) |}
                (pageOf (Some 1500%Z) (map numbered (seq 0 1000)))
                (map numbered (seq 0 1000)) [])
      as (m & Hrun & Hsize & _);
      [reflexivity|reflexivity|reflexivity|reflexivity|reflexivity|reflexivity| | |].
    + rewrite app_nil_r. apply numbered_have_sys.
    + rewrite app_nil_r. apply numbered_keys_NoDup, NoDup_seq.
    + exists m. split; [exact Hrun|].
      rewrite Hsize, app_nil_r, numbered_keys, length_map, length_seq. reflexivity.
Qed.

Lemma later_page_failures_swallowed_witness :
  let transport :=
    scripted [respond 200 "OK"
                (Some (pageOf (Some 1500%Z) [entry "entry1" "jams_title" "Title" None]));
              Rejected (Error "Network error")] in
  let run := fetchAllContentfulItems noEscape transport jamsConfig [] in
  map url (snd run) =
    ["https://api.contentful.com/spaces/space123/environments/master/entries?content_type=translation&limit=1000";
     "https://api.contentful.com/spaces/space123/environments/master/entries?content_type=translation&limit=1000&skip=1000"]
  ∧ fst run = Return {[ "jams_title" := {| ref_value := "Title"; ref_id := "entry1" |} ]}.
Proof.
  intros transport run.
  destruct (later_page_failures_swallowed noEscape transport jamsConfig [])
    as (_ & Hdelivered & _).
  destruct (Hdelivered
              {| ok := true; status := 200; statusText := "OK"; text := "";
                 json := Some (pageOf (Some 1500%Z)
                                 [entry "entry1" "jams_title" "Title" None]) |}
              (pageOf (Some 1500%Z) [entry "entry1" "jams_title" "Title" None])
              eq_refl eq_refl eq_refl) as (Htrace & Hresult & _).
  split.
  - subst run. rewrite Htrace. reflexivity.
  - subst run. rewrite Hresult. reflexivity.
Defined.

(** The scenario of the design document: the entry is created, its publish
    call answers 500. *)
Example create_then_publish_failure :
  let run := saveItemToContentful noEscape
               (scripted [respond 201 "Created" (Some (entryAt "E2" 1));
                          respond 500 "Internal Server Error" None])
               jamsConfig
               {| save_key := "jams_new"; save_value := "New Value";
                  isUpdate := false; entryId := None |} [] in
  (success <$> fst_result run, error <$> fst_result run,
   (fun r => operation <$> errorDetails r) <$> fst_result run) =
  (Some false, Some (Some "Created but publish failed (500)"),
   Some (Some (Some "publish-new")))
  ∧ map url (snd run) =
    ["https://api.contentful.com/spaces/space123/environments/master/entries";
     "https://api.contentful.com/spaces/space123/environments/master/entries/E2/published"].
Proof. split; reflexivity. Qed.

(** [Math.ceil((total - limit) / limit)] on some totals. *)
Example remainingPages_examples :
  map remainingPages [1001; 1500; 2000; 2001; 3500]%Z = [1; 1; 1; 2; 3].
Proof. reflexivity. Qed.

(** The URLs of the two requests of a total of 1500. *)
Example page_urls :
  firstUrl noEscape jamsConfig =
    "https://api.contentful.com/spaces/space123/environments/master/entries?content_type=translation&limit=1000"
  ∧ pageUrl noEscape jamsConfig 1 =
    "https://api.contentful.com/spaces/space123/environments/master/entries?content_type=translation&limit=1000&skip=1000".
Proof. split; reflexivity. Qed.

(** An entry whose key has no en-US value is stored under the value of its
    first locale. *)
Example first_locale_fallback :
  fst (fetchAllContentfulItems noEscape
         (scripted [respond 200 "OK"
                      (Some (pageOf (Some 1%Z)
                               [{| code := None; item_name := None;
                                   sys := Some {| sys_id := "entry1"; version := Some 1%Z;
                                                  archivedVersion := None |};
                                   fields := Some [("key", Localized [("de-DE", "german_key")]);
                                                   ("value", Localized [("de-DE", "German Value")])]
                                |}]))])
         jamsConfig []) =
  Return {[ "german_key" := {| ref_value := "German Value"; ref_id := "entry1" |} ]}.
Proof. vm_compute. reflexivity. Qed.

(** * Further properties of the node service *)

(** ** The translation map *)

Lemma buildTranslationMap_foldl (translations : list Translation) (m : gmap string string)
    (k : string) :
  foldl (fun m t => if truthy (key t) && truthy (value t)
                    then <[key t := value t]> m else m) m translations !! k =
  match last (filter (fun t => truthy (key t) && truthy (value t)
                               && bool_decide (key t = k) = true) translations) with
  | Some t => Some (value t)
  | None => m !! k
  end.
Proof.
  revert m. induction translations as [|t rest IH]; intros m; simpl; [done|].
  rewrite IH.
  destruct (truthy (key t) && truthy (value t)) eqn:Husable.
  - destruct (decide (key t = k)) as [Hk|Hk].
    + rewrite filter_cons_True by (cbv beta; rewrite Husable; by rewrite bool_decide_eq_true_2).
      rewrite last_cons.
      destruct (last (filter _ rest)) as [t'|]; [done|].
      rewrite Hk. by rewrite lookup_insert_eq.
    + rewrite filter_cons_False
        by (cbv beta; rewrite Husable; by rewrite bool_decide_eq_false_2).
      destruct (last (filter _ rest)) as [t'|]; [done|].
      by rewrite lookup_insert_ne.
  - rewrite filter_cons_False by (cbv beta; by rewrite Husable).
    done.
Qed.

(** X1: the map applyTranslations looks node names up in binds a key to
    the value of the last translation of the list that carries this key
    with a non-empty key and a non-empty value, and to nothing when there
    is none; so a value found in the map is never empty. *)
Theorem buildTranslationMap_last_wins (translations : list Translation) (k : string) :
  buildTranslationMap translations !! k =
    value <$> last (filter (fun t => truthy (key t) && truthy (value t)
                                     && bool_decide (key t = k) = true) translations)
  ∧ forall v, buildTranslationMap translations !! k = Some v ->
              truthy k = true ∧ truthy v = true.
Proof.
  assert (buildTranslationMap translations !! k =
    value <$> last (filter (fun t => truthy (key t) && truthy (value t)
                                     && bool_decide (key t = k) = true) translations))
    as Hlookup.
  { unfold buildTranslationMap. rewrite buildTranslationMap_foldl.
    destruct (last _) as [t|]; [done|]. by rewrite lookup_empty. }
  split; [exact Hlookup|].
  intros v. rewrite Hlookup.
  destruct (last _) as [t|] eqn:Hlast; [|done].
  intros [= <-].
  apply last_Some_elem_of, list_elem_of_filter in Hlast as [Hp _].
  apply andb_true_iff in Hp as [[Hk Hv]%andb_true_iff Heq].
  apply bool_decide_eq_true in Heq. by rewrite <- Heq.
Qed.

(** ** The canvas applyTranslations leaves *)

Section TranslatedCanvas.

Variable RegExp : string -> option (string -> bool).
Variable fontFailure : FontName -> option string.

Lemma applyToNode_translated (tm : gmap string string) (pattern : string -> bool)
    (node : SceneNode) (st : ApplyState) :
  isTextNodeMatching pattern node = true ->
  fst (applyToNode fontFailure tm node st) = translated fontFailure tm pattern node.
Proof.
  intros Hmatch. rewrite applyToNode_delta. cbn [fst].
  unfold translated, translatable, fontsReady, applyToNode. rewrite Hmatch. simpl.
  destruct (locked node); [done|]. simpl.
  destruct (tm !! name node) as [translation|]; [|done]. simpl.
  destruct (truthy translation); [|done]. simpl.
  destruct (hasMissingFont node); [done|]. simpl.
  by destruct (loadNodeFonts fontFailure node []) as [[u|e] calls].
Qed.

Lemma translated_other (tm : gmap string string) (pattern : string -> bool)
    (node : SceneNode) :
  isTextNodeMatching pattern node = false ->
  translated fontFailure tm pattern node = node.
Proof. intros Hmatch. unfold translated, translatable. by rewrite Hmatch. Qed.

Lemma applyLoop_translated (tm : gmap string string) (pattern : string -> bool)
    (nodes : list SceneNode) (st : ApplyState) :
  fst (applyLoop fontFailure tm pattern nodes st) =
  map (translated fontFailure tm pattern) nodes.
Proof.
  revert st. induction nodes as [|node rest IH]; intros st; simpl; [done|].
  destruct (isTextNodeMatching pattern node) eqn:Hmatch.
  - pose proof (applyToNode_translated tm pattern node st Hmatch) as Hnode.
    destruct (applyToNode fontFailure tm node st) as [node' st']. simpl in Hnode.
    specialize (IH st').
    destruct (applyLoop fontFailure tm pattern rest st') as [rest' st'']. simpl in *.
    by rewrite Hnode, IH.
  - specialize (IH st).
    destruct (applyLoop fontFailure tm pattern rest st) as [rest' st']. simpl in *.
    by rewrite translated_other, IH.
Qed.

(** A page none of whose nodes is updated is left as it is. *)
Lemma translated_none (tm : gmap string string) (pattern : string -> bool)
    (nodes : list SceneNode) :
  filter (fun n => translatable tm pattern n && fontsReady fontFailure n = true) nodes = [] ->
  map (translated fontFailure tm pattern) nodes = nodes.
Proof.
  induction nodes as [|node rest IH]; [done|]. simpl.
  destruct (translatable tm pattern node && fontsReady fontFailure node) eqn:Hdone.
  - rewrite filter_cons_True by done. discriminate.
  - rewrite filter_cons_False by (cbv beta; by rewrite Hdone).
    intros Hrest. unfold translated at 1. by rewrite Hdone, IH.
Qed.

(** X2: the canvas after applyTranslations, whether the call returns or
    throws: on a page and with a well-formed pattern, every node is where
    it was, and it is the node it was unless it is a text node the pattern
    selects, not locked, with a translation under its name, no missing
    font and fonts that all load; such a node, and only such a node, has
    the translation as its characters. *)
Theorem applyTranslations_canvas (translations : list Translation)
    (config : ContentfulConfig) (figma : Figma)
    (pattern : string -> bool) (nodes : list SceneNode) :
  RegExp (NODE_NAME_PATTERN config) = Some pattern ->
  currentPage figma = Some nodes ->
  currentPage (snd (applyTranslations RegExp fontFailure translations config figma)) =
  Some (map (translated fontFailure (buildTranslationMap translations) pattern) nodes).
Proof.
  intros Hpattern Hpage. unfold applyTranslations, newRegExp.
  rewrite Hpattern, Hpage, textNodes_filter.
  destruct (decide (length (filter _ nodes) = 0)) as [Hnone|_].
  - simpl. rewrite Hpage. f_equal. symmetry. apply translated_none.
    apply length_zero_iff_nil in Hnone.
    induction nodes as [|node rest IH] in Hnone |- *; [done|].
    destruct (isTextNodeMatching pattern node) eqn:Hmatch.
    + rewrite filter_cons_True in Hnone by done. discriminate.
    + rewrite filter_cons_False in Hnone by (cbv beta; by rewrite Hmatch).
      rewrite filter_cons_False; [by apply IH|].
      cbv beta. unfold translatable. by rewrite Hmatch.
  - pose proof (applyLoop_translated (buildTranslationMap translations) pattern nodes
                  (initialState figma)) as Hloop.
    destruct (applyLoop _ _ _ _ _) as [nodes' st]. simpl in Hloop. rewrite Hloop.
    by destruct (decide (count st = 0)).
Qed.

(** X3: a call of applyTranslations that throws has changed no node:
    the page is as it was before the call (a malformed pattern, no page,
    no matching node, or no node updated). *)
Theorem applyTranslations_throw_leaves_canvas (translations : list Translation)
    (config : ContentfulConfig) (figma : Figma) :
  is_throw (fst (applyTranslations RegExp fontFailure translations config figma)) = true ->
  currentPage (snd (applyTranslations RegExp fontFailure translations config figma)) =
  currentPage figma.
Proof.
  unfold applyTranslations, newRegExp.
  destruct (RegExp (NODE_NAME_PATTERN config)) as [pattern|]; [|done].
  destruct (currentPage figma) as [nodes|] eqn:Hpage; [|by simpl].
  destruct (decide (length _ = 0)); [by simpl|].
  pose proof (applyLoop_translated (buildTranslationMap translations) pattern nodes
                (initialState figma)) as Hloop.
  pose proof (applyLoop_tally fontFailure (buildTranslationMap translations) pattern nodes)
    as (Hcount & _).
  rewrite applyLoop_delta in *.
  destruct (applyLoop fontFailure _ pattern nodes noCalls) as [nodes' d].
  cbn [fst snd addState count initialState] in *.
  destruct (decide (0 + count d = 0)) as [Hzero|Hsome]; [|done].
  intros _. cbn [snd currentPage]. rewrite Hloop. f_equal.
  apply translated_none. apply length_zero_iff_nil.
  unfold noCalls in Hcount. cbn [count] in Hcount. lia.
Qed.

End TranslatedCanvas.

Lemma applyTranslations_canvas_witness :
  currentPage (snd (applyTranslations exampleRegExp allFontsLoad
                      [{| key := "jams_hello"; value := "Hallo" |};
                       {| key := "jams_title"; value := "Titel" |}] jamsConfig
                      (canvasOf [labelAAB; lockedTitle]))) =
  Some [textNode "1" "jams_hello" "Hallo" false (Font (Arial "Regular")); lockedTitle].
Proof.
  apply (applyTranslations_canvas exampleRegExp allFontsLoad
           [{| key := "jams_hello"; value := "Hallo" |};
            {| key := "jams_title"; value := "Titel" |}] jamsConfig
           (canvasOf [labelAAB; lockedTitle]) (fun s => String.prefix "jams_" s)
           [labelAAB; lockedTitle]); reflexivity.
Defined.

Lemma applyTranslations_throw_leaves_canvas_witness :
  currentPage (snd (applyTranslations exampleRegExp allFontsLoad
                      [{| key := "jams_title"; value := "Titel" |}] jamsConfig
                      (canvasOf [lockedTitle]))) =
  Some [lockedTitle].
Proof.
  apply (applyTranslations_throw_leaves_canvas exampleRegExp allFontsLoad
           [{| key := "jams_title"; value := "Titel" |}] jamsConfig (canvasOf [lockedTitle])).
  reflexivity.
Defined.

(** ** The three readers of the page *)

Lemma filter_map_comm {A B} (f : A -> B) (P : B -> Prop) `{!∀ x, Decision (P x)}
    (l : list A) :
  filter P (map f l) = map f (filter (fun a => P (f a)) l).
Proof.
  induction l as [|a l IH]; [done|]. simpl. rewrite !filter_cons.
  destruct (decide (P (f a))); simpl; by rewrite IH.
Qed.

Section Readers.

Variable RegExp : string -> option (string -> bool).

(** The count is the number of the nodes listed that have a name. *)
Lemma getTranslatableNodeCount_named (page : Page) (config : ContentfulConfig)
    (infos : list TextNodeInfo) :
  getTranslatableNodes RegExp page config = Return infos ->
  getTranslatableNodeCount RegExp page config =
  length (filter (fun i => truthy (info_name i) = true) infos).
Proof.
  unfold getTranslatableNodes, getTranslatableNodeCount, newRegExp.
  destruct (RegExp (NODE_NAME_PATTERN config)) as [pattern|]; [|done].
  destruct page as [nodes|]; [|done].
  intros [= <-]. unfold findAllText.
  rewrite filter_map_comm, !list_filter_filter, length_map. simpl.
  f_equal. apply list_filter_iff. intros n.
  rewrite !andb_true_iff, bool_decide_eq_true. tauto.
Qed.

(** X4: when getTranslatableNodes returns, the pattern is well formed,
    getAllTextNodes returns too, the nodes returned are the text nodes of
    getAllTextNodes whose name the pattern accepts, in the same order, and
    getTranslatableNodeCount is the number of them with a non-empty name
    (the count tests [n.name &&], the list does not). *)
Theorem translatable_nodes_among_text_nodes (page : Page) (config : ContentfulConfig)
    (infos : list TextNodeInfo) :
  getTranslatableNodes RegExp page config = Return infos ->
  exists pattern allText,
    RegExp (NODE_NAME_PATTERN config) = Some pattern
    ∧ getAllTextNodes page = Return allText
    ∧ infos = filter (fun i => pattern (info_name i) = true) allText
    ∧ getTranslatableNodeCount RegExp page config =
      length (filter (fun i => truthy (info_name i) = true) infos).
Proof.
  intros Hnodes. pose proof (getTranslatableNodeCount_named page config infos Hnodes) as Hcount.
  revert Hnodes. unfold getTranslatableNodes, getAllTextNodes, newRegExp.
  destruct (RegExp (NODE_NAME_PATTERN config)) as [pattern|]; [|done].
  destruct page as [nodes|]; [|done].
  intros [= Hinfos]. exists pattern, (map toInfo (findAllText nodes)).
  split; [done|]. split; [done|]. split; [|done].
  rewrite <- Hinfos. unfold findAllText.
  rewrite !filter_map_comm, !list_filter_filter. simpl.
  f_equal. apply list_filter_iff. intros n.
  rewrite andb_true_iff, bool_decide_eq_true. tauto.
Qed.

End Readers.

Lemma translatable_nodes_among_text_nodes_witness :
  getTranslatableNodes exampleRegExp (Some [labelAAB; lockedTitle]) (withPattern "^jams_t") =
    Return [toInfo lockedTitle]
  ∧ getTranslatableNodeCount exampleRegExp (Some [labelAAB; lockedTitle])
      (withPattern "^jams_t") = 1.
Proof.
  split; [reflexivity|].
  destruct (translatable_nodes_among_text_nodes exampleRegExp (Some [labelAAB; lockedTitle])
              (withPattern "^jams_t") [toInfo lockedTitle] eq_refl)
    as (pattern & allText & Hpattern & Hall & Hinfos & Hcount).
  exact Hcount.
Defined.

(** ** updateMultipleNodes *)

Section UpdateMultipleNodes.

Variable fontFailure : FontName -> option string.




(** An iteration leaves every node of the page as it was, or has
    assigned the text to it. *)
Lemma updateNode_rewritten (newText nodeId : string) (successCount : nat)
    (errors : list string) (figma : Figma) (nodes : list SceneNode) :
  currentPage figma = Some nodes ->
  exists nodes',
    currentPage (snd (updateNode fontFailure newText nodeId successCount errors figma))
    = Some nodes'
    ∧ Forall2 (rewritten newText [nodeId]) nodes nodes'.
Proof.
  intros Hpage.
  assert (Forall2 (rewritten newText [nodeId]) nodes nodes) as Hsame.
  { apply Forall2_same_length_lookup. split; [done|].
    intros i x y Hx Hy. left. congruence. }
  unfold updateNode, getNodeByIdAsync. rewrite Hpage.
  destruct (list_find _ nodes) as [[i node]|] eqn:Hfind; [|by exists nodes].
  apply list_find_Some in Hfind as (Hi & Hid & _).
  destruct (decide (node_type node ≠ TEXT)) as [|Htype]; [by exists nodes|].
  destruct (hasMissingFont node) eqn:Hmissing; [by exists nodes|].
  destruct (loadNodeFonts _ _ _) as [[u|e] calls]; [|by exists nodes].
  simpl. rewrite Hpage. simpl. eexists. split; [done|].
  apply Forall2_same_length_lookup. split; [by rewrite length_insert|].
  intros j x y Hx Hy. destruct (decide (i = j)) as [<-|Hne].
  - rewrite list_lookup_insert_eq in Hy by (by eapply lookup_lt_Some).
    right. assert (x = node) as -> by congruence. injection Hy as <-.
    split; [done|]. split; [by destruct (node_type node); [|exfalso; apply Htype]|].
    split; [|done]. rewrite Hid. apply list_elem_of_here.
  - rewrite list_lookup_insert_ne in Hy by done. left. congruence.
Qed.

Lemma setCharacters_twice (node : SceneNode) (a b : string) :
  setCharacters (setCharacters node a) b = setCharacters node b.
Proof.
  unfold setCharacters. simpl.
  by destruct (fontName node) as [f|[|f ranges]].
Qed.

Lemma rewritten_trans (newText : string) (nodeId : string) (nodeIds : list string)
    (a b c : SceneNode) :
  rewritten newText [nodeId] a b ->
  rewritten newText nodeIds b c ->
  rewritten newText (nodeId :: nodeIds) a c.
Proof.
  intros [->|(-> & Htype & Hid & Hmissing)] [->|(-> & Htype' & Hid' & Hmissing')].
  - by left.
  - right. split; [done|]. split; [done|]. split; [by apply list_elem_of_further|done].
  - right. split; [done|]. split; [done|]. split; [|done].
    apply list_elem_of_singleton in Hid. rewrite Hid. apply list_elem_of_here.
  - right. rewrite setCharacters_twice. split; [done|]. split; [done|]. split; [|done].
    apply list_elem_of_singleton in Hid. rewrite Hid. apply list_elem_of_here.
Qed.

Lemma updateLoop_rewritten (newText : string) (nodeIds : list string) (successCount : nat)
    (errors : list string) (figma : Figma) (nodes : list SceneNode) :
  currentPage figma = Some nodes ->
  exists nodes',
    currentPage (snd (foldl (fun '(successCount, errors, figma) nodeId =>
                               updateNode fontFailure newText nodeId successCount errors figma)
                            (successCount, errors, figma) nodeIds))
    = Some nodes'
    ∧ Forall2 (rewritten newText nodeIds) nodes nodes'.
Proof.
  revert successCount errors figma nodes.
  induction nodeIds as [|nodeId rest IH]; intros successCount errors figma nodes Hpage; simpl.
  - exists nodes. split; [done|].
    apply Forall2_same_length_lookup. split; [done|].
    intros i x y Hx Hy. left. congruence.
  - destruct (updateNode_rewritten newText nodeId successCount errors figma nodes Hpage)
      as (nodes1 & Hpage1 & Hstep).
    destruct (updateNode fontFailure newText nodeId successCount errors figma)
      as [[successCount' errors'] figma'].
    destruct (IH successCount' errors' figma' nodes1 Hpage1) as (nodes2 & Hpage2 & Hrest).
    exists nodes2. split; [done|].
    apply Forall2_same_length_lookup. split.
    + apply Forall2_length in Hstep, Hrest. congruence.
    + intros i x z Hx Hz.
      destruct (Forall2_lookup_l _ _ _ _ _ Hstep Hx) as (y & Hy & Hxy).
      pose proof (Forall2_lookup_lr _ _ _ _ _ _ Hrest Hy Hz) as Hyz.
      by eapply rewritten_trans.
Qed.

(** X6: what updateMultipleNodes does to the page: the nodes stay where
    they are, and every node is what it was before the call unless it is
    a text node whose id is among the ids given and whose font is not
    missing, in which case it may have the new text as its characters.
    A node that is not a text node, a node whose id was not given and a
    node with a missing font are never changed; the locked flag plays no
    part. *)
Theorem updateMultipleNodes_frame (nodeIds : list string) (newText : string)
    (figma : Figma) (nodes : list SceneNode) :
  currentPage figma = Some nodes ->
  exists nodes',
    currentPage (snd (updateMultipleNodes fontFailure nodeIds newText figma)) = Some nodes'
    ∧ Forall2 (rewritten newText nodeIds) nodes nodes'.
Proof.
  intros Hpage. unfold updateMultipleNodes.
  destruct nodeIds as [|nodeId rest].
  - exists nodes. split; [done|].
    apply Forall2_same_length_lookup. split; [done|].
    intros i x y Hx Hy. left. congruence.
  - destruct (updateLoop_rewritten newText (nodeId :: rest) 0 [] figma nodes Hpage)
      as (nodes' & Hpage' & Hall).
    destruct (foldl _ _ (nodeId :: rest)) as [[successCount errors] figma'].
    by exists nodes'.
Qed.

End UpdateMultipleNodes.

Lemma updateMultipleNodes_frame_witness :
  exists nodes',
    currentPage (snd (updateMultipleNodes allFontsLoad ["1"] "New" (canvasOf [labelAAB; lockedTitle])))
    = Some nodes'
    ∧ Forall2 (rewritten "New" ["1"]) [labelAAB; lockedTitle] nodes'.
Proof.
  apply (updateMultipleNodes_frame allFontsLoad ["1"] "New" (canvasOf [labelAAB; lockedTitle])
           [labelAAB; lockedTitle]).
  reflexivity.
Defined.

Section UpdateMultipleNodesWrites.

Variable fontFailure : FontName -> option string.

Lemma rewritten_touched (newText : string) (ids : list string) (nodes cur cur' : list SceneNode) :
  Forall2 (fun a b => b = a ∨ b = setCharacters a newText) nodes cur ->
  Forall2 (rewritten newText ids) cur cur' ->
  Forall2 (fun a b => b = a ∨ b = setCharacters a newText) nodes cur'.
Proof.
  intros Hcur Hstep. apply Forall2_same_length_lookup. split.
  - apply Forall2_length in Hcur, Hstep. congruence.
  - intros i x z Hx Hz.
    destruct (Forall2_lookup_l _ _ _ _ _ Hcur Hx) as (y & Hy & Hxy).
    pose proof (Forall2_lookup_lr _ _ _ _ _ _ Hstep Hy Hz) as Hyz.
    destruct Hxy as [->| ->], Hyz as [->|(-> & _)]; try (by left); try (by right).
    right. apply setCharacters_twice.
Qed.

(** The node an id resolves to stays at its position while the loop
    runs: an assignment of characters changes no id. *)
Lemma list_find_touched (newText id : string) (nodes cur : list SceneNode)
    (i : nat) (node : SceneNode) :
  Forall2 (fun a b => b = a ∨ b = setCharacters a newText) nodes cur ->
  list_find (fun n => node_id n = id) nodes = Some (i, node) ->
  exists node', list_find (fun n => node_id n = id) cur = Some (i, node')
                ∧ (node' = node ∨ node' = setCharacters node newText).
Proof.
  intros Hcur (Hi & Hid & Hbefore)%list_find_Some.
  destruct (Forall2_lookup_l _ _ _ _ _ Hcur Hi) as (node' & Hi' & Hnode).
  exists node'. split; [|done].
  apply list_find_Some. split; [done|]. split.
  - by destruct Hnode as [->| ->].
  - intros j y Hj Hlt.
    destruct (Forall2_lookup_r _ _ _ _ _ Hcur Hj) as (x & Hx & Hy).
    specialize (Hbefore j x Hx Hlt). by destruct Hy as [->| ->].
Qed.

(** Once a node has the text, the rest of the loop leaves it with it. *)
Lemma updateLoop_keeps_text (newText : string) (nodeIds : list string) (successCount : nat)
    (errors : list string) (figma : Figma) (cur : list SceneNode) (i : nat) (n : SceneNode) :
  currentPage figma = Some cur ->
  cur !! i = Some n ->
  characters n = newText ->
  exists nodes' node',
    currentPage (snd (foldl (fun '(successCount, errors, figma) nodeId =>
                               updateNode fontFailure newText nodeId successCount errors figma)
                            (successCount, errors, figma) nodeIds))
    = Some nodes'
    ∧ nodes' !! i = Some node' ∧ characters node' = newText.
Proof.
  intros Hpage Hi Htext.
  destruct (updateLoop_rewritten fontFailure newText nodeIds successCount errors figma cur Hpage)
    as (nodes' & Hpage' & Hall).
  destruct (Forall2_lookup_l _ _ _ _ _ Hall Hi) as (node' & Hi' & Hnode).
  exists nodes', node'. split; [done|]. split; [done|].
  by destruct Hnode as [->|(-> & _)].
Qed.

(** The iteration for the id of a text node whose fonts are there leaves
    the node with the text. *)
Lemma updateNode_writes (newText id : string) (successCount : nat) (errors : list string)
    (figma : Figma) (cur : list SceneNode) (i : nat) (node node' : SceneNode) :
  currentPage figma = Some cur ->
  list_find (fun n => node_id n = id) cur = Some (i, node') ->
  node' = node ∨ node' = setCharacters node newText ->
  node_type node = TEXT ->
  fontsReady fontFailure node = true ->
  exists nodes1 node1,
    currentPage (snd (updateNode fontFailure newText id successCount errors figma))
    = Some nodes1
    ∧ nodes1 !! i = Some node1 ∧ characters node1 = newText.
Proof.
  intros Hpage Hfind Hnode Htype [Hmissing Hload]%andb_true_iff.
  apply negb_true_iff in Hmissing, Hload.
  pose proof Hfind as (Hi & _ & _)%list_find_Some.
  unfold updateNode, getNodeByIdAsync. rewrite Hpage, Hfind.
  assert (node_type node' = TEXT) as Htype' by (by destruct Hnode as [->| ->]).
  assert (hasMissingFont node' = false) as Hmissing' by (by destruct Hnode as [->| ->]).
  destruct (decide (node_type node' ≠ TEXT)) as [|_]; [done|].
  rewrite Hmissing'.
  rewrite loadNodeFonts_calls.
  destruct (fst (loadNodeFonts fontFailure node' [])) as [u|e] eqn:Hfonts.
  - simpl. rewrite Hpage. simpl. eexists _, _. split; [done|].
    split; [apply list_lookup_insert_eq; by eapply lookup_lt_Some|done].
  - simpl. exists cur, node'. split; [done|]. split; [done|].
    destruct Hnode as [->| ->]; [|done].
    rewrite Hfonts in Hload. discriminate.
Qed.

Lemma updateLoop_writes (newText id : string) (nodeIds : list string) (successCount : nat)
    (errors : list string) (figma : Figma) (nodes cur : list SceneNode)
    (i : nat) (node : SceneNode) :
  list_find (fun n => node_id n = id) nodes = Some (i, node) ->
  node_type node = TEXT ->
  fontsReady fontFailure node = true ->
  id ∈ nodeIds ->
  currentPage figma = Some cur ->
  Forall2 (fun a b => b = a ∨ b = setCharacters a newText) nodes cur ->
  exists nodes' node',
    currentPage (snd (foldl (fun '(successCount, errors, figma) nodeId =>
                               updateNode fontFailure newText nodeId successCount errors figma)
                            (successCount, errors, figma) nodeIds))
    = Some nodes'
    ∧ nodes' !! i = Some node' ∧ characters node' = newText.
Proof.
  intros Hfind Htype Hready.
  revert successCount errors figma cur.
  induction nodeIds as [|nodeId rest IH];
    intros successCount errors figma cur Hin Hpage Hcur; [by apply elem_of_nil in Hin|].
  simpl.
  destruct (updateNode_rewritten fontFailure newText nodeId successCount errors figma cur Hpage)
    as (nodes1 & Hpage1 & Hstep).
  destruct (decide (nodeId = id)) as [->|Hne].
  - destruct (list_find_touched newText id nodes cur i node Hcur Hfind)
      as (node' & Hfind' & Hnode').
    destruct (updateNode_writes newText id successCount errors figma cur i node node'
                Hpage Hfind' Hnode' Htype Hready) as (nodes1' & node1 & Hpage1' & Hi1 & Htext).
    destruct (updateNode fontFailure newText id successCount errors figma)
      as [[successCount' errors'] figma'].
    by apply (updateLoop_keeps_text newText rest successCount' errors' figma' nodes1' i node1).
  - apply elem_of_cons in Hin as [->|Hin]; [done|].
    pose proof (rewritten_touched newText [nodeId] nodes cur nodes1 Hcur Hstep) as Hcur1.
    destruct (updateNode fontFailure newText nodeId successCount errors figma)
      as [[successCount' errors'] figma'].
    by apply (IH successCount' errors' figma' nodes1).
Qed.

(** X7: updateMultipleNodes assigns the text to every text node it is
    given the id of whose font is not missing and whose fonts load,
    locked or not: after the call the node has the new text as its
    characters.  The node of an id is the first node of the page with
    that id. *)
Theorem updateMultipleNodes_writes (nodeIds : list string) (newText id : string)
    (figma : Figma) (i : nat) (node : SceneNode) :
  getNodeByIdAsync figma id = Some (i, node) ->
  id ∈ nodeIds ->
  node_type node = TEXT ->
  fontsReady fontFailure node = true ->
  exists nodes' node',
    currentPage (snd (updateMultipleNodes fontFailure nodeIds newText figma)) = Some nodes'
    ∧ nodes' !! i = Some node' ∧ characters node' = newText.
Proof.
  unfold getNodeByIdAsync.
  destruct (currentPage figma) as [nodes|] eqn:Hpage; [|done].
  intros Hfind Hin Htype Hready. unfold updateMultipleNodes.
  destruct nodeIds as [|nodeId rest]; [by apply elem_of_nil in Hin|].
  assert (Forall2 (fun a b => b = a ∨ b = setCharacters a newText) nodes nodes) as Hsame.
  { apply Forall2_same_length_lookup. split; [done|].
    intros j x y Hx Hy. left. congruence. }
  destruct (updateLoop_writes newText id (nodeId :: rest) 0 [] figma nodes nodes i node
              Hfind Htype Hready Hin Hpage Hsame) as (nodes' & node' & Hpage' & Hi & Htext).
  destruct (foldl _ _ (nodeId :: rest)) as [[successCount errors] figma'].
  by exists nodes', node'.
Qed.

End UpdateMultipleNodesWrites.

Lemma updateMultipleNodes_writes_witness :
  locked lockedTitle = true
  ∧ exists nodes' node',
      currentPage (snd (updateMultipleNodes allFontsLoad ["1"; "node1"] "New"
                          (canvasOf [labelAAB; lockedTitle]))) = Some nodes'
      ∧ nodes' !! 1 = Some node' ∧ characters node' = "New".
Proof.
  split; [reflexivity|].
  apply (updateMultipleNodes_writes allFontsLoad ["1"; "node1"] "New" "node1"
           (canvasOf [labelAAB; lockedTitle]) 1 lockedTitle).
  - reflexivity.
  - apply list_elem_of_further, list_elem_of_here.
  - reflexivity.
  - reflexivity.
Defined.

(** ** applyRecordToNodes *)

Section ApplyRecordToNodes.

Variable fontFailure : FontName -> option string.
Variable objectPrototype : string -> option string.

Lemma Forall2_same {A} (R : A -> A -> Prop) (l : list A) :
  (forall a, R a a) -> Forall2 R l l.
Proof. intros Hrefl. induction l; by constructor. Qed.

Lemma applyMapping_filled (recordFields : gmap string (option string)) (mapping : FieldMapping)
    (errors : list string) (figma : Figma) (nodes : list SceneNode) :
  currentPage figma = Some nodes ->
  exists nodes',
    currentPage (snd (applyMapping fontFailure objectPrototype recordFields mapping errors
                        figma)) = Some nodes'
    ∧ Forall2 (filled objectPrototype recordFields [mapping]) nodes nodes'.
Proof.
  intros Hpage.
  assert (Forall2 (filled objectPrototype recordFields [mapping]) nodes nodes) as Hsame
    by (apply Forall2_same; by left).
  unfold applyMapping, getNodeByIdAsync. rewrite Hpage.
  destruct (list_find _ nodes) as [[i node]|] eqn:Hfind; [|by exists nodes].
  apply list_find_Some in Hfind as (Hi & Hid & _).
  destruct (decide (node_type node ≠ TEXT)) as [|Htype]; [by exists nodes|].
  destruct (locked node) eqn:Hlocked; [by exists nodes|].
  destruct (getField objectPrototype recordFields (mapping_field mapping))
    as [textValue|] eqn:Hfield; [|by exists nodes].
  destruct (hasMissingFont node) eqn:Hmissing; [by exists nodes|].
  destruct (loadNodeFonts _ _ _) as [[u|e] calls]; [|by exists nodes].
  simpl. rewrite Hpage. simpl. eexists. split; [done|].
  apply Forall2_same_length_lookup. split; [by rewrite length_insert|].
  intros j x y Hx Hy. destruct (decide (i = j)) as [<-|Hne].
  - rewrite list_lookup_insert_eq in Hy by (by eapply lookup_lt_Some).
    right. assert (x = node) as -> by congruence. injection Hy as <-.
    exists mapping, textValue. split; [apply list_elem_of_here|].
    repeat split; try done.
    by destruct (node_type node); [|exfalso; apply Htype].
  - rewrite list_lookup_insert_ne in Hy by done. left. congruence.
Qed.

Lemma filled_trans (recordFields : gmap string (option string)) (mapping : FieldMapping)
    (mappings : list FieldMapping) (a b c : SceneNode) :
  filled objectPrototype recordFields [mapping] a b ->
  filled objectPrototype recordFields mappings b c ->
  filled objectPrototype recordFields (mapping :: mappings) a c.
Proof.
  intros [->|(m1 & v1 & Hin1 & Hid1 & Hfield1 & -> & Htype1 & Hlocked1 & Hmissing1)]
         [->|(m2 & v2 & Hin2 & Hid2 & Hfield2 & -> & Htype2 & Hlocked2 & Hmissing2)].
  - by left.
  - right. exists m2, v2. split; [by apply list_elem_of_further|done].
  - right. exists m1, v1. apply list_elem_of_singleton in Hin1 as ->.
    split; [apply list_elem_of_here|done].
  - right. exists m2, v2. rewrite setCharacters_twice.
    split; [by apply list_elem_of_further|done].
Qed.

(** X8: what applyRecordToNodes does to the page: the nodes stay where
    they are, and every node is what it was before the call unless it is
    an unlocked text node without missing font that a mapping names by
    its id, the record gives a value for the field of the mapping, as a
    property of its own that is neither undefined nor null or as a
    property it inherits from Object.prototype, and the node has this
    value, made a string, as its characters.  A locked node, a node no
    mapping names and a node whose mapped fields the record gives no
    value for are never changed. *)
Theorem applyRecordToNodes_frame (mappings : list FieldMapping)
    (recordFields : gmap string (option string)) (figma : Figma) (nodes : list SceneNode) :
  currentPage figma = Some nodes ->
  exists nodes',
    currentPage (snd (applyRecordToNodes fontFailure objectPrototype mappings recordFields
                        figma)) = Some nodes'
    ∧ Forall2 (filled objectPrototype recordFields mappings) nodes nodes'.
Proof.
  unfold applyRecordToNodes. generalize (@nil string). revert figma nodes.
  induction mappings as [|mapping rest IH]; intros figma nodes errors Hpage; simpl.
  - exists nodes. split; [done|]. apply Forall2_same. by left.
  - destruct (applyMapping_filled recordFields mapping errors figma nodes Hpage)
      as (nodes1 & Hpage1 & Hstep).
    destruct (applyMapping fontFailure objectPrototype recordFields mapping errors figma)
      as [errors' figma'].
    destruct (IH figma' nodes1 errors' Hpage1) as (nodes2 & Hpage2 & Hrest).
    exists nodes2. split; [done|].
    apply Forall2_same_length_lookup. split.
    + apply Forall2_length in Hstep, Hrest. congruence.
    + intros i x z Hx Hz.
      destruct (Forall2_lookup_l _ _ _ _ _ Hstep Hx) as (y & Hy & Hxy).
      pose proof (Forall2_lookup_lr _ _ _ _ _ _ Hrest Hy Hz) as Hyz.
      by eapply filled_trans.
Qed.

End ApplyRecordToNodes.

Lemma applyRecordToNodes_frame_witness :
  let mappings := [{| mapping_field := "title"; mapping_node := "1" |};
                   {| mapping_field := "constructor"; mapping_node := "3" |}] in
  let recordFields : gmap string (option string) := {[ "title" := Some "New Text" ]} in
  let heading := textNode "3" "heading" "Heading" false (Font (Arial "Regular")) in
  exists nodes',
    currentPage (snd (applyRecordToNodes allFontsLoad exampleObjectPrototype mappings
                        recordFields (canvasOf [labelAAB; lockedTitle; heading])))
    = Some nodes'
    ∧ Forall2 (filled exampleObjectPrototype recordFields mappings)
        [labelAAB; lockedTitle; heading] nodes'.
Proof.
  intros mappings recordFields heading.
  apply (applyRecordToNodes_frame allFontsLoad exampleObjectPrototype mappings recordFields
           (canvasOf [labelAAB; lockedTitle; heading]) [labelAAB; lockedTitle; heading]).
  reflexivity.
Defined.

(** A mapping whose field is the name of a property of Object.prototype
    writes the inherited value into its node. *)
Example applyRecordToNodes_inherited_field :
  let heading := textNode "3" "heading" "Heading" false (Font (Arial "Regular")) in
  currentPage (snd (applyRecordToNodes allFontsLoad exampleObjectPrototype
                      [{| mapping_field := "constructor"; mapping_node := "3" |}]
                      {[ "title" := Some "New Text" ]} (canvasOf [heading])))
  = Some [setCharacters heading "function Object() { [native code] }"].
Proof. reflexivity. Qed.

(** * Further properties of the Contentful gateway *)

(** ** The merge of the pages *)

Section MergeLastWins.

Variable config : ContentfulConfig.

Lemma store_lookup_last (acc : gmap string ItemRef) (l : list Item) (k : string) :
  foldl (store config) acc l !! k =
  match last (filter (fun c => fst c = k) (omap (contribution config) l)) with
  | Some c => Some (snd c)
  | None => acc !! k
  end.
Proof.
  revert acc. induction l as [|item rest IH]; intros acc; simpl; [done|].
  rewrite IH.
  assert (store config acc item = match contribution config item with
                                  | Some (k, r) => <[k := r]> acc
                                  | None => acc
                                  end) as Hstore by done.
  rewrite Hstore.
  destruct (contribution config item) as [[k' r']|]; simpl; [|done].
  destruct (decide (k' = k)) as [->|Hne].
  - rewrite filter_cons_True by done. rewrite last_cons.
    destruct (last _) as [c|]; [done|]. by rewrite lookup_insert_eq.
  - rewrite filter_cons_False by done.
    destruct (last _) as [c|]; [done|]. by rewrite lookup_insert_ne.
Qed.

(** X9: the merge of fetchAllContentfulItems, exactly: it throws when one
    of the delivered items has no [sys] (the test of the archived marker
    reads it), and otherwise returns the map that binds a key to the value
    and the id of the last delivered item, in the order of the pages, that
    is not archived and has this key with a usable key and value, and
    binds no other key; "__proto__" is the key of no item that is stored
    and is not a key of the map. *)
Theorem mergePages_last_wins (allPages : list Json) :
  let received := concat (map pageItems allPages) in
  (Forall (fun item => is_Some (sys item)) received ->
   exists m, mergePages config allPages = Return m
             ∧ (forall k, m !! k =
                          snd <$> last (filter (fun c => fst c = k)
                                          (omap (contribution config) received)))
             ∧ m !! "__proto__" = None
             ∧ forall c, c ∈ omap (contribution config) received -> fst c ≠ "__proto__")
  ∧ (¬ Forall (fun item => is_Some (sys item)) received ->
     is_throw (mergePages config allPages) = true).
Proof.
  simpl. unfold mergePages. split.
  - intros Hsys. rewrite processItems_Return by done.
    eexists. split; [done|]. split; [|split].
    + intros k. rewrite store_lookup_last.
      destruct (last _) as [c|]; [done|]. by rewrite lookup_empty.
    + by rewrite store_lookup_proto, lookup_empty.
    + intros [k r] Hc. apply list_elem_of_omap in Hc as (item & _ & Hitem).
      by apply contribution_not_proto in Hitem.
  - intros Hmissing.
    destruct (processItems config ∅ _) as [m|e] eqn:Hmerge; [|done].
    by apply processItems_inv in Hmerge as [Hsys _].
Qed.

End MergeLastWins.

Section SavedEntry.

Variable config : ContentfulConfig.

(** X10: an entry as saveItemToContentful writes it is read back by the
    merge of fetchAllContentfulItems: when the key field and the value
    field of the configuration differ and the key and the value saved are
    not empty, an unarchived entry with the fields of the save request
    is stored under the key saved, with the value saved and its own id;
    but an entry saved under the key "__proto__" is stored under no key,
    and the map stays as it was. *)
Theorem saved_entry_read_back (item : ContentfulSaveItem) (s : Sys)
    (acc : gmap string ItemRef) :
  KEY_FIELD config ≠ VALUE_FIELD config ->
  truthy (save_key item) = true ->
  truthy (save_value item) = true ->
  archivedVersion s = None ->
  processItem config acc
    {| code := None; item_name := None; sys := Some s;
       fields := Some (entryFields config item) |} =
  Return (if decide (save_key item = "__proto__") then acc
          else <[save_key item := {| ref_value := save_value item; ref_id := sys_id s |}]>
                 acc).
Proof.
  intros Hfields Hkey Hvalue Hlive. unfold processItem, entryFields. simpl.
  rewrite Hlive. destruct (decide (KEY_FIELD config = VALUE_FIELD config)); [done|].
  simpl. rewrite decide_True by done. rewrite decide_False by done.
  rewrite decide_True by done. simpl.
  rewrite Hkey, Hvalue. simpl. by rewrite Hkey, Hvalue.
Qed.

End SavedEntry.

Lemma saved_entry_read_back_witness :
  processItem jamsConfig ∅
    {| code := None; item_name := None;
       sys := Some {| sys_id := "e1"; version := Some 2%Z; archivedVersion := None |};
       fields := Some (entryFields jamsConfig
                         {| save_key := "jams_title"; save_value := "Title";
                            isUpdate := false; entryId := None |}) |} =
  Return {[ "jams_title" := {| ref_value := "Title"; ref_id := "e1" |} ]}.
Proof.
  apply (saved_entry_read_back jamsConfig
           {| save_key := "jams_title"; save_value := "Title";
              isUpdate := false; entryId := None |}
           {| sys_id := "e1"; version := Some 2%Z; archivedVersion := None |} ∅);
    [discriminate|reflexivity..].
Defined.

(** ** fetchTranslations *)

Lemma trim_truthy (s : string) : trim s ≠ "" -> truthy s = true.
Proof. intros Htrim. destruct s; [exfalso; by apply Htrim|done]. Qed.

(** [trim] on ASCII white space, on U+00A0, U+FEFF and U+2003, and in the
    middle of a string. *)
Example trim_examples :
  map trim [" en-US "; fromBytes [194; 160]; fromBytes [160];
            fromBytes [239; 187; 191; 100; 101; 226; 128; 131; 10];
            "de DE"; fromBytes [9; 10; 11; 12; 13; 32]] =
  ["en-US"; ""; ""; "de"; "de DE"; ""].
Proof. reflexivity. Qed.

Section FetchTranslations.

Variable encodeURIComponent : string -> string.
Variable transport : Transport.

(** X11: fetchTranslations makes no request for a blank locale (it
    throws "Invalid locale"), and one GET, with the trimmed locale in its
    URL, for any other; every translation it returns has a non-empty key
    and value, so that the translation map of applyTranslations has a
    value under the key of each of them. *)
Theorem fetchTranslations_usable (config : ContentfulConfig) (locale : string)
    (trace : list Request) :
  let run := fetchTranslations encodeURIComponent transport config locale trace in
  (trim locale = "" -> run = (Throw (Error "Invalid locale"), trace))
  ∧ (trim locale ≠ "" ->
     snd run = trace ++ [getRequest
                           (environmentUrl encodeURIComponent config
                              +:+ "/entries?content_type="
                              +:+ encodeURIComponent (CONTENT_TYPE config)
                              +:+ "&locale=" +:+ encodeURIComponent (trim locale)) config])
  ∧ forall translations, fst run = Return translations ->
      forall t, t ∈ translations ->
        truthy (key t) = true ∧ truthy (value t) = true
        ∧ is_Some (buildTranslationMap translations !! key t).
Proof.
  simpl. unfold fetchTranslations.
  destruct (bool_decide (trim locale = "")) eqn:Hlocale.
  { apply bool_decide_eq_true in Hlocale. split; [done|]. split; [done|]. by intros ?. }
  apply bool_decide_eq_false in Hlocale. split; [done|].
  unfold rethrow, try_catch, bind, fetchWithTimeout, checkStatus, lift, responseJson,
    itemsOf, ret, throw.
  destruct (transport trace _) as [r|[ename message|thrown]|]; [|by split..].
  destruct (ok r); simpl; [|split; [intros _; by repeat case_bool_decide|
                                    intros ?; by repeat case_bool_decide]].
  destruct (json r) as [data|]; [|by split].
  destruct (items data) as [l|]; [|by split].
  split; [done|]. intros translations [= Heq] t Ht.
  assert (truthy (key t) = true ∧ truthy (value t) = true) as [Hkey Hvalue].
  { rewrite <- Heq in Ht.
    apply list_elem_of_filter in Ht as [[Hk Hv] _]. split; by apply trim_truthy. }
  clear Heq. split; [done|]. split; [done|].
  unfold buildTranslationMap. rewrite buildTranslationMap_foldl.
  destruct (last _) as [t'|] eqn:Hlast; [by eexists|].
  apply last_None in Hlast.
  assert (t ∈ filter (fun t' => truthy (key t') && truthy (value t')
                                && bool_decide (key t' = key t) = true) translations)
    as Hin.
  { apply list_elem_of_filter. split; [|done].
    by rewrite Hkey, Hvalue, bool_decide_eq_true_2. }
  rewrite Hlast in Hin. by apply elem_of_nil in Hin.
Qed.

(** A locale that is one no-break space is blank. *)
Example fetchTranslations_no_break_space (config : ContentfulConfig) (trace : list Request) :
  fetchTranslations encodeURIComponent transport config (fromBytes [194; 160]) trace =
    (Throw (Error "Invalid locale"), trace)
  ∧ fetchTranslations encodeURIComponent transport config (fromBytes [160]) trace =
    (Throw (Error "Invalid locale"), trace).
Proof. split; reflexivity. Qed.

End FetchTranslations.

(** ** A response without items *)

Section MissingItems.

Variable encodeURIComponent : string -> string.
Variable transport : Transport.

Lemma concat_pageItems_nil (pages : list Json) :
  Forall (fun pageData => items pageData = None) pages ->
  concat (map pageItems pages) = [].
Proof.
  induction 1 as [|pageData rest Hpage _ IH]; simpl; [done|].
  unfold pageItems at 1. by rewrite Hpage, IH.
Qed.

(** X12: an accepted response whose body has no array of items is an
    error for the four list calls, which throw "Invalid response format"
    behind their prefix, and is no error for fetchAllContentfulItems,
    which returns the empty map. *)
Theorem missing_items_per_call (config : ContentfulConfig) (locale contentType : string)
    (trace0 : list Request) (response : Response) (data : Json) :
  (forall trace req, transport trace req = Resolved response) ->
  ok response = true ->
  json response = Some data ->
  items data = None ->
  trim locale ≠ "" ->
  fst (fetchLocales encodeURIComponent transport config trace0) =
    Throw (Error "Failed to load locales: Invalid response format")
  ∧ fst (fetchTranslations encodeURIComponent transport config locale trace0) =
    Throw (Error "Failed to load translations: Invalid response format")
  ∧ fst (fetchContentTypes encodeURIComponent transport config trace0) =
    Throw (Error "Failed to load content types: Invalid response format")
  ∧ fst (fetchRecords encodeURIComponent transport config contentType trace0) =
    Throw (Error "Failed to load records: Invalid response format")
  ∧ fst (fetchAllContentfulItems encodeURIComponent transport config trace0) = Return ∅.
Proof.
  intros Hresponse Hok Hjson Hitems Hlocale.
  split; [|split; [|split; [|split]]].
  1-4: unfold fetchLocales, fetchTranslations, fetchContentTypes, fetchRecords,
         rethrow, try_catch, bind, checkStatus, fetchWithTimeout, lift, responseJson,
         itemsOf, throw, ret;
       rewrite ?(bool_decide_eq_false_2 _ Hlocale);
       rewrite Hresponse, Hok; simpl; rewrite Hjson, Hitems; reflexivity.
  destruct (fetchAllPages_delivered encodeURIComponent transport config trace0 response data
              (Hresponse _ _) Hok Hjson) as (remainingData & Hpages & Hdelivered).
  rewrite (fetchAllContentfulItems_merge _ _ _ _ _ _ Hpages). simpl.
  unfold mergePages. rewrite concat_pageItems_nil; [done|].
  constructor; [done|].
  apply Forall_forall. intros pageData Hin.
  apply list_elem_of_lookup in Hin as [i Hi].
  destruct (Forall2_lookup_r _ _ _ _ _ Hdelivered Hi) as (page & _ & history & ->).
  rewrite Hresponse. simpl. by rewrite Hjson.
Qed.

End MissingItems.

Lemma missing_items_per_call_witness :
  let response := {| ok := true; status := 200; statusText := "OK"; text := "{}";
                     json := Some {| total := None; items := None; entry_sys := None |} |} in
  let transport : Transport := fun _ _ => Resolved response in
  fst (fetchRecords noEscape transport jamsConfig "translation" []) =
    Throw (Error "Failed to load records: Invalid response format")
  ∧ fst (fetchAllContentfulItems noEscape transport jamsConfig []) = Return ∅.
Proof.
  intros response transport.
  destruct (missing_items_per_call noEscape transport jamsConfig "en-US" "translation" []
              response {| total := None; items := None; entry_sys := None |})
    as (_ & _ & _ & Hrecords & Hall); try reflexivity; [discriminate|].
  by split.
Defined.

(** ** validateContentType *)

Section ValidateContentTypeSpec.

Variable encodeURIComponent : string -> string.
Variable transport : Transport.
Variable contentTypeOf : Response -> option ContentTypeData.

(** X13: validateContentType never throws and makes exactly one request,
    the GET of the content type.  It reports success exactly when the
    request was answered ok, the body parsed, and the ids of its fields
    (the empty string for a field without a string id, none when
    [fields] is not an array) contain the key field and the value field
    of the configuration; a failure always carries an error message: for
    a refused request "Content type not found" for 404 and "Content type
    check failed" for every other status (401 and 403 included), and for
    a content type without the key field the message for the key field,
    whether the value field is there or not. *)
Theorem validateContentType_spec (config : ContentfulConfig) (trace : list Request) :
  let request := getRequest (contentTypeUrl encodeURIComponent config) config in
  let fieldNames (d : ContentTypeData) := map (default "") (default [] (type_fields d)) in
  exists result,
    validateContentType encodeURIComponent transport contentTypeOf config trace =
      (Return result, trace ++ [request])
    ∧ (validated result = true <->
       exists r d, transport trace request = Resolved r ∧ ok r = true
                   ∧ contentTypeOf r = Some d
                   ∧ KEY_FIELD config ∈ fieldNames d ∧ VALUE_FIELD config ∈ fieldNames d)
    ∧ (validated result = true <-> validation_error result = None)
    ∧ (forall r, transport trace request = Resolved r -> ok r = false ->
         validation_error result =
         Some (if bool_decide (status r = 404)%Z then "Content type not found"
               else "Content type check failed"))
    ∧ (forall r d, transport trace request = Resolved r -> ok r = true ->
         contentTypeOf r = Some d -> KEY_FIELD config ∉ fieldNames d ->
         validation_error result = Some "Key field not found in content type").
Proof.
  intros request fieldNames.
  unfold validateContentType, try_catch, bind, fetchWithTimeout, lift, ret, rejected.
  fold request.
  destruct (transport trace request) as [r|e|] eqn:Hanswer.
  - destruct (ok r) eqn:Hok; simpl.
    + destruct (contentTypeOf r) as [d|] eqn:Hdata; simpl.
      * fold (fieldNames d).
        destruct (bool_decide (KEY_FIELD config ∈ fieldNames d)) eqn:Hkey; simpl.
        -- destruct (bool_decide (VALUE_FIELD config ∈ fieldNames d)) eqn:Hvalue; simpl.
           ++ apply bool_decide_eq_true in Hkey, Hvalue.
              eexists. split; [done|]. simpl. split; [|split; [done|]].
              ** split; [intros _; by exists r, d|done].
              ** split; [by intros r' [= <-]; congruence|].
                 intros r' d' [= <-] _ Hd'. by simplify_eq.
           ++ apply bool_decide_eq_true in Hkey. apply bool_decide_eq_false in Hvalue.
              eexists. split; [done|]. simpl. split; [|split; [done|]].
              ** split; [done|]. intros (r' & d' & [= <-] & _ & Hd' & _ & Hv).
                 by simplify_eq.
              ** split; [by intros r' [= <-]; congruence|].
                 intros r' d' [= <-] _ Hd'. by simplify_eq.
        -- apply bool_decide_eq_false in Hkey.
           eexists. split; [done|]. simpl. split; [|split; [done|]].
           ** split; [done|]. intros (r' & d' & [= <-] & _ & Hd' & Hk & _).
              by simplify_eq.
           ** split; [by intros r' [= <-]; congruence|done].
      * eexists. split; [done|]. simpl. split; [|split; [done|]].
        -- split; [done|]. intros (r' & d' & [= <-] & _ & Hd' & _). congruence.
        -- split; [by intros r' [= <-]; congruence|].
           intros r' d' [= <-] _ Hd'. congruence.
    + destruct (bool_decide (status r = 404)%Z) eqn:Hstatus; simpl;
        (eexists; split; [done|]; simpl; split; [|split; [done|]];
         [split; [done|]; intros (r' & d' & [= <-] & Hok' & _); congruence
         |split; [intros r' [= <-] _; by rewrite Hstatus
                 |intros r' d' [= <-] Hok'; congruence]]).
  - eexists. split; [done|]. simpl. split; [|split; [done|]].
    + split; [done|]. by intros (r' & d' & [=] & _).
    + split; [by intros r' [=]|by intros r' d' [=]].
  - eexists. split; [done|]. simpl. split; [|split; [done|]].
    + split; [done|]. by intros (r' & d' & [=] & _).
    + split; [by intros r' [=]|by intros r' d' [=]].
Qed.

End ValidateContentTypeSpec.

(** ** saveItemToContentful: the creation of an entry, and the result *)

Section SaveItemCreate.

Variable encodeURIComponent : string -> string.
Variable transport : Transport.

(** X14: a save that is no update of an existing entry (isUpdate unset,
    or no entry id) first posts the new entry, with the content type in
    its headers; a refused creation gives success false with operation
    "create" and the key of the item, and is the only request; a creation
    that fails in the network is the only request too: a time-out and a
    rejection with an Error give success false with the message of the
    error, reported under "update" when isUpdate was set and under
    "create" otherwise, and a rejection with a value that is no Error gives
    "Unknown error occurred" and names no operation; after a creation that
    answers with the id and the version of the new entry the one request
    that follows is the PUT that publishes this id at this version, and
    the result is success when it is accepted, and "Created but publish
    failed" with operation "publish-new" and the id when it is refused. *)
Theorem saveItemToContentful_create_protocol (config : ContentfulConfig)
    (item : ContentfulSaveItem) (trace0 : list Request) :
  updateTarget item = None ->
  let createReq :=
    createRequest config item (environmentUrl encodeURIComponent config +:+ "/entries") in
  let run := saveItemToContentful encodeURIComponent transport config item trace0 in
  let failed := fun (message : string) (op : option string) (thrown : string) =>
    {| success := false; error := Some message;
       errorDetails := Some {| ed_status := None; ed_response := None; operation := op;
                               ed_entryId := None; ed_version := None; ed_key := None;
                               exception := Some thrown |} |} in
  let attempted := Some (if isUpdate item then "update" else "create") in
  (exists rest, snd run = trace0 ++ createReq :: rest)
  ∧ (forall createResponse,
       transport trace0 createReq = Resolved createResponse ->
       ok createResponse = false ->
       run = (Return (stageFailure "Create failed" "create" createResponse None None
                        (Some (save_key item))),
              trace0 ++ [createReq]))
  ∧ (transport trace0 createReq = Pending ->
     run = (Return (failed "Request timeout - please check your network connection"
                      attempted "Error"),
            trace0 ++ [createReq]))
  ∧ (forall ename message,
       transport trace0 createReq = Rejected (mkError ename message) ->
       run = (Return (failed message attempted ename), trace0 ++ [createReq]))
  ∧ (forall thrown,
       transport trace0 createReq = Rejected (NotAnError thrown) ->
       run = (Return (failed "Unknown error occurred" None thrown), trace0 ++ [createReq]))
  ∧ (forall createResponse created s v,
       transport trace0 createReq = Resolved createResponse ->
       ok createResponse = true ->
       json createResponse = Some created ->
       entry_sys created = Some s ->
       version s = Some v ->
       let publishReq :=
         publishRequest config
           (entryUrl encodeURIComponent config (sys_id s) +:+ "/published") (pretty v) in
       snd run = trace0 ++ [createReq; publishReq]
       ∧ forall publishResponse,
           transport (trace0 ++ [createReq]) publishReq = Resolved publishResponse ->
           fst run = Return (if ok publishResponse then saved
                             else stageFailure "Created but publish failed" "publish-new"
                                    publishResponse (Some (sys_id s)) None None)).
Proof.
  intros Htarget createReq run failed attempted.
  subst run failed attempted. unfold saveItemToContentful. rewrite Htarget.
  unfold try_catch, createEntry, bind, lift, ret, fetchWithTimeout,
    responseJson, sysOf, versionToString.
  fold createReq.
  split; [|split; [|split; [|split; [|split]]]].
  - repeat (case_match; simplify_eq/=); rewrite <- ?app_assoc; simpl; eauto.
  - intros createResponse Hcreate Hrefused. by rewrite Hcreate, Hrefused.
  - intros Hcreate. by rewrite Hcreate.
  - intros ename message Hcreate. by rewrite Hcreate.
  - intros thrown Hcreate. by rewrite Hcreate.
  - intros createResponse created s v Hcreate Hok Hjson Hsys Hversion.
    rewrite Hcreate, Hok, Hjson, Hsys. simpl. rewrite Hversion. simpl.
    split.
    + repeat (case_match; simplify_eq/=); by rewrite <- !app_assoc.
    + intros publishResponse Hpublish. rewrite Hpublish.
      by destruct (ok publishResponse).
Qed.

(** X15: saveItemToContentful never throws: it returns a result for
    every item and every behaviour of the network.  A result with
    success false carries an error message and details, which name the
    operation, or name none when the message is "Unknown error occurred",
    for a value thrown that is no Error; a result with success true was
    preceded by three requests for an update (fetch, update, publish) and
    two for a creation (create, publish), the last of them answered ok. *)
Theorem saveItemToContentful_total (config : ContentfulConfig)
    (item : ContentfulSaveItem) (trace0 : list Request) :
  exists result made,
    saveItemToContentful encodeURIComponent transport config item trace0 =
      (Return result, trace0 ++ made)
    ∧ (success result = false ->
       is_Some (error result)
       ∧ exists details,
           errorDetails result = Some details
           ∧ ((exists op, operation details = Some op
                          ∧ op ∈ ["fetch"; "update"; "publish"; "create"; "publish-new"])
              ∨ (operation details = None
                 ∧ error result = Some "Unknown error occurred"
                 ∧ exists before req thrown,
                     transport (trace0 ++ before) req = Rejected (NotAnError thrown)
                     ∧ made = before ++ [req]
                     ∧ exception details = Some thrown)))
    ∧ (success result = true ->
       result = saved
       ∧ length made = match updateTarget item with Some _ => 3 | None => 2 end
       ∧ exists before publishReq publishResponse,
           made = before ++ [publishReq]
           ∧ method publishReq = PUT
           ∧ transport (trace0 ++ before) publishReq = Resolved publishResponse
           ∧ ok publishResponse = true).
Proof.
  unfold saveItemToContentful, try_catch, updateEntry, createEntry, bind, lift, ret,
    fetchWithTimeout, responseJson, sysOf, versionToString, stageFailure, saved.
  destruct (updateTarget item) as [id|], (isUpdate item);
    repeat (case_match; simplify_eq/=);
    rewrite <- ?app_assoc in *; simpl in *.
  all: eexists _, _; (split; [reflexivity|]); simpl.
  all: split; [intros ?; try done|intros ?; try done].
  all: first
    [ split; [by eexists|];
      eexists; split; [reflexivity|]; left;
      eexists; split; [reflexivity|];
      repeat first [apply list_elem_of_here | apply list_elem_of_further]
    | split; [by eexists|];
      eexists; split; [reflexivity|]; right;
      split; [reflexivity|]; split; [reflexivity|];
      first [eexists [], _, _; split; [rewrite app_nil_r; eassumption|]
            |eexists [_], _, _; split; [eassumption|]
            |eexists [_; _], _, _; split; [rewrite <- ?app_assoc; eassumption|]];
      split; reflexivity
    | split; [reflexivity|]; split; [reflexivity|];
      first [eexists [_; _], _, _; split; [reflexivity|]
            |eexists [_], _, _; split; [reflexivity|]];
      split; [reflexivity|]; split; [eassumption|];
      by rewrite ?negb_false_iff in * ].
Qed.

End SaveItemCreate.

Lemma saveItemToContentful_create_protocol_witness :
  let item := {| save_key := "jams_new"; save_value := "New Value";
                 isUpdate := false; entryId := None |} in
  let transport := scripted [respond 201 "Created" (Some (entryAt "E2" 1));
                             respond 500 "Internal Server Error" None] in
  map url (snd (saveItemToContentful noEscape transport jamsConfig item [])) =
  ["https://api.contentful.com/spaces/space123/environments/master/entries";
   "https://api.contentful.com/spaces/space123/environments/master/entries/E2/published"].
Proof.
  intros item transport.
  destruct (saveItemToContentful_create_protocol noEscape transport jamsConfig item []
              eq_refl) as (_ & _ & _ & _ & _ & Hcreated).
  destruct (Hcreated _ (entryAt "E2" 1) _ 1%Z eq_refl eq_refl eq_refl eq_refl eq_refl)
    as [Htrace _].
  rewrite Htrace. reflexivity.
Defined.

(** ** fetchAllContentfulItems: the plan of the requests *)

Section RequestPlan.

Variable encodeURIComponent : string -> string.
Variable transport : Transport.

Lemma remainingPages_covers (declared : Z) :
  (declared > limit)%Z ->
  (Z.of_nat (remainingPages declared) * limit < declared
   ∧ declared ≤ (Z.of_nat (remainingPages declared) + 1) * limit)%Z.
Proof.
  unfold remainingPages, limit. intros Hmore.
  rewrite Z2Nat.id by (apply Z.div_pos; lia).
  pose proof (Z.div_mod (declared - 1000 + (1000 - 1)) 1000 ltac:(lia)) as Hdiv.
  pose proof (Z.mod_pos_bound (declared - 1000 + (1000 - 1)) 1000 ltac:(lia)) as Hmod.
  lia.
Qed.

(** X16: once the first page of fetchAllContentfulItems is delivered
    with a declared total, the requests of the call are fixed, whatever
    the later answers are: the first request, then one request per
    remaining page, in order, with skip = 1000, 2000, ...; the windows of
    1000 entries requested cover every index below the total, and no page
    is requested whose skip is not below the total. *)
Theorem fetchAllContentfulItems_request_plan (config : ContentfulConfig)
    (trace0 : list Request) (firstResponse : Response) (firstData : Json) (declared : Z) :
  transport trace0 (getRequest (firstUrl encodeURIComponent config) config)
    = Resolved firstResponse ->
  ok firstResponse = true ->
  json firstResponse = Some firstData ->
  total firstData = Some declared ->
  let pages := if bool_decide (declared > limit)%Z then remainingPages declared else 0 in
  snd (fetchAllContentfulItems encodeURIComponent transport config trace0) =
    trace0 ++ getRequest (firstUrl encodeURIComponent config) config
           :: map (fun page => getRequest (pageUrl encodeURIComponent config page) config)
                (seq 1 pages)
  ∧ (declared ≤ (Z.of_nat pages + 1) * limit)%Z
  ∧ (0 < pages -> (Z.of_nat pages * limit < declared)%Z).
Proof.
  intros Hfirst Hok Hjson Htotal pages.
  destruct (fetchAllPages_delivered encodeURIComponent transport config trace0
              firstResponse firstData Hfirst Hok Hjson) as (remainingData & Hpages & _).
  rewrite (fetchAllContentfulItems_merge _ _ _ _ _ _ Hpages). simpl.
  rewrite Htotal. simpl. subst pages.
  destruct (bool_decide (declared > limit)%Z) eqn:Hmore.
  - apply bool_decide_eq_true in Hmore.
    destruct (remainingPages_covers declared Hmore) as [Hbelow Hcovered].
    split; [done|]. split; [done|]. by intros _.
  - apply bool_decide_eq_false in Hmore.
    split; [done|]. split; [unfold limit in *; lia|]. intros Hpages'. lia.
Qed.

End RequestPlan.

Lemma fetchAllContentfulItems_request_plan_witness :
  map url (snd (fetchAllContentfulItems noEscape
                  (scripted [respond 200 "OK" (Some (pageOf (Some 2500%Z) []))])
                  jamsConfig [])) =
  ["https://api.contentful.com/spaces/space123/environments/master/entries?content_type=translation&limit=1000";
   "https://api.contentful.com/spaces/space123/environments/master/entries?content_type=translation&limit=1000&skip=1000";
   "https://api.contentful.com/spaces/space123/environments/master/entries?content_type=translation&limit=1000&skip=2000"].
Proof.
  destruct (fetchAllContentfulItems_request_plan noEscape
              (scripted [respond 200 "OK" (Some (pageOf (Some 2500%Z) []))])
              jamsConfig [] _ (pageOf (Some 2500%Z) []) 2500%Z
              eq_refl eq_refl eq_refl eq_refl) as (Htrace & _ & _).
  rewrite Htrace. reflexivity.
Defined.

(** * The configuration service *)

Lemma blank_false (s : string) : blank s = false <-> trim s ≠ "".
Proof.
  unfold blank, truthy. rewrite orb_false_iff, !negb_false_iff, !negb_true_iff.
  rewrite !String.eqb_neq. split; [by intros [_ ?]|].
  intros Htrim. split; [|done]. intros ->. by apply Htrim.
Qed.

Section ValidateConfig.

Variable RegExp : string -> option (string -> bool).

(** X17: validateConfig accepts a configuration exactly when each of its
    seven fields has a character that is not white space and the node
    name pattern compiles.  With an accepted configuration
    getTranslatableNodes does not throw on a page.  The default
    configuration is never accepted: its space id is empty. *)
Theorem validateConfig_accepts (config : ContentfulConfig) :
  (validateConfig RegExp config = None <->
   Forall (fun s => trim s ≠ "")
     [SPACE_ID config; ENVIRONMENT config; CMA_TOKEN config; CONTENT_TYPE config;
      KEY_FIELD config; VALUE_FIELD config; NODE_NAME_PATTERN config]
   ∧ is_Some (RegExp (NODE_NAME_PATTERN config)))
  ∧ (validateConfig RegExp config = None ->
     forall nodes, is_throw (getTranslatableNodes RegExp (Some nodes) config) = false)
  ∧ validateConfig RegExp defaultConfig = Some "SPACE_ID is required".
Proof.
  split; [|split; [|done]].
  - unfold validateConfig, newRegExp.
    rewrite !Forall_cons, Forall_nil, <- !blank_false.
    destruct (blank (SPACE_ID config)); [split; [done|by intros [[? _] _]]|].
    destruct (blank (ENVIRONMENT config)); [split; [done|by intros [(_ & ? & _) _]]|].
    destruct (blank (CMA_TOKEN config)); [split; [done|by intros [(_ & _ & ? & _) _]]|].
    destruct (blank (CONTENT_TYPE config));
      [split; [done|by intros [(_ & _ & _ & ? & _) _]]|].
    destruct (blank (KEY_FIELD config));
      [split; [done|by intros [(_ & _ & _ & _ & ? & _) _]]|].
    destruct (blank (VALUE_FIELD config));
      [split; [done|by intros [(_ & _ & _ & _ & _ & ? & _) _]]|].
    destruct (blank (NODE_NAME_PATTERN config));
      [split; [done|by intros [(_ & _ & _ & _ & _ & _ & ? & _) _]]|].
    destruct (RegExp (NODE_NAME_PATTERN config)) as [test|].
    + split; [|done]. intros _. split; [by repeat split|by eexists].
    + split; [done|]. by intros [_ [? ?]].
  - unfold validateConfig, getTranslatableNodes.
    repeat (destruct (blank _); [done|]).
    by destruct (newRegExp RegExp (NODE_NAME_PATTERN config)).
Qed.

(** A space id that is one no-break space is refused. *)
Example validateConfig_no_break_space :
  validateConfig RegExp
    {| SPACE_ID := fromBytes [194; 160]; ENVIRONMENT := "master"; CMA_TOKEN := "token123";
       CONTENT_TYPE := "translation"; KEY_FIELD := "key"; VALUE_FIELD := "value";
       NODE_NAME_PATTERN := "^jams_" |} = Some "SPACE_ID is required"
  ∧ validateConfig RegExp
      {| SPACE_ID := fromBytes [160]; ENVIRONMENT := "master"; CMA_TOKEN := "token123";
         CONTENT_TYPE := "translation"; KEY_FIELD := "key"; VALUE_FIELD := "value";
         NODE_NAME_PATTERN := "^jams_" |} = Some "SPACE_ID is required".
Proof. split; reflexivity. Qed.

End ValidateConfig.

(** ** The stored configuration *)

(** X18: the stored configuration.  loadConfigFromStorage never throws
    and leaves the storage as it is; when the storage fails it returns
    the default configuration.  On a storage that works,
    saveConfigToStorage writes the slot of the configuration and no
    other, and a load after it returns the configuration saved, field by
    field; on a storage that fails it throws "Failed to save config to
    storage" and nothing is written. *)
Theorem config_storage_round_trip (config : ContentfulConfig) (store0 : ClientStorage) :
  (exists loaded, loadConfigFromStorage store0 = (Return loaded, store0))
  ∧ (rejecting store0 = false ->
     exists store1,
       saveConfigToStorage config store0 = (Return tt, store1)
       ∧ loadConfigFromStorage store1 = (Return config, store1)
       ∧ forall slot, slot ≠ configSlot -> slots store1 !! slot = slots store0 !! slot)
  ∧ (rejecting store0 = true ->
     saveConfigToStorage config store0 =
       (Throw (Error "Failed to save config to storage"), store0)
     ∧ loadConfigFromStorage store0 = (Return defaultConfig, store0)).
Proof.
  unfold loadConfigFromStorage, saveConfigToStorage, try_catch, bind, getAsync, setAsync,
    ret, throw.
  split; [|split].
  - destruct (rejecting store0); by eexists.
  - intros Hworks. rewrite Hworks. eexists. split; [done|]. simpl.
    split.
    + rewrite lookup_insert_eq. simpl. by destruct config.
    + intros slot Hslot. by rewrite lookup_insert_ne.
  - intros Hfails. by rewrite Hfails.
Qed.

(** * The handlers *)

Section HandlerProperties.

Variable RegExp : string -> option (string -> bool).
Variable encodeURIComponent : string -> string.
Variable transport : Transport.

(** X19: handleInit never throws and changes neither the page nor the
    storage.  It always posts the configuration it loaded, with the
    version of the plugin, and after it the count of the translatable
    nodes exactly when validateConfig accepts this configuration; when
    nothing usable is stored, or the storage fails, the one message
    posted is the default configuration. *)
Theorem handleInit_posts (plugin : Plugin) :
  let run := handleInit RegExp plugin in
  exists configData,
    fst (loadConfigFromStorage (storage plugin)) = Return configData
    ∧ fst run = Return tt
    ∧ page (snd run) = page plugin
    ∧ storage (snd run) = storage plugin
    ∧ requests (snd run) = requests plugin
    ∧ posted (snd run) =
      posted plugin ++ ConfigLoaded configData PLUGIN_VERSION ::
        match validateConfig RegExp configData with
        | None => [NodeCount (getTranslatableNodeCount RegExp (page plugin) configData)]
        | Some _ => []
        end
    ∧ (storedObject (slots (storage plugin) !! configSlot) = None
       ∨ rejecting (storage plugin) = true ->
       posted (snd run) = posted plugin ++ [ConfigLoaded defaultConfig PLUGIN_VERSION]).
Proof.
  simpl. unfold handleInit, bind, onStorage, loadConfigFromStorage, try_catch, bind,
    getAsync, postMessage, ret.
  destruct (rejecting (storage plugin)) eqn:Hrejecting; simpl.
  - exists defaultConfig. repeat split; try done; by rewrite <- app_assoc.
  - destruct (storedObject (slots (storage plugin) !! configSlot)) as [st|] eqn:Hstored;
      simpl.
    + eexists. split; [done|].
      destruct (validateConfig RegExp _); simpl;
        repeat split; try done; try (by rewrite <- app_assoc);
        by intros [?|?].
    + exists defaultConfig. repeat split; try done; by rewrite <- app_assoc.
Qed.

(** X20: handleSaveConfig writes a configuration to the storage only
    after validateConfig has accepted it: for a message without
    configuration or with a configuration that is refused it posts one
    config-save-failed message, with the reason, and leaves the storage
    as it is; for an accepted configuration on a storage that works it
    stores the configuration and posts config-saved and then the count of
    the translatable nodes under the new configuration; when the storage
    fails it throws "Failed to save config to storage" and posts
    nothing itself.  The page is never changed. *)
Theorem handleSaveConfig_validates (config : option ContentfulConfig) (plugin : Plugin) :
  let run := handleSaveConfig RegExp config plugin in
  page (snd run) = page plugin
  ∧ requests (snd run) = requests plugin
  ∧ (forall reason,
       match config with
       | None => reason = "No config provided"
       | Some c => validateConfig RegExp c = Some reason
       end ->
       run = (Return tt, {| page := page plugin; storage := storage plugin;
                            requests := requests plugin;
                            posted := posted plugin ++ [ConfigSaveFailed reason] |}))
  ∧ (forall c, config = Some c -> validateConfig RegExp c = None ->
       if rejecting (storage plugin)
       then run = (Throw (Error "Failed to save config to storage"), plugin)
       else fst run = Return tt
            ∧ fst (loadConfigFromStorage (storage (snd run))) = Return c
            ∧ posted (snd run) =
              posted plugin ++ [ConfigSaved c;
                                NodeCount (getTranslatableNodeCount RegExp (page plugin) c)]).
Proof.
  simpl. unfold handleSaveConfig.
  destruct config as [c|].
  - destruct (validateConfig RegExp c) as [reason|] eqn:Hvalid.
    + split; [done|]. split; [done|]. split; [by intros reason' [= <-]|]. intros c' [= <-] Hnone. congruence.
    + unfold bind, onStorage, saveConfigToStorage, loadConfigFromStorage, try_catch, bind,
        getAsync, setAsync, postMessage, ret, throw.
      destruct (rejecting (storage plugin)) eqn:Hrejecting; simpl.
      * split; [done|]. split; [done|]. split; [by intros reason [=]|].
        intros c' [= <-] _. by destruct plugin as [? [? ?] ? ?]; simpl in *; subst.
      * split; [done|]. split; [done|]. split; [by intros reason [=]|].
        intros c' [= <-] _. rewrite lookup_insert_eq. simpl.
        split; [done|]. split; [by destruct c|]. by rewrite <- app_assoc.
  - split; [done|]. split; [done|]. split; [by intros reason ->|]. by intros c [=].
Qed.

(** X21: handleGetTranslatableNodes never throws and posts exactly one
    message, changing nothing else.  The message is an error exactly when
    the request carries no configuration, the pattern of the
    configuration is malformed, or there is no page.  With a
    configuration that validateConfig accepts and a page, the message
    carries the translatable nodes, and the count that handleInit and
    handleSaveConfig post for this configuration is the number of these
    nodes that have a name. *)
Theorem handleGetTranslatableNodes_posts_once (config : option ContentfulConfig)
    (plugin : Plugin) :
  exists msg,
    handleGetTranslatableNodes RegExp config plugin =
      (Return tt,
       {| page := page plugin; storage := storage plugin; requests := requests plugin;
          posted := posted plugin ++ [msg] |})
    ∧ ((exists reason, msg = ErrorMessage reason) <->
       config = None
       ∨ (exists c, config = Some c ∧ RegExp (NODE_NAME_PATTERN c) = None)
       ∨ page plugin = None)
    ∧ (forall c nodes,
         config = Some c -> validateConfig RegExp c = None -> page plugin = Some nodes ->
         exists infos,
           msg = TranslatableNodesLoaded infos
           ∧ getTranslatableNodeCount RegExp (page plugin) c =
             length (filter (fun i => truthy (info_name i) = true) infos)).
Proof.
  unfold handleGetTranslatableNodes, try_catch, bind, lift, postMessage.
  destruct config as [c|].
  - destruct (getTranslatableNodes RegExp (page plugin) c) as [infos|e] eqn:Hnodes.
    + eexists. split; [done|]. split.
      * split; [by intros [reason [=]]|].
        revert Hnodes. unfold getTranslatableNodes, newRegExp.
        intros Hnodes [[=]|[(c' & [= <-] & Hpattern)|Hpage]].
        -- by rewrite Hpattern in Hnodes.
        -- rewrite Hpage in Hnodes. by destruct (RegExp _).
      * intros c' nodes [= <-] _ _. exists infos. split; [done|].
        by apply getTranslatableNodeCount_named.
    + eexists. split; [done|]. split.
      * split; [|by eexists]. intros _.
        revert Hnodes. unfold getTranslatableNodes, newRegExp.
        destruct (RegExp (NODE_NAME_PATTERN c)) as [pattern|] eqn:Hpattern;
          [|right; left; by exists c].
        destruct (page plugin); [done|]. by right; right.
      * intros c' nodes [= <-] Hvalid Hpage. exfalso.
        revert Hnodes Hvalid. unfold getTranslatableNodes, validateConfig. rewrite Hpage.
        repeat (destruct (blank _); [done|]).
        by destruct (newRegExp RegExp (NODE_NAME_PATTERN c)).
  - eexists. split; [done|]. split.
    + split; [by left|by eexists].
    + by intros c nodes [=].
Qed.

(** X22: handlePreflightTestLocales never throws, makes at most one
    request and posts exactly one result; the result is a success exactly
    when fetchLocales returned at least one locale with a code and a
    name, and its message then gives their number; an empty list of
    locales is reported as the failure "No locales found". *)
Theorem handlePreflightTestLocales_posts_once (config : option ContentfulConfig)
    (plugin : Plugin) :
  let run := handlePreflightTestLocales encodeURIComponent transport config plugin in
  exists succeeded msg,
    fst run = Return tt
    ∧ posted (snd run) = posted plugin ++ [PreflightLocalesResult succeeded msg]
    ∧ page (snd run) = page plugin
    ∧ storage (snd run) = storage plugin
    ∧ length (requests (snd run)) ≤ S (length (requests plugin))
    ∧ (succeeded = true <->
       exists c locales,
         config = Some c
         ∧ fst (fetchLocales encodeURIComponent transport c (requests plugin))
           = Return locales
         ∧ locales ≠ []
         ∧ msg = "Found " +:+ pretty (length locales) +:+ " locale(s)")
    ∧ (forall c, config = Some c ->
         fst (fetchLocales encodeURIComponent transport c (requests plugin)) = Return [] ->
         succeeded = false ∧ msg = "No locales found").
Proof.
  simpl. unfold handlePreflightTestLocales.
  destruct config as [c|].
  - unfold try_catch, bind, onNetwork, postMessage, throw.
    assert (length (snd (fetchLocales encodeURIComponent transport c (requests plugin)))
            ≤ S (length (requests plugin))) as Hrequests.
    { unfold fetchLocales, rethrow, try_catch, bind, fetchWithTimeout, checkStatus, lift,
        responseJson, itemsOf, ret, throw.
      repeat (case_match; simplify_eq/=); rewrite length_app; simpl; lia. }
    destruct (fetchLocales encodeURIComponent transport c (requests plugin))
      as [[locales|e] requests'] eqn:Hfetch; simpl in *.
    + destruct (decide (length locales = 0)) as [Hnone|Hsome]; simpl.
      * apply length_zero_iff_nil in Hnone as ->.
        eexists _, _. split; [done|]. split; [done|]. split; [done|]. split; [done|].
        split; [done|]. split; [|done].
        split; [done|].
        intros (c' & locales' & [= <-] & Hfetch' & Hne & _).
        rewrite Hfetch in Hfetch'. simpl in Hfetch'. injection Hfetch' as <-.
        by destruct Hne.
      * eexists _, _. split; [done|]. split; [done|]. split; [done|]. split; [done|].
        split; [done|]. split.
        -- split; [|done]. intros _. exists c, locales.
           split; [done|]. rewrite Hfetch. split; [done|]. split; [|done]. by intros ->.
        -- intros c' [= <-] Hfetch'. rewrite Hfetch in Hfetch'. simpl in Hfetch'.
           injection Hfetch' as ->. done.
    + eexists _, _. split; [done|]. split; [done|]. split; [done|]. split; [done|].
      split; [done|]. split.
      * split; [done|]. intros (c' & locales' & [= <-] & Hfetch' & _).
        rewrite Hfetch in Hfetch'. done.
      * intros c' [= <-] Hfetch'. rewrite Hfetch in Hfetch'. done.
  - unfold postMessage. eexists _, _. split; [done|]. simpl.
    split; [done|]. split; [done|]. split; [done|]. split; [lia|]. split.
    + split; [done|]. by intros (c' & locales' & [=] & _).
    + by intros c' [=].
Qed.

End HandlerProperties.

(** ** handleLoadMultipleRecords *)

Section LoadMultipleRecordsProperties.

Variable encodeURIComponent : string -> string.
Variable transport : Transport.

Local Abbreviation recordsRequest config contentType :=
  (getRequest (environmentUrl encodeURIComponent config +:+ "/entries?content_type="
                 +:+ encodeURIComponent contentType +:+ "&limit=100") config).




(** A content type named "__proto__" is asked for and has no entry in
    the message. *)
Example handleLoadMultipleRecords_proto (plugin : Plugin) :
  let answer := respond 200 "OK" (Some (pageOf None [])) in
  let run := handleLoadMultipleRecords noEscape (scripted [answer; answer])
               (Some jamsConfig) (Some ["translation"; "__proto__"])
               {| page := page plugin; storage := storage plugin;
                  requests := []; posted := [] |} in
  posted (snd run) = [MultipleRecordsLoaded {[ "translation" := [] ]}]
  ∧ length (requests (snd run)) = 2.
Proof. split; reflexivity. Qed.

End LoadMultipleRecordsProperties.

(** ** The duplicate gate of the message handler *)

Lemma letThrough_spaced (gate : GateState) (msgs : list (option string * Z)) :
  (forall t now, head (letThrough gate msgs) = Some (t, now) ->
     LastWas t ≠ lastMessageType gate
     ∨ (lastMessageTime gate + DUPLICATE_THRESHOLD_MS ≤ now)%Z)
  ∧ (forall i t1 now1 t2 now2,
       letThrough gate msgs !! i = Some (t1, now1) ->
       letThrough gate msgs !! S i = Some (t2, now2) ->
       t1 ≠ t2 ∨ (now1 + DUPLICATE_THRESHOLD_MS ≤ now2)%Z).
Proof.
  revert gate. induction msgs as [|[t now] rest IH]; intros gate; [done|].
  simpl. unfold duplicateGate.
  destruct (bool_decide (LastWas t = lastMessageType gate)
            && bool_decide (now - lastMessageTime gate < DUPLICATE_THRESHOLD_MS)%Z)
    eqn:Hduplicate.
  - apply IH.
  - destruct (IH {| lastMessageType := LastWas t; lastMessageTime := now |})
      as [Hhead Hpairs].
    split.
    + intros t' now' [= <- <-].
      apply andb_false_iff in Hduplicate as [Htype|Htime].
      * left. by apply bool_decide_eq_false in Htype.
      * right. apply bool_decide_eq_false in Htime. lia.
    + intros [|i] t1 now1 t2 now2; simpl.
      * intros [= <- <-] Hnext.
        destruct (Hhead t2 now2) as [Htype|Htime].
        { by destruct (letThrough _ rest). }
        -- left. simpl in Htype. congruence.
        -- by right.
      * apply Hpairs.
Qed.

Lemma letThrough_sublist (gate : GateState) (msgs : list (option string * Z)) :
  letThrough gate msgs `sublist_of` msgs.
Proof.
  revert gate. induction msgs as [|[t now] rest IH]; intros gate; [done|].
  simpl. destruct (duplicateGate gate t now) as [[|] gate'].
  - by apply sublist_skip.
  - by apply sublist_cons.
Qed.

(** X23: the gate in front of the message router.  Of any sequence of
    messages it lets through a subsequence, in order, that starts with
    the first message; two messages let through one after the other
    either differ in type or are at least 200 ms apart; and a message is
    held back only when it has the type of the last message let through
    and comes less than 200 ms after it, in which case the gate keeps
    the type and the time it had. *)
Theorem duplicateGate_spacing (msgs : list (option string * Z)) :
  let processed := letThrough initialGate msgs in
  processed `sublist_of` msgs
  ∧ head processed = head msgs
  ∧ (forall i t1 now1 t2 now2,
       processed !! i = Some (t1, now1) ->
       processed !! S i = Some (t2, now2) ->
       t1 ≠ t2 ∨ (now1 + 200 ≤ now2)%Z)
  ∧ (forall gate t now,
       fst (duplicateGate gate t now) = false ->
       lastMessageType gate = LastWas t
       ∧ (now - lastMessageTime gate < 200)%Z
       ∧ snd (duplicateGate gate t now) = gate).
Proof.
  simpl. split; [apply letThrough_sublist|]. split; [|split].
  - by destruct msgs as [|[t now] rest].
  - apply (letThrough_spaced initialGate msgs).
  - intros gate t now. unfold duplicateGate.
    destruct (bool_decide (LastWas t = lastMessageType gate)) eqn:Htype; simpl; [|done].
    destruct (bool_decide (now - lastMessageTime gate < DUPLICATE_THRESHOLD_MS)%Z)
      eqn:Htime; simpl; [|done].
    apply bool_decide_eq_true in Htype, Htime. by intros _.
Qed.
